(** * A shallow embedding of [full_graph_lib.c]

    The library keeps a directed graph as a singly linked list of
    nodes, every node owning a singly linked list of outgoing edges,
    and hands out node and edge identifiers from two process-wide
    counters backed by two recycle queues.

    The embedding follows the memory layout of the C code where the
    behaviour depends on it:

    - the cells of the edge lists ([graph_edge_list_t]) live in an
      explicit heap, addressed by natural numbers, because several
      functions copy a [graph_node_t] by value and thereby share its
      [edges] pointer between several owners;
    - a [graph_t] list is a Rocq list of node structs: every function
      that builds a graph allocates fresh [graph_t] cells and stores
      node structs in them by value, so two graph lists never share a
      cell, and "the pointer to a cell" is a position in the list;
    - the recycle queues ([id_list_t]) are Rocq lists of identifiers;
    - [id_t] is [unsigned int]: identifiers are integers in
      [0, 2^32) and the counters wrap around. *)

From Stdlib Require Import ZArith String Lia.
From stdpp Require Import base option list.

Local Open Scope Z_scope.

(** ** Constants of the source *)

Definition ERROR_ID : Z := 0.
Definition COMPLEMENTED_EDGE_DEFAULT_LABEL : string := "complemented_edge".
Definition COMPLEMENTED_EDGE_DEFAULT_WEIGHT : Z := 0.
Definition SERIES_EDGE_DEFAULT_LABEL : string := "series_composition_edge".
Definition SERIES_EDGE_DEFAULT_WEIGHT : Z := 0.
Definition DEFAULT_LABEL_CARTESIAN_PRODUCT : string := "cartesian_product_edge".
Definition DEFAULT_WEIGHT_CARTESIAN_PRODUCT : Z := 0.

(** [id_t] is [unsigned int]; [id_modulus] is the number of its values. *)
Definition id_modulus : Z := 2 ^ 32.

(** ** Data model *)

(** A pointer to an edge-list cell; [None] is [NULL]. *)
Abbreviation ptr := (option nat).

(** [struct graph_edge]; [endpoint_ids[0]] and [endpoint_ids[1]] are the
    two fields [endpoint_0] and [endpoint_1]. *)
Record graph_edge_t : Type := mk_edge {
  edge_weight : Z;
  edge_id : Z;
  edge_label : string;
  endpoint_0 : Z;
  endpoint_1 : Z
}.

(** [struct graph_edge_list]: one heap cell of an edge list. *)
Record graph_edge_list_t : Type := mk_cell {
  edge : graph_edge_t;
  next : ptr
}.

(** [struct graph_node]. *)
Record graph_node_t : Type := mk_node {
  node_id : Z;
  node_label : string;
  node_edges : ptr
}.

(** [graph_t *]: the list of node structs; [[]] is [NULL]. *)
Abbreviation graph_t := (list graph_node_t).

(** The global variables of the library and the heap of edge cells.
    A cell's address is its index in [heap]; [malloc] appends a cell
    (it never fails here, the out-of-memory branches of the source
    are not modelled), and [free] leaves the heap as it is, so a
    freed cell keeps its contents and its address is never reused. *)
Record state : Type := mk_state {
  global_node_id : Z;
  revoked_node_ids : list Z;
  global_edge_id : Z;
  revoked_edge_ids : list Z;
  heap : list graph_edge_list_t
}.

(** The globals as the C file initialises them. *)
Definition initial_state : state :=
  mk_state 1 [] 1 [] [].

Definition set_global_node_id (v : Z) (s : state) : state :=
  mk_state v (revoked_node_ids s) (global_edge_id s) (revoked_edge_ids s) (heap s).
Definition set_revoked_node_ids (v : list Z) (s : state) : state :=
  mk_state (global_node_id s) v (global_edge_id s) (revoked_edge_ids s) (heap s).
Definition set_global_edge_id (v : Z) (s : state) : state :=
  mk_state (global_node_id s) (revoked_node_ids s) v (revoked_edge_ids s) (heap s).
Definition set_revoked_edge_ids (v : list Z) (s : state) : state :=
  mk_state (global_node_id s) (revoked_node_ids s) (global_edge_id s) v (heap s).
Definition set_heap (v : list graph_edge_list_t) (s : state) : state :=
  mk_state (global_node_id s) (revoked_node_ids s) (global_edge_id s) (revoked_edge_ids s) v.

Definition set_node_edges (p : ptr) (n : graph_node_t) : graph_node_t :=
  mk_node (node_id n) (node_label n) p.
Definition set_endpoint_0 (v : Z) (e : graph_edge_t) : graph_edge_t :=
  mk_edge (edge_weight e) (edge_id e) (edge_label e) v (endpoint_1 e).
Definition set_endpoint_1 (v : Z) (e : graph_edge_t) : graph_edge_t :=
  mk_edge (edge_weight e) (edge_id e) (edge_label e) (endpoint_0 e) v.

(** ** The monad of the embedding

    A C function that reads or writes the globals or the heap is a
    state transformer that may fail; [None] stands for a run that
    dereferences an address outside the heap or that never leaves a
    loop over a cyclic edge list. *)

Definition M (A : Type) : Type := state -> option (A * state).

Definition ret {A : Type} (a : A) : M A := fun s => Some (a, s).

Definition bind {A B : Type} (m : M A) (k : A -> M B) : M B :=
  fun s => match m s with
           | Some (a, s') => k a s'
           | None => None
           end.

Definition fail {A : Type} : M A := fun _ => None.

Notation "x <- m ;; k" := (bind m (fun x => k))
  (at level 100, m at next level, right associativity).

Definition get_state : M state := fun s => Some (s, s).
Definition put_state (s : state) : M unit := fun _ => Some (tt, s).
Definition lift_option {A : Type} (o : option A) : M A :=
  fun s => match o with Some a => Some (a, s) | None => None end.

(** [*p] for a cell pointer. *)
Definition load (a : nat) : M graph_edge_list_t :=
  fun s => match heap s !! a with
           | Some c => Some (c, s)
           | None => None
           end.

(** [*p = c] for a cell pointer. *)
Definition store (a : nat) (c : graph_edge_list_t) : M unit :=
  fun s => match heap s !! a with
           | Some _ => Some (tt, set_heap (<[a := c]> (heap s)) s)
           | None => None
           end.

(** [malloc(sizeof(graph_edge_list_t))] followed by the initialisation
    of the new cell. *)
Definition malloc_cell (c : graph_edge_list_t) : M nat :=
  fun s => Some (length (heap s), set_heap (heap s ++ [c]) s).

(** Every loop over an edge list gets as much fuel as the heap has
    cells, plus one: an acyclic list cannot be longer. *)
Definition loop_fuel (s : state) : nat := S (length (heap s)).
Global Arguments loop_fuel : simpl never.

(** ** Identifier allocator *)

(** [set_node_id]: [return global_node_id++;] *)
Definition set_node_id : M Z :=
  fun s => Some (global_node_id s,
                 set_global_node_id ((global_node_id s + 1) mod id_modulus) s).

(** [set_edge_id]: [return global_edge_id++;] *)
Definition set_edge_id : M Z :=
  fun s => Some (global_edge_id s,
                 set_global_edge_id ((global_edge_id s + 1) mod id_modulus) s).

(** [append_revoked_id]: the identifier goes to the end of the queue. *)
Definition append_revoked_id (l : list Z) (i : Z) : list Z := l ++ [i].

(** [pop_front_revoked_id]: the new queue and the value written to [*id]. *)
Definition pop_front_revoked_id (l : list Z) : list Z * Z :=
  match l with
  | i :: l' => (l', i)
  | [] => ([], ERROR_ID)
  end.

(** [find_revoked_id]; the same scan is written out inside
    [exists_node_from_id] and [exists_edge_from_id]. *)
Fixpoint find_revoked_id (l : list Z) (i : Z) : bool :=
  match l with
  | [] => false
  | j :: l' => if Z.eqb j i then true else find_revoked_id l' i
  end.

(** [exists_node_from_id] *)
Definition exists_node_from_id (i : Z) (s : state) : bool :=
  if Z.leb i (global_node_id s)
  then negb (find_revoked_id (revoked_node_ids s) i)
  else false.

(** [exists_edge_from_id] *)
Definition exists_edge_from_id (i : Z) (s : state) : bool :=
  if Z.leb i (global_edge_id s)
  then negb (find_revoked_id (revoked_edge_ids s) i)
  else false.

(** [create_new_node] *)
Definition create_new_node (label : string) : M graph_node_t :=
  fun s =>
    match revoked_node_ids s with
    | _ :: _ =>
        let '(l', i) := pop_front_revoked_id (revoked_node_ids s) in
        Some (mk_node i label None, set_revoked_node_ids l' s)
    | [] =>
        match set_node_id s with
        | Some (i, s') => Some (mk_node i label None, s')
        | None => None
        end
    end.

(** [create_new_edge]; the label is copied into a fresh buffer, which a
    string value already is. *)
Definition create_new_edge (weight : Z) (label : string) (e0 e1 : Z) : M graph_edge_t :=
  fun s =>
    match revoked_edge_ids s with
    | _ :: _ =>
        let '(l', i) := pop_front_revoked_id (revoked_edge_ids s) in
        Some (mk_edge weight i label e0 e1, set_revoked_edge_ids l' s)
    | [] =>
        match set_edge_id s with
        | Some (i, s') => Some (mk_edge weight i label e0 e1, s')
        | None => None
        end
    end.

(** ** Graph list actions *)

(** [graph_dim] *)
Definition graph_dim (graph : graph_t) : nat := length graph.

(** The scan [while (ptr && ptr->node.id != id) ptr = ptr->next;] shared
    by [find_node], [get_node_from_id], [delete_node] and the
    [..._node] helpers: the position of the cell it stops at. *)
Fixpoint node_index (graph : graph_t) (i : Z) : option nat :=
  match graph with
  | [] => None
  | n :: rest =>
      if Z.eqb (node_id n) i then Some O
      else match node_index rest i with
           | Some k => Some (S k)
           | None => None
           end
  end.

(** [find_node]: the cell that holds the node, [None] for [NULL]. *)
Definition find_node (graph : graph_t) (i : Z) : option nat := node_index graph i.

(** [get_node_from_id] returns [&(ptr->node)]; [node] is the first
    member of [struct graph], so for [ptr == NULL] the address is
    [NULL] again and the callers' tests [if (merge_node && donor_node)]
    see an absent node. *)
Definition get_node_from_id (graph : graph_t) (i : Z) : option nat := node_index graph i.

(** [push_node]: nothing is pushed on an empty graph. *)
Definition push_node (graph : graph_t) (node : graph_node_t) : graph_t :=
  match graph with
  | [] => []
  | _ :: _ => node :: graph
  end.

(** [append_node] *)
Definition append_node (graph : graph_t) (node : graph_node_t) : graph_t :=
  graph ++ [node].

(** [delete_node]: the node's identifier is revoked, its cell is
    unlinked; the edge list of the node is not visited. *)
Definition delete_node (graph : graph_t) (i : Z) : M graph_t :=
  fun s =>
    match node_index graph i with
    | Some k =>
        match graph !! k with
        | Some n =>
            Some (delete k graph,
                  set_revoked_node_ids (append_revoked_id (revoked_node_ids s) (node_id n)) s)
        | None => None
        end
    | None => Some (graph, s)
    end.

(** ** Edge list actions *)

(** [push_edge]: nothing is pushed on an empty list. *)
Definition push_edge (edges : ptr) (e : graph_edge_t) : M ptr :=
  match edges with
  | Some _ => elem <- malloc_cell (mk_cell e edges) ;; ret (Some elem)
  | None => ret None
  end.

(** [for (ptr = edges; ptr->next != NULL; ptr = ptr->next);] *)
Fixpoint last_cell (fuel : nat) (h : list graph_edge_list_t) (a : nat) : option nat :=
  match fuel with
  | O => None
  | S fuel' =>
      match h !! a with
      | Some c =>
          match next c with
          | None => Some a
          | Some b => last_cell fuel' h b
          end
      | None => None
      end
  end.

(** [append_edge] *)
Definition append_edge (edges : ptr) (e : graph_edge_t) : M ptr :=
  elem <- malloc_cell (mk_cell e None) ;;
  match edges with
  | Some a =>
      s <- get_state ;;
      z <- lift_option (last_cell (loop_fuel s) (heap s) a) ;;
      c <- load z ;;
      _ <- store z (mk_cell (edge c) (Some elem)) ;;
      ret edges
  | None => ret (Some elem)
  end.

(** The scan of [delete_edge], [while (del && del->edge.id != id)]:
    the values of [prev] and [del] when the loop is left. *)
Fixpoint scan_edge_id (fuel : nat) (h : list graph_edge_list_t) (prev del : ptr) (i : Z)
  : option (ptr * ptr) :=
  match del with
  | None => Some (prev, None)
  | Some a =>
      match fuel with
      | O => None
      | S fuel' =>
          match h !! a with
          | Some c =>
              if Z.eqb (edge_id (edge c)) i then Some (prev, Some a)
              else scan_edge_id fuel' h (Some a) (next c) i
          | None => None
          end
      end
  end.

(** [delete_edge] *)
Definition delete_edge (edges : ptr) (i : Z) : M ptr :=
  s <- get_state ;;
  match edges with
  | Some _ =>
      if exists_edge_from_id i s then
        r <- lift_option (scan_edge_id (loop_fuel s) (heap s) None edges i) ;;
        match snd r with
        | Some d =>
            dc <- load d ;;
            _ <- put_state (set_revoked_edge_ids
                              (append_revoked_id (revoked_edge_ids s) (edge_id (edge dc))) s) ;;
            match fst r with
            | None => ret (next dc)
            | Some p =>
                pc <- load p ;;
                _ <- store p (mk_cell (edge pc) (next dc)) ;;
                ret edges
            end
        | None => ret edges
        end
      else ret edges
  | None => ret edges
  end.

(** The loop of [delete_edge_list], which is also the inner loop of
    [delete_graph]: every identifier met is revoked. *)
Fixpoint revoke_edge_ids (fuel : nat) (edges : ptr) : M unit :=
  match edges with
  | None => ret tt
  | Some a =>
      match fuel with
      | O => fail
      | S fuel' =>
          c <- load a ;;
          s <- get_state ;;
          _ <- put_state (set_revoked_edge_ids
                            (append_revoked_id (revoked_edge_ids s) (edge_id (edge c))) s) ;;
          revoke_edge_ids fuel' (next c)
      end
  end.

(** [delete_edge_list] *)
Definition delete_edge_list (edges : ptr) : M ptr :=
  s <- get_state ;;
  _ <- revoke_edge_ids (loop_fuel s) edges ;;
  ret None.

(** [delete_graph] *)
Fixpoint delete_graph (graph : graph_t) : M graph_t :=
  match graph with
  | [] => ret []
  | n :: rest =>
      s <- get_state ;;
      _ <- put_state (set_revoked_node_ids
                        (append_revoked_id (revoked_node_ids s) (node_id n)) s) ;;
      _ <- revoke_edge_ids (loop_fuel s) (node_edges n) ;;
      delete_graph rest
  end.

(** [edge_list_dim] *)
Fixpoint edge_list_dim_loop (fuel : nat) (h : list graph_edge_list_t) (edges : ptr) : option nat :=
  match edges with
  | None => Some O
  | Some a =>
      match fuel with
      | O => None
      | S fuel' =>
          match h !! a with
          | Some c =>
              match edge_list_dim_loop fuel' h (next c) with
              | Some k => Some (S k)
              | None => None
              end
          | None => None
          end
      end
  end.

Definition edge_list_dim (edges : ptr) : M nat :=
  s <- get_state ;; lift_option (edge_list_dim_loop (loop_fuel s) (heap s) edges).

(** [delete_edge_from_node] *)
Definition delete_edge_from_node (graph : graph_t) (nid eid : Z) : M graph_t :=
  match node_index graph nid with
  | Some k =>
      n <- lift_option (graph !! k) ;;
      p <- delete_edge (node_edges n) eid ;;
      ret (<[k := set_node_edges p n]> graph)
  | None => ret graph
  end.

(** ** Adjacency matrix *)

(** The innermost loop of [create_graph_matrix]: does the edge list
    hold an edge whose destination is [target]? *)
Fixpoint has_edge_to (fuel : nat) (h : list graph_edge_list_t) (edges : ptr) (target : Z)
  : option bool :=
  match edges with
  | None => Some false
  | Some a =>
      match fuel with
      | O => None
      | S fuel' =>
          match h !! a with
          | Some c =>
              if Z.eqb (endpoint_1 (edge c)) target then Some true
              else has_edge_to fuel' h (next c) target
          | None => None
          end
      end
  end.

(** One row of the matrix: the loop over [col_ptr]. *)
Fixpoint matrix_row (fuel : nat) (h : list graph_edge_list_t) (row_edges : ptr) (cols : graph_t)
  : option (list Z) :=
  match cols with
  | [] => Some []
  | c :: cols' =>
      match has_edge_to fuel h row_edges (node_id c) with
      | Some b =>
          match matrix_row fuel h row_edges cols' with
          | Some r => Some ((if b then 1 else 0) :: r)
          | None => None
          end
      | None => None
      end
  end.

(** The loop over [row_ptr]; the rows are laid out one after the
    other, cell [(i, j)] at offset [j + i * dim]. *)
Fixpoint matrix_rows (fuel : nat) (h : list graph_edge_list_t) (rows cols : graph_t)
  : option (list Z) :=
  match rows with
  | [] => Some []
  | r :: rows' =>
      match matrix_row fuel h (node_edges r) cols with
      | Some cells =>
          match matrix_rows fuel h rows' cols with
          | Some rest => Some (cells ++ rest)
          | None => None
          end
      | None => None
      end
  end.

(** [create_graph_matrix]; the result is [None] ([NULL]) for the empty
    graph. *)
Definition create_graph_matrix (graph : graph_t) : M (option (list Z)) :=
  match graph with
  | [] => ret None
  | _ :: _ =>
      s <- get_state ;;
      m <- lift_option (matrix_rows (loop_fuel s) (heap s) graph graph) ;;
      ret (Some m)
  end.

(** ** Structural copy *)

(** First loop of [create_graph_copy]: a fresh node per node of the
    old graph, with the old label. *)
Fixpoint copy_nodes (old : graph_t) (graph : graph_t) : M graph_t :=
  match old with
  | [] => ret graph
  | n :: rest =>
      fresh <- create_new_node (node_label n) ;;
      copy_nodes rest (append_node graph fresh)
  end.

(** [while (ptr4->next && k < j) { ptr4 = ptr4->next; k++; }] *)
Fixpoint edge_at_clamped (h : list graph_edge_list_t) (a : nat) (j : nat) : option nat :=
  match h !! a with
  | Some c =>
      match j with
      | O => Some a
      | S j' =>
          match next c with
          | Some b => edge_at_clamped h b j'
          | None => Some a
          end
      end
  | None => None
  end.

(** The loop over [ptr2] (column [j]) for the row [i] of the copy. *)
Fixpoint copy_row (old_graph : graph_t) (old_mat : list Z) (dim i : nat)
    (js : list nat) (graph : graph_t) : M graph_t :=
  match js with
  | [] => ret graph
  | j :: js' =>
      flag <- lift_option (old_mat !! (j + i * dim)%nat) ;;
      if Z.eqb flag 1 then
        ptr <- lift_option (graph !! i) ;;
        ptr2 <- lift_option (graph !! j) ;;
        ptr3 <- lift_option (old_graph !! (Nat.min i (length old_graph - 1))) ;;
        a <- lift_option (node_edges ptr3) ;;
        s <- get_state ;;
        a4 <- lift_option (edge_at_clamped (heap s) a j) ;;
        ptr4 <- load a4 ;;
        e <- create_new_edge (edge_weight (edge ptr4)) (edge_label (edge ptr4))
               (node_id ptr) (node_id ptr2) ;;
        p <- append_edge (node_edges ptr) e ;;
        copy_row old_graph old_mat dim i js' (<[i := set_node_edges p ptr]> graph)
      else copy_row old_graph old_mat dim i js' graph
  end.

(** The loop over [ptr] (row [i]). *)
Fixpoint copy_rows (old_graph : graph_t) (old_mat : list Z) (dim : nat)
    (rows : list nat) (graph : graph_t) : M graph_t :=
  match rows with
  | [] => ret graph
  | i :: rows' =>
      graph' <- copy_row old_graph old_mat dim i (seq 0 (length graph)) graph ;;
      copy_rows old_graph old_mat dim rows' graph'
  end.

(** [create_graph_copy] *)
Definition create_graph_copy (old_graph : graph_t) : M graph_t :=
  match old_graph with
  | [] => ret []
  | _ :: _ =>
      m <- create_graph_matrix old_graph ;;
      old_mat <- lift_option m ;;
      graph <- copy_nodes old_graph [] ;;
      copy_rows old_graph old_mat (graph_dim old_graph) (seq 0 (length graph)) graph
  end.

(** ** Vertex contraction *)

(** [while (ptr && (ptr->edge.endpoint_ids[1] != target)) ptr = ptr->next;] *)
Fixpoint scan_endpoint_1 (fuel : nat) (h : list graph_edge_list_t) (p : ptr) (target : Z)
  : option ptr :=
  match p with
  | None => Some None
  | Some a =>
      match fuel with
      | O => None
      | S fuel' =>
          match h !! a with
          | Some c =>
              if Z.eqb (endpoint_1 (edge c)) target then Some (Some a)
              else scan_endpoint_1 fuel' h (next c) target
          | None => None
          end
      end
  end.

(** [while (ptr) { ptr2 = append_edge(ptr2, ptr->edge); ptr = ptr->next; }]
    The result is the final value of the local variable [ptr2]. *)
Fixpoint donate_edges (fuel : nat) (p p2 : ptr) : M ptr :=
  match p with
  | None => ret p2
  | Some a =>
      match fuel with
      | O => fail
      | S fuel' =>
          c <- load a ;;
          p2' <- append_edge p2 (edge c) ;;
          c' <- load a ;;
          donate_edges fuel' (next c') p2'
      end
  end.

(** The second [while (ptr2)] loop: every edge of the list whose source
    is not [first] gets [first] as its source, a self-loop also as its
    destination. *)
Definition relink_source (first : Z) (e : graph_edge_t) : graph_edge_t :=
  if Z.eqb (endpoint_0 e) first then e
  else set_endpoint_0 first
         (if Z.eqb (endpoint_0 e) (endpoint_1 e) then set_endpoint_1 first e else e).

Fixpoint relink_sources (fuel : nat) (p2 : ptr) (first : Z) : M unit :=
  match p2 with
  | None => ret tt
  | Some a =>
      match fuel with
      | O => fail
      | S fuel' =>
          c <- load a ;;
          _ <- store a (mk_cell (relink_source first (edge c)) (next c)) ;;
          relink_sources fuel' (next c) first
      end
  end.

(** The [while (ptr3)] loop: destinations [second] become [first]. *)
Definition relink_target (first second : Z) (e : graph_edge_t) : graph_edge_t :=
  if Z.eqb (endpoint_1 e) second then set_endpoint_1 first e else e.

Fixpoint relink_targets (fuel : nat) (p3 : ptr) (first second : Z) : M unit :=
  match p3 with
  | None => ret tt
  | Some a =>
      match fuel with
      | O => fail
      | S fuel' =>
          c <- load a ;;
          _ <- store a (mk_cell (relink_target first second (edge c)) (next c)) ;;
          relink_targets fuel' (next c) first second
      end
  end.

(** The [while (ptr4)] loop over the nodes of the graph. *)
Fixpoint relink_inward (nodes : graph_t) (first second : Z) : M unit :=
  match nodes with
  | [] => ret tt
  | n :: rest =>
      _ <- (if Z.eqb (node_id n) second then ret tt
            else s <- get_state ;;
                 relink_targets (loop_fuel s) (node_edges n) first second) ;;
      relink_inward rest first second
  end.

(** The two "unlink the mutual edge" steps: the first edge of [nid]'s
    list that points to [target] is deleted by its identifier. *)
Definition unlink_mutual (graph : graph_t) (k : nat) (nid target : Z) : M graph_t :=
  n <- lift_option (graph !! k) ;;
  s <- get_state ;;
  p <- lift_option (scan_endpoint_1 (loop_fuel s) (heap s) (node_edges n) target) ;;
  match p with
  | Some a => c <- load a ;; delete_edge_from_node graph nid (edge_id (edge c))
  | None => ret graph
  end.

(** [vertex_contraction]: [first_node_id] survives, [second_node_id]
    is the donor.  [merge_node] and [donor_node] are the cells at
    positions [mi] and [di]. *)
Definition vertex_contraction (graph : graph_t) (first_node_id second_node_id : Z)
  : M graph_t :=
  match get_node_from_id graph first_node_id, get_node_from_id graph second_node_id with
  | Some mi, Some di =>
      graph1 <- unlink_mutual graph mi first_node_id second_node_id ;;
      graph2 <- unlink_mutual graph1 di second_node_id first_node_id ;;
      donor_node <- lift_option (graph2 !! di) ;;
      merge_node <- lift_option (graph2 !! mi) ;;
      s <- get_state ;;
      p2 <- donate_edges (loop_fuel s) (node_edges donor_node) (node_edges merge_node) ;;
      s' <- get_state ;;
      _ <- relink_sources (loop_fuel s') p2 first_node_id ;;
      _ <- relink_inward graph2 first_node_id second_node_id ;;
      delete_node graph2 second_node_id
  | _, _ => ret graph
  end.

(** ** Complement *)

(** The template of a node: one fresh edge to every node of the graph,
    the node itself included. *)
Fixpoint build_template (cols : graph_t) (e0 : Z) (template : ptr) : M ptr :=
  match cols with
  | [] => ret template
  | n :: rest =>
      e <- create_new_edge COMPLEMENTED_EDGE_DEFAULT_WEIGHT COMPLEMENTED_EDGE_DEFAULT_LABEL
             e0 (node_id n) ;;
      template' <- append_edge template e ;;
      build_template rest e0 template'
  end.

(** The test of the inner loop: both endpoints of the old edge and of
    the template edge agree. *)
Definition same_endpoints (o c : graph_edge_t) : bool :=
  Z.eqb (endpoint_0 o) (endpoint_0 c) && Z.eqb (endpoint_1 o) (endpoint_1 c).

(** The loop over [template_ptr] for the old edge in the cell [ea].
    [template_ptr->next] is read after [delete_edge] may have freed the
    cell [template_ptr] points to; the freed cell still holds its
    [next] field. *)
Fixpoint prune_template_with (fuel : nat) (ea : nat) (template_ptr template : ptr) : M ptr :=
  match template_ptr with
  | None => ret template
  | Some a =>
      match fuel with
      | O => fail
      | S fuel' =>
          old <- load ea ;;
          c <- load a ;;
          template' <-
            (if same_endpoints (edge old) (edge c)
             then delete_edge template (edge_id (edge c))
             else ret template) ;;
          c' <- load a ;;
          prune_template_with fuel' ea (next c') template'
      end
  end.

(** The loop over the old [edges] of the node. *)
Fixpoint prune_template (fuel : nat) (edges template : ptr) : M ptr :=
  match edges with
  | None => ret template
  | Some ea =>
      match fuel with
      | O => fail
      | S fuel' =>
          s <- get_state ;;
          template' <- prune_template_with (loop_fuel s) ea template template ;;
          old <- load ea ;;
          prune_template fuel' (next old) template'
      end
  end.

(** The body of the loop over [ptr], for [node = ptr->node]: the
    template of the node is built and pruned, the old list is deleted;
    the result is the template that becomes the node's list. *)
Definition complement_node (graph : graph_t) (node : graph_node_t) : M ptr :=
  template <- build_template graph (node_id node) None ;;
  s <- get_state ;;
  template' <- prune_template (loop_fuel s) (node_edges node) template ;;
  _ <- delete_edge_list (node_edges node) ;;
  ret template'.

(** The loop over [ptr]: the nodes at the positions [ks], in turn. *)
Fixpoint complement_loop (ks : list nat) (graph : graph_t) : M graph_t :=
  match ks with
  | [] => ret graph
  | k :: ks' =>
      ptr <- lift_option (graph !! k) ;;
      template <- complement_node graph ptr ;;
      complement_loop ks' (<[k := set_node_edges template ptr]> graph)
  end.

(** [complement_graph] *)
Definition complement_graph (graph : graph_t) : M graph_t :=
  complement_loop (seq 0 (length graph)) graph.

(** ** Binary operations *)

(** [disjoint_graph_union]: the node structs of both graphs are copied,
    one [append_node] each, into a new list. *)
Definition disjoint_graph_union (graph1 graph2 : graph_t) : graph_t :=
  fold_left append_node graph2 (fold_left append_node graph1 []).

(** First loop of [cartesian_graph_product]: [n] copies of [graph2];
    [layers] keeps the copies, [cartesian] receives their node structs
    by value. *)
Fixpoint make_layers (n : nat) (graph2 : graph_t) (layers : list graph_t) (cartesian : graph_t)
  : M (list graph_t * graph_t) :=
  match n with
  | O => ret (layers, cartesian)
  | S n' =>
      copy <- create_graph_copy graph2 ;;
      make_layers n' graph2 (layers ++ [copy]) (fold_left append_node copy cartesian)
  end.

(** [while (k < dim1 && !found)]: the first position of [target] in
    [node_ids]. *)
Fixpoint index_of_id (node_ids : list Z) (target : Z) : option nat :=
  match node_ids with
  | [] => None
  | x :: rest =>
      if Z.eqb x target then Some O
      else match index_of_id rest target with
           | Some k => Some (S k)
           | None => None
           end
  end.

(** The loop over the edges [ptr2] of the [j]-th node of [graph1];
    [layers[j]] points to the [i]-th cell of the [j]-th copy. *)
Fixpoint cross_edges (fuel : nat) (p2 : ptr) (node_ids : list Z) (i j : nat)
    (layers : list graph_t) : M (list graph_t) :=
  match p2 with
  | None => ret layers
  | Some a =>
      match fuel with
      | O => fail
      | S fuel' =>
          c <- load a ;;
          layers' <-
            match index_of_id node_ids (endpoint_1 (edge c)) with
            | Some k =>
                layer_j <- lift_option (layers !! j) ;;
                cell_j <- lift_option (layer_j !! i) ;;
                layer_k <- lift_option (layers !! k) ;;
                cell_k <- lift_option (layer_k !! i) ;;
                e <- create_new_edge DEFAULT_WEIGHT_CARTESIAN_PRODUCT
                       DEFAULT_LABEL_CARTESIAN_PRODUCT (node_id cell_j) (node_id cell_k) ;;
                p <- append_edge (node_edges cell_j) e ;;
                ret (<[j := <[i := set_node_edges p cell_j]> layer_j]> layers)
            | None => ret layers
            end ;;
          c' <- load a ;;
          cross_edges fuel' (next c') node_ids i j layers'
      end
  end.

(** The loop over the nodes [ptr] of [graph1] (index [j]). *)
Fixpoint cross_nodes (nodes : graph_t) (node_ids : list Z) (i j : nat)
    (layers : list graph_t) : M (list graph_t) :=
  match nodes with
  | [] => ret layers
  | n :: rest =>
      s <- get_state ;;
      layers' <- cross_edges (loop_fuel s) (node_edges n) node_ids i j layers ;;
      cross_nodes rest node_ids i (S j) layers'
  end.

(** The loop over [i], the position inside a layer. *)
Fixpoint cross_layers (positions : list nat) (graph1 : graph_t) (layers : list graph_t)
  : M (list graph_t) :=
  match positions with
  | [] => ret layers
  | i :: rest =>
      layers' <- cross_nodes graph1 (node_id <$> graph1) i O layers ;;
      cross_layers rest graph1 layers'
  end.

(** [cartesian_graph_product]: the result is the list [cartesian] as the
    first loop left it; the second part writes to the cells of the
    copies in [layers]. *)
Definition cartesian_graph_product (graph1 graph2 : graph_t) : M graph_t :=
  match graph1, graph2 with
  | _ :: _, _ :: _ =>
      r <- make_layers (graph_dim graph1) graph2 [] [] ;;
      _ <- cross_layers (seq 0 (graph_dim graph2)) graph1 (fst r) ;;
      ret (snd r)
  | _, _ => ret []
  end.

(** [parallel_graph_composition] *)
Definition parallel_graph_composition (graph1 graph2 : graph_t)
    (source_1 sink_1 source_2 sink_2 : Z) : M graph_t :=
  match find_node graph1 source_1, find_node graph1 sink_1,
        find_node graph2 source_2, find_node graph2 sink_2 with
  | Some _, Some _, Some _, Some _ =>
      union_graph <- vertex_contraction (disjoint_graph_union graph1 graph2) source_1 source_2 ;;
      vertex_contraction union_graph sink_1 sink_2
  | _, _, _, _ => ret []
  end.

(** What [series_graph_composition] leaves behind: the list it returns
    and the two argument lists, whose cells it writes to. *)
Record series_result : Type := mk_series_result {
  series_union : graph_t;
  series_graph1 : graph_t;
  series_graph2 : graph_t
}.

(** [series_graph_composition]: [left_node] and [right_node] point into
    the cells of [graph1] and [graph2]. *)
Definition series_graph_composition (graph1 graph2 : graph_t) (source_id sink_id : Z)
  : M series_result :=
  match get_node_from_id graph1 source_id, get_node_from_id graph2 sink_id with
  | Some li, Some ri =>
      left_node <- lift_option (graph1 !! li) ;;
      right_node <- lift_option (graph2 !! ri) ;;
      let union_graph := disjoint_graph_union graph1 graph2 in
      e <- create_new_edge SERIES_EDGE_DEFAULT_WEIGHT SERIES_EDGE_DEFAULT_LABEL
             (node_id left_node) (node_id right_node) ;;
      p <- append_edge (node_edges left_node) e ;;
      e' <- create_new_edge SERIES_EDGE_DEFAULT_WEIGHT SERIES_EDGE_DEFAULT_LABEL
              (node_id right_node) (node_id left_node) ;;
      p' <- append_edge (node_edges right_node) e' ;;
      ret (mk_series_result union_graph
             (<[li := set_node_edges p left_node]> graph1)
             (<[ri := set_node_edges p' right_node]> graph2))
  | _, _ => ret (mk_series_result [] graph1 graph2)
  end.

(** ** Reading a heap list back *)

(** The edges of the list at [edges], in order. *)
Fixpoint edge_list (fuel : nat) (h : list graph_edge_list_t) (edges : ptr)
  : option (list graph_edge_t) :=
  match edges with
  | None => Some []
  | Some a =>
      match fuel with
      | O => None
      | S fuel' =>
          match h !! a with
          | Some c =>
              match edge_list fuel' h (next c) with
              | Some l => Some (edge c :: l)
              | None => None
              end
          | None => None
          end
      end
  end.

(** The outgoing edges of a node, as the state holds them. *)
Definition edges_of (s : state) (n : graph_node_t) : option (list graph_edge_t) :=
  edge_list (loop_fuel s) (heap s) (node_edges n).


(** The number of edges of a graph: the sum of [edge_list_dim] over its
    nodes. *)
Fixpoint graph_edge_count (s : state) (graph : graph_t) : option nat :=
  match graph with
  | [] => Some O
  | n :: rest =>
      match edge_list_dim_loop (loop_fuel s) (heap s) (node_edges n) with
      | Some k =>
          match graph_edge_count s rest with
          | Some m => Some (k + m)%nat
          | None => None
          end
      | None => None
      end
  end.

(** ** Callers of the allocator

    The library's own callers ([input_node], [input_graph],
    [create_graph_copy], [series_graph_composition]) create a node and
    append it to a graph, and create an edge and append it to the list
    of a node.  The next definitions are these call patterns, and the
    sequences of creations and deletions a program can issue. *)









(** The edges of all the nodes of a graph, node after node. *)
Fixpoint live_edges (s : state) (graph : graph_t) : option (list graph_edge_t) :=
  match graph with
  | [] => Some []
  | n :: rest =>
      match edge_list (loop_fuel s) (heap s) (node_edges n) with
      | Some es =>
          match live_edges s rest with
          | Some others => Some (es ++ others)
          | None => None
          end
      | None => None
      end
  end.

(** ** Sequences of allocator calls *)


(** [create_new_node] for every label of [labels], in turn. *)
Fixpoint create_new_nodes (labels : list string) : M (list graph_node_t) :=
  match labels with
  | [] => ret []
  | l :: rest =>
      n <- create_new_node l ;;
      ns <- create_new_nodes rest ;;
      ret (n :: ns)
  end.


(** [create_new_edge] for every description of [descs] (weight, label
    and both endpoints), in turn. *)
Fixpoint create_new_edges (descs : list (Z * string * Z * Z)) : M (list graph_edge_t) :=
  match descs with
  | [] => ret []
  | (w, l, e0, e1) :: rest =>
      e <- create_new_edge w l e0 e1 ;;
      es <- create_new_edges rest ;;
      ret (e :: es)
  end.

(** * Further functions of the library *)

(** ** Lookups by identifier and by label *)

(** The scan [while (ptr && ptr->edge.id != id) ptr = ptr->next;] of
    [find_edge], which [find_edge_R] writes as a recursion on
    [ptr->next] and [change_edge_label] runs on the [edges] field of a
    node: the cell the scan stops at. *)
Fixpoint find_edge_loop (fuel : nat) (h : list graph_edge_list_t) (p : ptr) (i : Z)
  : option ptr :=
  match p with
  | None => Some None
  | Some a =>
      match fuel with
      | O => None
      | S fuel' =>
          match h !! a with
          | Some c =>
              if Z.eqb (edge_id (edge c)) i then Some (Some a)
              else find_edge_loop fuel' h (next c) i
          | None => None
          end
      end
  end.

(** [find_edge] *)
Definition find_edge (edges : ptr) (i : Z) : M ptr :=
  s <- get_state ;; lift_option (find_edge_loop (loop_fuel s) (heap s) edges i).

(** [find_edge_R] *)
Definition find_edge_R (p : ptr) (i : Z) : M ptr :=
  s <- get_state ;; lift_option (find_edge_loop (loop_fuel s) (heap s) p i).

(** The loop of [get_id_from_node_label], with its variables [node_id]
    and [found]; [strcmp(a, b) == 0] is equality of the two strings. *)
Fixpoint get_id_from_node_label_loop (graph : graph_t) (label : string) (nid : Z) (found : bool)
  : Z :=
  match graph with
  | [] => nid
  | n :: rest =>
      if found then nid
      else if String.eqb (node_label n) label
           then get_id_from_node_label_loop rest label (node_id n) true
           else get_id_from_node_label_loop rest label nid false
  end.

(** [get_id_from_node_label] *)
Definition get_id_from_node_label (graph : graph_t) (label : string) : Z :=
  get_id_from_node_label_loop graph label ERROR_ID false.

(** ** Changing labels *)

Definition set_node_label (l : string) (n : graph_node_t) : graph_node_t :=
  mk_node (node_id n) l (node_edges n).
Definition set_edge_label (l : string) (e : graph_edge_t) : graph_edge_t :=
  mk_edge (edge_weight e) (edge_id e) l (endpoint_0 e) (endpoint_1 e).

(** *** Labels as buffers

    The [label] field of a node is a [char *].  [create_new_node]
    stores the pointer it is given, and [create_graph_copy] gives the
    label pointer of an old node to the new one, so several nodes may
    hold one buffer.  The two functions that free a label buffer,
    [change_node_label] and [change_duplicated_node_labels], are
    therefore embedded over a store of buffers: the address of a
    buffer is its index, a freed buffer is [None], [malloc] appends a
    buffer, and reading or freeing what is not a live buffer has no
    defined result ([None]). *)

(** [struct graph_node], its [label] field being the pointer it is;
    [None] is [NULL]. *)
Record graph_node_ref : Type := mk_node_ref {
  ref_id : Z;
  ref_label : option nat;
  ref_edges : ptr
}.

(** The characters a label pointer leads to. *)
Definition read_label (st : list (option string)) (p : option nat) : option string :=
  match p with
  | Some a =>
      match st !! a with
      | Some (Some l) => Some l
      | _ => None
      end
  | None => None
  end.

(** [free(p)] for a label buffer. *)
Definition free_label (st : list (option string)) (a : nat) : option (list (option string)) :=
  match st !! a with
  | Some (Some _) => Some (<[a := None]> st)
  | _ => None
  end.

(** The scan [while (graph && (graph->node.id != node_id))] over nodes
    with label pointers. *)
Fixpoint ref_index (graph : list graph_node_ref) (i : Z) : option nat :=
  match graph with
  | [] => None
  | n :: rest =>
      if Z.eqb (ref_id n) i then Some O
      else match ref_index rest i with
           | Some k => Some (S k)
           | None => None
           end
  end.

(** [change_node_label]: the label buffer of the first node with the
    identifier is freed, when the pointer is not [NULL], and the node
    gets the pointer [new_label]. *)
Definition change_node_label (graph : list graph_node_ref) (nid : Z) (new_label : option nat)
    (st : list (option string)) : option (list graph_node_ref * list (option string)) :=
  match ref_index graph nid with
  | Some k =>
      match graph !! k with
      | Some n =>
          match (match ref_label n with
                 | Some a => free_label st a
                 | None => Some st
                 end) with
          | Some st' =>
              Some (<[k := mk_node_ref (ref_id n) new_label (ref_edges n)]> graph, st')
          | None => None
          end
      | None => None
      end
  | None => Some (graph, st)
  end.

(** [change_edge_label]: the inner loop advances the [edges] field of
    the node itself, [graph->node.edges = graph->node.edges->next],
    until it is [NULL] or points to the edge looked for; the outer loop
    goes on to the next node while nothing was changed. *)
Fixpoint change_edge_label (graph : graph_t) (eid : Z) (new_label : string) : M graph_t :=
  match graph with
  | [] => ret []
  | n :: rest =>
      s <- get_state ;;
      p <- lift_option (find_edge_loop (loop_fuel s) (heap s) (node_edges n) eid) ;;
      match p with
      | Some a =>
          c <- load a ;;
          _ <- store a (mk_cell (set_edge_label new_label (edge c)) (next c)) ;;
          ret (set_node_edges p n :: rest)
      | None =>
          rest' <- change_edge_label rest eid new_label ;;
          ret (set_node_edges None n :: rest')
      end
  end.

(** ** Edge lists *)

(** [add_new_edges_to_node]: the loop
    [while (new_edges) { graph->node.edges = append_edge(graph->node.edges, new_edges->edge);
                         new_edges = new_edges->next; }]
    is the loop of [donate_edges], run on the node's own field. *)
Definition add_new_edges_to_node (graph : graph_t) (nid : Z) (new_edges : ptr) : M graph_t :=
  match node_index graph nid with
  | Some k =>
      n <- lift_option (graph !! k) ;;
      s <- get_state ;;
      p <- donate_edges (loop_fuel s) new_edges (node_edges n) ;;
      ret (<[k := set_node_edges p n]> graph)
  | None => ret graph
  end.

(** The loop of [autoloop_count] with its counter. *)
Fixpoint autoloop_count_loop (fuel : nat) (h : list graph_edge_list_t) (edges : ptr) (count : nat)
  : option nat :=
  match edges with
  | None => Some count
  | Some a =>
      match fuel with
      | O => None
      | S fuel' =>
          match h !! a with
          | Some c =>
              autoloop_count_loop fuel' h (next c)
                (if Z.eqb (endpoint_0 (edge c)) (endpoint_1 (edge c)) then S count else count)
          | None => None
          end
      end
  end.

(** [autoloop_count] *)
Definition autoloop_count (edges : ptr) : M nat :=
  s <- get_state ;; lift_option (autoloop_count_loop (loop_fuel s) (heap s) edges O).

(** ** Strings *)

Definition ZERO_CHAR : Z := 48.

(** The conversion of an [int] to [char]. *)
Definition char_of_Z (z : Z) : Ascii.ascii :=
  Ascii.ascii_of_N (Z.to_N (z mod 256)).

(** [while (tmp) { tmp /= 10; digits++; }]; the division of C rounds
    towards zero.  A number of [n] binary digits has at most [n]
    decimal digits, which bounds the loop. *)
Fixpoint count_digits (fuel : nat) (tmp : Z) (digits : nat) : nat :=
  match fuel with
  | O => digits
  | S fuel' =>
      if Z.eqb tmp 0 then digits
      else count_digits fuel' (Z.quot tmp 10) (S digits)
  end.

(** [while (i < digits)]: [n] is [digits - i].  [pow(10, n)] is exact
    for the powers of ten a [long] can hold. *)
Fixpoint write_digits (n : nat) (tmp : Z) : string :=
  match n with
  | O => EmptyString
  | S n' =>
      let divider := 10 ^ Z.of_nat n' in
      let digit := Z.quot tmp divider in
      String (char_of_Z (ZERO_CHAR + digit)) (write_digits n' (tmp - digit * divider))
  end.

(** [int_to_string] *)
Definition int_to_string (val : Z) : string :=
  write_digits (count_digits (S (Z.to_nat (Z.log2 (Z.abs val)))) val O) val.

(** [strconcat], for two strings that are not [NULL]. *)
Definition strconcat (src1 src2 : string) : string := String.append src1 src2.

(** The inner loop of [change_duplicated_node_labels]: [ptr] is the
    cell at position [k], [ptr2] visits the positions [js].  The test
    [(ptr != ptr2) && strcmp(...) == 0] reads both labels only for two
    different cells.  For a duplicate the buffer of [ptr2] is freed,
    [int_to_string] allocates the digits and [strconcat] the new
    label; [substitute] is only read, it is taken to be a buffer of
    the caller that no node holds. *)
Fixpoint relabel_duplicates_of (k : nat) (js : list nat) (substitute : string)
    (graph : list graph_node_ref) (st : list (option string))
  : option (list graph_node_ref * list (option string)) :=
  match js with
  | [] => Some (graph, st)
  | j :: js' =>
      match graph !! k, graph !! j with
      | Some p, Some p2 =>
          if (k =? j)%nat then relabel_duplicates_of k js' substitute graph st
          else
            match read_label st (ref_label p), read_label st (ref_label p2) with
            | Some l, Some l2 =>
                if String.eqb l l2 then
                  match ref_label p2 with
                  | Some a2 =>
                      match free_label st a2 with
                      | Some st1 =>
                          let digits := int_to_string (ref_id p2) in
                          let st2 := st1 ++ [Some digits] in
                          let st3 := st2 ++ [Some (strconcat substitute digits)] in
                          relabel_duplicates_of k js' substitute
                            (<[j := mk_node_ref (ref_id p2) (Some (length st2)) (ref_edges p2)]>
                               graph)
                            st3
                      | None => None
                      end
                  | None => None
                  end
                else relabel_duplicates_of k js' substitute graph st
            | _, _ => None
            end
      | _, _ => None
      end
  end.

(** The outer loop, [ptr] visiting the positions [ks]. *)
Fixpoint relabel_duplicates (ks : list nat) (substitute : string)
    (graph : list graph_node_ref) (st : list (option string))
  : option (list graph_node_ref * list (option string)) :=
  match ks with
  | [] => Some (graph, st)
  | k :: ks' =>
      match relabel_duplicates_of k (seq 0 (length graph)) substitute graph st with
      | Some (graph', st') => relabel_duplicates ks' substitute graph' st'
      | None => None
      end
  end.

(** [change_duplicated_node_labels] *)
Definition change_duplicated_node_labels (graph : list graph_node_ref) (substitute : string)
    (st : list (option string)) : option (list graph_node_ref * list (option string)) :=
  relabel_duplicates (seq 0 (length graph)) substitute graph st.
(** * Vocabulary of the statements *)

(** ** Well-formed edge lists

    [lseg h p q l]: following [next] from [p] one meets exactly the
    cells [l] (address and edge, in order) and arrives at [q].
    [chain h p l] is a list that ends in [NULL]. *)

Fixpoint lseg (h : list graph_edge_list_t) (p q : ptr) (l : list (nat * graph_edge_t)) : Prop :=
  match l with
  | [] => p = q
  | (a, e) :: l' => p = Some a /\ exists n, h !! a = Some (mk_cell e n) /\ lseg h n q l'
  end.

Definition chain (h : list graph_edge_list_t) (p : ptr) (l : list (nat * graph_edge_t)) : Prop :=
  lseg h p None l.

(** A node's list holds exactly the edges [es]. *)
Definition holds (h : list graph_edge_list_t) (p : ptr) (es : list graph_edge_t) : Prop :=
  exists l, chain h p l /\ l.*2 = es.

(** The value of [prev] when the scan stops right after the cells [l]. *)
Definition prev_after (prev : ptr) (l : list (nat * graph_edge_t)) : ptr :=
  match last l with
  | Some (z, _) => Some z
  | None => prev
  end.

Ltac unfold_monad :=
  unfold bind, ret, fail, get_state, put_state, lift_option, load, store, malloc_cell.


(** Every node's list is well formed; [E] gives, node by node, the
    edges the lists hold. *)
Definition graph_holds (s : state) (graph : graph_t) (E : list (list graph_edge_t)) : Prop :=
  Forall2 (fun n es => holds (heap s) (node_edges n) es) graph E.

(** The edge identifiers of the lists [E]. *)
Definition edge_ids_of (E : list (list graph_edge_t)) : list Z :=
  edge_id <$> concat E.

(** The allocator of one namespace, its pool and its counter, agrees
    with the identifiers [live] that existing entities hold: no
    identifier is revoked and live at once or occurs twice, and all of
    them lie below the counter. *)
Definition ids_ok (pool : list Z) (counter : Z) (live : list Z) : Prop :=
  NoDup (pool ++ live)
  /\ (forall x, x ∈ pool ++ live -> x < counter)
  /\ 0 <= counter.

Definition edge_ids_ok (s : state) (live : list Z) : Prop :=
  ids_ok (revoked_edge_ids s) (global_edge_id s) live.

Definition node_ids_ok (s : state) (live : list Z) : Prop :=
  ids_ok (revoked_node_ids s) (global_node_id s) live.

(** The cells of a template that the old edge [o] does not remove. *)
Fixpoint unmatched (o : graph_edge_t) (T : list (nat * graph_edge_t))
  : list (nat * graph_edge_t) :=
  match T with
  | [] => []
  | c :: T' => if same_endpoints o c.2 then unmatched o T' else c :: unmatched o T'
  end.

(** One cell of the adjacency matrix: is there an edge to [c] among [es]? *)
Definition adj (es : list graph_edge_t) (c : Z) : bool :=
  existsb (fun e => Z.eqb (endpoint_1 e) c) es.

(** The same, counting only the edges whose source is [nid]. *)
Definition adj_from (nid : Z) (es : list graph_edge_t) (c : Z) : bool :=
  existsb (fun e => Z.eqb (endpoint_0 e) nid && Z.eqb (endpoint_1 e) c) es.

(** The adjacency matrix of the edge lists [E] over the node
    identifiers [ids], row after row. *)
Definition adjacency (ids : list Z) (E : list (list graph_edge_t)) : list Z :=
  concat ((fun es => (fun c => if adj es c then 1 else 0) <$> ids) <$> E).

(** [es'] is the complement of [es] for the node [nid] over the node
    identifiers [ids]. *)
Definition complemented (ids : list Z) (nid : Z) (es es' : list graph_edge_t) : Prop :=
  (forall e, e ∈ es' -> endpoint_0 e = nid)
  /\ (forall c, c ∈ ids -> adj es' c = negb (adj_from nid es c)).

(** Every edge names its owner as its source. *)
Definition sources_ok (graph : graph_t) (E : list (list graph_edge_t)) : Prop :=
  Forall2 (fun n es => forall e, e ∈ es -> endpoint_0 e = node_id n) graph E.

(** The lists of the nodes of a graph, cell by cell: [C] gives for
    every node the addresses and edges of its list. *)
Definition graph_cells (s : state) (graph : graph_t) (C : list (list (nat * graph_edge_t)))
  : Prop :=
  Forall2 (fun n l => chain (heap s) (node_edges n) l) graph C.

(** The invariant of a graph built through the allocator: the lists of
    its nodes are well formed and share no cell, and both allocators
    agree with the identifiers the nodes and the edges hold. *)
Definition system_ok (graph : graph_t) (s : state) : Prop :=
  exists C,
    graph_cells s graph C
    /\ NoDup (concat C).*1
    /\ node_ids_ok s (node_id <$> graph)
    /\ edge_ids_ok s (edge_id <$> (concat C).*2).
(** ** Reading a string of digits *)

(** The digit a character stands for. *)
Definition digit_of_char (c : Ascii.ascii) : Z :=
  Z.of_N (Ascii.N_of_ascii c) - ZERO_CHAR.

(** The number a string of decimal digits denotes, most significant
    digit first. *)
Fixpoint decimal_value_from (acc : Z) (str : string) : Z :=
  match str with
  | EmptyString => acc
  | String c rest => decimal_value_from (10 * acc + digit_of_char c) rest
  end.

Definition decimal_value (str : string) : Z := decimal_value_from 0 str.

(** Equality of labels is decidable. *)
#[local] Instance label_eq_dec : EqDecision string := String.string_dec.

(** ** Label buffers that no two nodes share

    [labels_in st gp gv]: the nodes [gp] hold pairwise different label
    pointers, all of them live in the store [st], and [gv] gives the
    same nodes with the characters of their labels. *)
Definition labels_in (st : list (option string)) (gp : list graph_node_ref) (gv : graph_t)
  : Prop :=
  Forall2 (fun p v => ref_id p = node_id v /\ ref_edges p = node_edges v
                      /\ read_label st (ref_label p) = Some (node_label v)) gp gv
  /\ NoDup (ref_label <$> gp).

(** The node with the label [change_duplicated_node_labels] gives to a
    duplicate. *)
Definition relabelled (substitute : string) (n : graph_node_t) : graph_node_t :=
  set_node_label (strconcat substitute (int_to_string (node_id n))) n.

(** What the two loops of [change_duplicated_node_labels] do to the
    characters of the labels, as long as no two nodes share a buffer:
    the same loops on nodes that carry the characters themselves. *)
Fixpoint relabel_values_of (k : nat) (js : list nat) (substitute : string) (graph : graph_t)
  : graph_t :=
  match js with
  | [] => graph
  | j :: js' =>
      match graph !! k, graph !! j with
      | Some p, Some p2 =>
          if negb (Nat.eqb k j) && String.eqb (node_label p) (node_label p2)
          then relabel_values_of k js' substitute (<[j := relabelled substitute p2]> graph)
          else relabel_values_of k js' substitute graph
      | _, _ => graph
      end
  end.

Fixpoint relabel_values (ks : list nat) (substitute : string) (graph : graph_t) : graph_t :=
  match ks with
  | [] => graph
  | k :: ks' =>
      relabel_values ks' substitute
        (relabel_values_of k (seq 0 (length graph)) substitute graph)
  end.

Definition relabel_all_values (graph : graph_t) (substitute : string) : graph_t :=
  relabel_values (seq 0 (length graph)) substitute graph.

(** ** The loops of [create_graph_copy]

    [copy_inv] is what holds between two steps of the second part of
    [create_graph_copy], when the rows before [i] are done and the row
    [i] is done up to the column [jcur]: the copy [g] has the
    identifiers [cids], its lists [Cg] share no cell with each other or
    with the lists [Cold] of the old graph, the edge allocator agrees
    with the edges of both graphs, and a list of the copy holds an edge
    to the [j]-th node of the copy exactly when the column [j] is done
    and the old matrix has a 1 in that cell. *)
Definition copy_inv (old : graph_t) (Cold : list (list (nat * graph_edge_t)))
    (old_mat : list Z) (cids : list Z) (i jcur : nat)
    (g : graph_t) (Cg : list (list (nat * graph_edge_t))) (s : state) : Prop :=
  node_id <$> g = cids
  /\ graph_cells s (old ++ g) (Cold ++ Cg)
  /\ NoDup (concat (Cold ++ Cg)).*1
  /\ edge_ids_ok s (edge_id <$> (concat (Cold ++ Cg)).*2)
  /\ forall i' row c,
       Cg !! i' = Some row ->
       (adj row.*2 c = true <->
        exists j,
          (j < (if (i' <? i)%nat then length old else if (i' =? i)%nat then jcur else O))%nat
          /\ old_mat !! (j + i' * length old)%nat = Some 1
          /\ cids !! j = Some c).
(** * Properties *)

(** ** Well-formed edge lists: basic facts *)

(** ** Node lookup *)

Lemma node_index_None (graph : graph_t) (i : Z) :
  node_index graph i = None <-> i ∉ (node_id <$> graph).
Proof.
  induction graph as [|n rest IH]; simpl.
  - split; [intros _; apply not_elem_of_nil | done].
  - destruct (Z.eqb_spec (node_id n) i) as [->|Hne].
    + split; [done | intros H; exfalso; apply H; left].
    + destruct (node_index rest i) eqn:E.
      * split; [done|]. intros H. exfalso.
        destruct IH as [_ IH]. rewrite not_elem_of_cons in H.
        destruct H as [_ H]. specialize (IH H). done.
      * split; [|done]. intros _. rewrite not_elem_of_cons. split; [congruence|].
        by apply IH.
Qed.

Lemma node_index_Some (graph : graph_t) (i : Z) (k : nat) :
  node_index graph i = Some k ->
  exists n, graph !! k = Some n /\ node_id n = i
            /\ forall j m, (j < k)%nat -> graph !! j = Some m -> node_id m <> i.
Proof.
  revert k. induction graph as [|n rest IH]; intros k; simpl; [done|].
  destruct (Z.eqb_spec (node_id n) i) as [Heq|Hne].
  - intros [= <-]. exists n. repeat split; [done|]. intros j m Hj. lia.
  - destruct (node_index rest i) as [k'|] eqn:E; [|done].
    intros [= <-]. destruct (IH k' eq_refl) as (m & Hm & Hid & Hfirst).
    exists m. repeat split; [done..|].
    intros [|j] m' Hj; simpl.
    + intros [= <-]. done.
    + apply Hfirst. lia.
Qed.

Lemma node_index_is_Some (graph : graph_t) (i : Z) :
  i ∈ (node_id <$> graph) -> exists k, node_index graph i = Some k.
Proof.
  intros Hin. destruct (node_index graph i) as [k|] eqn:E; [by exists k|].
  apply node_index_None in E. done.
Qed.

Lemma lseg_app h p q r l1 l2 :
  lseg h p q l1 -> lseg h q r l2 -> lseg h p r (l1 ++ l2).
Proof.
  revert p. induction l1 as [|[a e] l1 IH]; intros p; simpl.
  - by intros ->.
  - intros (-> & n & Ha & Hl) H2. split; [done|]. exists n. split; [done|]. by apply IH.
Qed.

Lemma lseg_split h p r l1 l2 :
  lseg h p r (l1 ++ l2) -> exists q, lseg h p q l1 /\ lseg h q r l2.
Proof.
  revert p. induction l1 as [|[a e] l1 IH]; intros p; simpl.
  - intros H. by exists p.
  - intros (-> & n & Ha & Hl). destruct (IH _ Hl) as (q & H1 & H2).
    exists q. split; [|done]. split; [done|]. by exists n.
Qed.

Lemma lseg_frame h h' p q l :
  lseg h p q l -> (forall a, a ∈ l.*1 -> h' !! a = h !! a) -> lseg h' p q l.
Proof.
  revert p. induction l as [|[a e] l IH]; intros p; simpl; [done|].
  intros (-> & n & Ha & Hl) Hsame. split; [done|]. exists n. split.
  - rewrite Hsame; [done|]. left.
  - apply IH; [done|]. intros b Hb. apply Hsame. by right.
Qed.

Lemma lseg_lt h p q l a :
  lseg h p q l -> a ∈ l.*1 -> (a < length h)%nat.
Proof.
  revert p. induction l as [|[b e] l IH]; intros p; simpl.
  - intros _ H. by apply elem_of_nil in H.
  - intros (-> & n & Hb & Hl) [->|Hin]%elem_of_cons.
    + by apply lookup_lt_Some in Hb.
    + by eapply IH.
Qed.

Lemma lseg_grow h x p q l :
  lseg h p q l -> lseg (h ++ x) p q l.
Proof.
  intros H. apply (lseg_frame h); [done|]. intros a Ha.
  apply lookup_app_l. by eapply lseg_lt.
Qed.

Lemma lseg_lookup h p q l a e :
  lseg h p q l -> (a, e) ∈ l -> exists n, h !! a = Some (mk_cell e n).
Proof.
  revert p. induction l as [|[b e'] l IH]; intros p; simpl.
  - intros _ H. by apply elem_of_nil in H.
  - intros (-> & n & Hb & Hl) [[= -> ->]|Hin]%elem_of_cons.
    + by exists n.
    + by eapply IH.
Qed.

Lemma chain_func h p l1 l2 :
  chain h p l1 -> chain h p l2 -> l1 = l2.
Proof.
  unfold chain. revert p l2. induction l1 as [|[a e] l1 IH]; intros p [|[b e'] l2]; simpl.
  - done.
  - intros -> (H & _). done.
  - intros (-> & _) H. done.
  - intros (-> & n & Ha & Hl) ([= <-] & n' & Ha' & Hl').
    rewrite Ha in Ha'. injection Ha' as <- <-. f_equal. by eapply IH.
Qed.

Lemma chain_NoDup h p l :
  chain h p l -> NoDup l.*1.
Proof.
  unfold chain. revert p. induction l as [|[a e] l IH]; intros p; simpl.
  - intros _. constructor.
  - intros (-> & n & Ha & Hl). constructor; [|by eapply IH].
    intros Hin. apply list_elem_of_fmap in Hin as ([a' e'] & Heq & Hin).
    simpl in Heq. subst a'.
    apply list_elem_of_split in Hin as (l1 & l2 & ->).
    apply lseg_split in Hl as (q & H1 & H2).
    assert (chain h (Some a) ((a, e) :: l1 ++ (a, e') :: l2)) as Hc1.
    { split; [done|]. exists n. split; [done|]. by eapply lseg_app. }
    assert (chain h (Some a) ((a, e') :: l2)) as Hc2.
    { simpl in H2. destruct H2 as (-> & H2). done. }
    pose proof (chain_func _ _ _ _ Hc1 Hc2) as Heq.
    apply (f_equal length) in Heq. simpl in Heq. rewrite length_app in Heq. simpl in Heq. lia.
Qed.

Lemma chain_length h p l :
  chain h p l -> (length l <= length h)%nat.
Proof.
  intros Hc. pose proof (chain_NoDup _ _ _ Hc) as Hnd.
  assert (l.*1 ⊆+ seq 0 (length h)) as Hsub.
  { apply NoDup_submseteq; [done|]. intros a Ha. apply elem_of_seq.
    pose proof (lseg_lt _ _ _ _ _ Hc Ha). lia. }
  apply submseteq_length in Hsub. rewrite length_fmap, length_seq in Hsub. done.
Qed.

Lemma chain_fuel (s : state) p l :
  chain (heap s) p l -> (length l < loop_fuel s)%nat.
Proof. intros H%chain_length. unfold loop_fuel. lia. Qed.

(** *** The read-only loops on a well-formed list *)


Lemma edge_list_dim_lseg fuel h p l :
  chain h p l -> (length l < fuel)%nat -> edge_list_dim_loop fuel h p = Some (length l).
Proof.
  unfold chain. revert p fuel. induction l as [|[a e] l IH]; intros p fuel; simpl.
  - intros -> _. by destruct fuel.
  - intros (-> & n & Ha & Hl) Hf. destruct fuel as [|fuel]; [lia|]. simpl.
    rewrite Ha. simpl. rewrite (IH n fuel); [done..|lia].
Qed.

Lemma has_edge_to_lseg fuel h p l target :
  chain h p l -> (length l < fuel)%nat ->
  has_edge_to fuel h p target = Some (existsb (fun e => Z.eqb (endpoint_1 e) target) l.*2).
Proof.
  unfold chain. revert p fuel. induction l as [|[a e] l IH]; intros p fuel; simpl.
  - intros -> _. by destruct fuel.
  - intros (-> & n & Ha & Hl) Hf. destruct fuel as [|fuel]; [lia|]. simpl.
    rewrite Ha. simpl. destruct (Z.eqb (endpoint_1 e) target); [done|].
    simpl. apply IH; [done|lia].
Qed.

Lemma last_cell_lseg fuel h a l z e :
  chain h (Some a) (l ++ [(z, e)]) -> (length l < fuel)%nat -> last_cell fuel h a = Some z.
Proof.
  unfold chain. revert a fuel. induction l as [|[b e'] l IH]; intros a fuel; simpl.
  - intros (Heq & n & Ha & Hn) Hf. injection Heq as ->. subst n.
    destruct fuel; [lia|]. simpl. by rewrite Ha.
  - intros (Heq & n & Ha & Hl) Hf. injection Heq as ->.
    destruct fuel as [|fuel]; [lia|]. simpl.
    rewrite Ha. simpl. destruct n as [b'|].
    + apply IH; [done|lia].
    + destruct l as [|[c e''] l]; simpl in Hl; by destruct Hl.
Qed.

(** *** [append_edge] and [delete_edge] on a well-formed list *)

Lemma loop_fuel_eq (s : state) : loop_fuel s = S (length (heap s)).
Proof. reflexivity. Qed.

Lemma loop_fuel_set_heap h (s : state) : loop_fuel (set_heap h s) = S (length h).
Proof. reflexivity. Qed.

Local Opaque loop_fuel.

Lemma snoc_cases {A : Type} (l : list A) :
  l = [] \/ exists l' x, l = l' ++ [x].
Proof.
  induction l as [|x l IH] using rev_ind; [by left|right]. by exists l, x.
Qed.

Lemma lseg_last_next h p l z e :
  chain h p (l ++ [(z, e)]) -> h !! z = Some (mk_cell e None).
Proof.
  unfold chain. intros (q & H1 & H2)%lseg_split. simpl in H2.
  destruct H2 as (-> & n & Hz & ->). done.
Qed.

Lemma append_edge_spec (s : state) (p : ptr) l (e : graph_edge_t) :
  chain (heap s) p l ->
  exists p' h',
    append_edge p e s = Some (p', set_heap h' s)
    /\ chain h' p' (l ++ [(length (heap s), e)])
    /\ length h' = S (length (heap s))
    /\ (p <> None -> p' = p)
    /\ (forall b, b ∉ l.*1 -> (b < length (heap s))%nat -> h' !! b = heap s !! b).
Proof.
  intros Hc. unfold append_edge. unfold_monad. simpl.
  destruct p as [a|].
  - destruct (snoc_cases l) as [->|(l0 & [z ez] & ->)].
    { simpl in Hc. done. }
    assert (chain (heap s ++ [mk_cell e None]) (Some a) (l0 ++ [(z, ez)])) as Hc'
      by by apply lseg_grow.
    rewrite (last_cell_lseg _ _ _ _ _ _ Hc').
    2:{ pose proof (chain_fuel _ _ _ Hc) as Hlen. rewrite length_app in Hlen.
        rewrite loop_fuel_set_heap, length_app. rewrite loop_fuel_eq in Hlen.
        simpl in *. lia. }
    pose proof (lseg_last_next _ _ _ _ _ Hc') as Hz. simpl. rewrite Hz. simpl.
    rewrite Hz. simpl.
    eexists _, _. split; [reflexivity|].
    pose proof (chain_NoDup _ _ _ Hc) as Hnd.
    rewrite fmap_app in Hnd. apply NoDup_app in Hnd as (Hnd0 & Hdisj & _).
    assert (z < length (heap s))%nat as Hzlt.
    { eapply lseg_lt; [exact Hc|]. rewrite fmap_app. apply elem_of_app. right. simpl. left. }
    split; [|split; [|split]].
    + rewrite <- app_assoc. apply lseg_split in Hc' as (q & H1 & H2).
      simpl in H2. destruct H2 as (-> & _).
      eapply lseg_app.
      * eapply lseg_frame; [exact H1|]. intros b Hb.
        apply list_lookup_insert_ne. intros ->. apply (Hdisj _ Hb). simpl. left.
      * simpl. split; [done|]. eexists. split.
        { apply list_lookup_insert_eq. rewrite length_app. simpl. lia. }
        split; [done|]. exists None. split; [|done].
        rewrite list_lookup_insert_ne by lia.
        rewrite lookup_app_r by lia. by rewrite Nat.sub_diag.
    + rewrite length_insert, length_app. simpl. lia.
    + done.
    + intros b Hb Hlt. rewrite list_lookup_insert_ne.
      * by apply lookup_app_l.
      * intros ->. apply Hb. rewrite fmap_app. apply elem_of_app. right. simpl. left.
  - destruct l as [|[b eb] l]; [|by destruct Hc].
    eexists _, _. split; [reflexivity|]. simpl.
    split; [|split; [|split]].
    + split; [done|]. exists None. split; [|done].
      rewrite lookup_app_r by lia. by rewrite Nat.sub_diag.
    + rewrite length_app. simpl. lia.
    + done.
    + intros b _ Hlt. by apply lookup_app_l.
Qed.

Lemma prev_after_cons prev x l :
  prev_after prev (x :: l) = prev_after (Some x.1) l.
Proof.
  unfold prev_after. destruct l as [|y l]; simpl; [by destruct x|].
  destruct (last (y :: l)) as [[z ?]|] eqn:E; [done|]. by apply last_None in E.
Qed.

Lemma scan_edge_id_found fuel h prev p l1 a e l2 :
  chain h p (l1 ++ (a, e) :: l2) ->
  edge_id e ∉ (edge_id <$> l1.*2) ->
  (length l1 < fuel)%nat ->
  scan_edge_id fuel h prev p (edge_id e) = Some (prev_after prev l1, Some a).
Proof.
  unfold chain. revert prev p fuel. induction l1 as [|[b eb] l1 IH]; intros prev p fuel; simpl.
  - intros (-> & n & Ha & _) _ Hf. destruct fuel; [lia|]. simpl.
    rewrite Ha. simpl. by rewrite Z.eqb_refl.
  - intros (-> & n & Hb & Hl) Hnot Hf. destruct fuel as [|fuel]; [lia|]. simpl.
    rewrite Hb. simpl. apply not_elem_of_cons in Hnot as [Hne Hnot].
    destruct (Z.eqb_spec (edge_id eb) (edge_id e)); [congruence|].
    rewrite (IH (Some b) n fuel); [|done..|lia].
    by rewrite (prev_after_cons prev (b, eb)).
Qed.

Lemma scan_edge_id_absent fuel h prev p l i :
  chain h p l ->
  i ∉ (edge_id <$> l.*2) ->
  (length l < fuel)%nat ->
  exists q, scan_edge_id fuel h prev p i = Some (q, None).
Proof.
  unfold chain. revert prev p fuel. induction l as [|[b eb] l IH]; intros prev p fuel; simpl.
  - intros -> _ _. exists prev. by destruct fuel.
  - intros (-> & n & Hb & Hl) Hnot Hf. destruct fuel as [|fuel]; [lia|]. simpl.
    rewrite Hb. simpl. apply not_elem_of_cons in Hnot as [Hne Hnot].
    destruct (Z.eqb_spec (edge_id eb) i); [congruence|].
    apply IH; [done..|lia].
Qed.

Lemma delete_edge_found (s : state) (p : ptr) l1 a e l2 :
  chain (heap s) p (l1 ++ (a, e) :: l2) ->
  edge_id e ∉ (edge_id <$> l1.*2) ->
  exists_edge_from_id (edge_id e) s = true ->
  exists p' h',
    delete_edge p (edge_id e) s
    = Some (p', set_heap h' (set_revoked_edge_ids (revoked_edge_ids s ++ [edge_id e]) s))
    /\ chain h' p' (l1 ++ l2)
    /\ length h' = length (heap s)
    /\ (forall b, b ∉ l1.*1 -> h' !! b = heap s !! b).
Proof.
  intros Hc Hnot Hex. unfold delete_edge. unfold_monad. simpl.
  destruct p as [a0|]; [|by destruct l1 as [|[? ?] ?]; destruct Hc].
  rewrite Hex.
  rewrite (scan_edge_id_found _ _ _ _ _ _ _ _ Hc Hnot).
  2:{ pose proof (chain_fuel _ _ _ Hc) as Hf. rewrite length_app in Hf. simpl in Hf. lia. }
  simpl. pose proof Hc as Hc0.
  apply lseg_split in Hc as (q & H1 & H2). simpl in H2.
  destruct H2 as (-> & n & Ha & H2). rewrite Ha. simpl.
  unfold append_revoked_id.
  pose proof (chain_NoDup _ _ _ Hc0) as Hnd. rewrite fmap_app in Hnd. simpl in Hnd.
  destruct (snoc_cases l1) as [->|(l0 & [z ez] & ->)].
  - simpl. exists n, (heap s). simpl in H1. split; [done|]. split; [done|]. done.
  - unfold prev_after. rewrite last_snoc. simpl.
    apply lseg_split in H1 as (q' & H0 & H1). simpl in H1.
    destruct H1 as (-> & n' & Hz & [= ->]). rewrite Hz. simpl. rewrite Hz. simpl.
    eexists _, _. split; [reflexivity|].
    rewrite fmap_app in Hnd. simpl in Hnd. rewrite <- app_assoc in Hnd. simpl in Hnd.
    apply NoDup_app in Hnd as (_ & Hdisj & Hnd).
    apply NoDup_cons in Hnd as (Hz1 & Hnd).
    split; [|split].
    + rewrite <- app_assoc. eapply lseg_app.
      * eapply lseg_frame; [exact H0|]. intros b Hb.
        apply list_lookup_insert_ne. intros ->. apply (Hdisj _ Hb). left.
      * simpl. split; [done|]. exists n. split.
        { apply list_lookup_insert_eq. by apply lookup_lt_Some in Hz. }
        eapply lseg_frame; [exact H2|]. intros b Hb.
        apply list_lookup_insert_ne. intros ->. apply Hz1. by right.
    + by rewrite length_insert.
    + intros b Hb. apply list_lookup_insert_ne. intros ->. apply Hb.
      rewrite fmap_app. apply elem_of_app. right. left.
Qed.

Lemma delete_edge_absent (s : state) (p : ptr) l i :
  chain (heap s) p l ->
  i ∉ (edge_id <$> l.*2) ->
  delete_edge p i s = Some (p, s).
Proof.
  intros Hc Hnot. unfold delete_edge. unfold_monad. simpl.
  destruct p as [a0|]; [|done].
  destruct (exists_edge_from_id i s); [|done].
  destruct (scan_edge_id_absent (loop_fuel s) _ None _ _ _ Hc Hnot) as (q & ->).
  - by eapply chain_fuel.
  - done.
Qed.

(** ** The identifier allocator *)

Lemma find_revoked_id_true (l : list Z) (i : Z) :
  find_revoked_id l i = true <-> i ∈ l.
Proof.
  induction l as [|j l IH]; simpl.
  - split; [done|]. intros H. by apply elem_of_nil in H.
  - destruct (Z.eqb_spec j i) as [->|Hne].
    + split; [intros _; left | done].
    + rewrite IH. split; [by right|]. intros [?|?]%elem_of_cons; [congruence|done].
Qed.

Lemma find_revoked_id_false (l : list Z) (i : Z) :
  find_revoked_id l i = false <-> i ∉ l.
Proof.
  rewrite <- find_revoked_id_true. destruct (find_revoked_id l i); split; congruence.
Qed.

Lemma exists_node_from_id_true (i : Z) (s : state) :
  exists_node_from_id i s = true <-> i <= global_node_id s /\ i ∉ revoked_node_ids s.
Proof.
  unfold exists_node_from_id. destruct (Z.leb_spec i (global_node_id s)).
  - rewrite negb_true_iff, find_revoked_id_false. tauto.
  - split; [done|]. lia.
Qed.

Lemma exists_edge_from_id_true (i : Z) (s : state) :
  exists_edge_from_id i s = true <-> i <= global_edge_id s /\ i ∉ revoked_edge_ids s.
Proof.
  unfold exists_edge_from_id. destruct (Z.leb_spec i (global_edge_id s)).
  - rewrite negb_true_iff, find_revoked_id_false. tauto.
  - split; [done|]. lia.
Qed.

Lemma create_new_node_recycles (label : string) (s : state) (i : Z) (pool : list Z) :
  revoked_node_ids s = i :: pool ->
  create_new_node label s = Some (mk_node i label None, set_revoked_node_ids pool s).
Proof. intros H. unfold create_new_node. by rewrite H. Qed.

Lemma create_new_node_mints (label : string) (s : state) :
  revoked_node_ids s = [] ->
  create_new_node label s
  = Some (mk_node (global_node_id s) label None,
          set_global_node_id ((global_node_id s + 1) mod id_modulus) s).
Proof. intros H. unfold create_new_node. by rewrite H. Qed.

Lemma create_new_edge_recycles w (label : string) e0 e1 (s : state) (i : Z) (pool : list Z) :
  revoked_edge_ids s = i :: pool ->
  create_new_edge w label e0 e1 s
  = Some (mk_edge w i label e0 e1, set_revoked_edge_ids pool s).
Proof. intros H. unfold create_new_edge. by rewrite H. Qed.

Lemma create_new_edge_mints w (label : string) e0 e1 (s : state) :
  revoked_edge_ids s = [] ->
  create_new_edge w label e0 e1 s
  = Some (mk_edge w (global_edge_id s) label e0 e1,
          set_global_edge_id ((global_edge_id s + 1) mod id_modulus) s).
Proof. intros H. unfold create_new_edge. by rewrite H. Qed.

(** Creating as many nodes as the queue holds identifiers returns the
    queue's identifiers, oldest first. *)
Lemma create_new_nodes_from_pool (labels : list string) :
  forall (s : state) (ids rest : list Z),
    revoked_node_ids s = ids ++ rest ->
    length labels = length ids ->
    exists nodes,
      create_new_nodes labels s = Some (nodes, set_revoked_node_ids rest s)
      /\ (node_id <$> nodes) = ids
      /\ (node_label <$> nodes) = labels.
Proof.
  induction labels as [|lab labels IH]; intros s ids rest Hpool Hlen.
  - destruct ids; [|done]. exists []. simpl in *. unfold ret.
    split; [|done]. f_equal. f_equal. destruct s. simpl in *. by subst.
  - destruct ids as [|i ids]; [done|]. simpl in Hpool, Hlen.
    simpl. unfold bind.
    rewrite (create_new_node_recycles _ _ _ _ Hpool).
    destruct (IH (set_revoked_node_ids (ids ++ rest) s) ids rest) as (nodes & Hrun & Hids & Hlabs);
      [done|lia|].
    rewrite Hrun. exists (mk_node i lab None :: nodes).
    split; [done|]. rewrite !fmap_cons. simpl. by rewrite Hids, Hlabs.
Qed.

Lemma create_new_edges_from_pool (descs : list (Z * string * Z * Z)) :
  forall (s : state) (ids rest : list Z),
    revoked_edge_ids s = ids ++ rest ->
    length descs = length ids ->
    exists es,
      create_new_edges descs s = Some (es, set_revoked_edge_ids rest s)
      /\ (edge_id <$> es) = ids.
Proof.
  induction descs as [|[[[w lab] e0] e1] descs IH]; intros s ids rest Hpool Hlen.
  - destruct ids; [|done]. exists []. simpl in *. unfold ret.
    split; [|done]. f_equal. f_equal. destruct s. simpl in *. by subst.
  - destruct ids as [|i ids]; [done|]. simpl in Hpool, Hlen.
    simpl. unfold bind.
    rewrite (create_new_edge_recycles _ _ _ _ _ _ _ Hpool).
    destruct (IH (set_revoked_edge_ids (ids ++ rest) s) ids rest) as (es & Hrun & Hids);
      [done|lia|].
    rewrite Hrun. exists (mk_edge w i lab e0 e1 :: es).
    split; [done|]. rewrite fmap_cons. simpl. by rewrite Hids.
Qed.

(** *** Deleting nodes *)

Lemma delete_node_found (graph : graph_t) (i : Z) (k : nat) (s : state) :
  node_index graph i = Some k ->
  delete_node graph i s
  = Some (delete k graph, set_revoked_node_ids (revoked_node_ids s ++ [i]) s).
Proof.
  intros Hk. unfold delete_node. rewrite Hk.
  destruct (node_index_Some _ _ _ Hk) as (n & Hn & Hid & _). rewrite Hn.
  unfold append_revoked_id. by rewrite Hid.
Qed.

Lemma delete_node_absent (graph : graph_t) (i : Z) (s : state) :
  node_index graph i = None -> delete_node graph i s = Some (graph, s).
Proof. intros Hk. unfold delete_node. by rewrite Hk. Qed.



(** ** Revoking the identifiers of a whole list *)

Lemma elem_of_concat {A : Type} (x : A) (ls : list (list A)) :
  x ∈ concat ls <-> exists l, x ∈ l /\ l ∈ ls.
Proof.
  induction ls as [|l ls IH]; simpl.
  - split; [by intros H%elem_of_nil|]. intros (l & _ & H). by apply elem_of_nil in H.
  - rewrite elem_of_app, IH. split.
    + intros [H|(l' & H1 & H2)]; [exists l; split; [done|left] | exists l'; split; [done|by right]].
    + intros (l' & H1 & [->|H2]%elem_of_cons); [by left|right; by exists l'].
Qed.

Lemma set_revoked_edge_ids_same (s : state) :
  set_revoked_edge_ids (revoked_edge_ids s) s = s.
Proof. by destruct s. Qed.

Lemma set_revoked_node_ids_same (s : state) :
  set_revoked_node_ids (revoked_node_ids s) s = s.
Proof. by destruct s. Qed.

Lemma set_heap_same (s : state) : set_heap (heap s) s = s.
Proof. by destruct s. Qed.

Lemma revoke_edge_ids_spec l :
  forall (fuel : nat) (p : ptr) (s : state),
    chain (heap s) p l -> (length l < fuel)%nat ->
    revoke_edge_ids fuel p s
    = Some (tt, set_revoked_edge_ids (revoked_edge_ids s ++ (edge_id <$> l.*2)) s).
Proof.
  unfold chain. induction l as [|[a e] l IH]; intros fuel p s; simpl.
  - intros -> _. destruct fuel; simpl; unfold ret;
      by rewrite app_nil_r, set_revoked_edge_ids_same.
  - intros (-> & n & Ha & Hl) Hf. destruct fuel as [|fuel]; [lia|]. simpl.
    unfold_monad. rewrite Ha. simpl.
    rewrite (IH fuel n); [|done|lia]. simpl. unfold append_revoked_id.
    by rewrite <- app_assoc.
Qed.

Lemma holds_fuel (s : state) p es :
  holds (heap s) p es -> exists l, chain (heap s) p l /\ l.*2 = es /\ (length l < loop_fuel s)%nat.
Proof. intros (l & Hc & Hes). exists l. repeat split; [done..|]. by eapply chain_fuel. Qed.

Lemma delete_edge_list_spec (s : state) p es :
  holds (heap s) p es ->
  delete_edge_list p s
  = Some (None, set_revoked_edge_ids (revoked_edge_ids s ++ (edge_id <$> es)) s).
Proof.
  intros (l & Hc & <- & Hf)%holds_fuel. unfold delete_edge_list. unfold_monad.
  by rewrite (revoke_edge_ids_spec _ _ _ _ Hc Hf).
Qed.

Lemma delete_graph_spec (graph : graph_t) :
  forall (s : state) (E : list (list graph_edge_t)),
    graph_holds s graph E ->
    delete_graph graph s
    = Some ([], set_revoked_edge_ids (revoked_edge_ids s ++ edge_ids_of E)
                  (set_revoked_node_ids (revoked_node_ids s ++ (node_id <$> graph)) s)).
Proof.
  unfold graph_holds, edge_ids_of.
  induction graph as [|n graph IH]; intros s E HE.
  - apply Forall2_nil_inv_l in HE as ->. simpl. unfold ret.
    by rewrite !app_nil_r, set_revoked_node_ids_same, set_revoked_edge_ids_same.
  - apply Forall2_cons_inv_l in HE as (es & E' & Hn & HE & ->).
    destruct (holds_fuel _ _ _ Hn) as (l & Hc & <- & Hf).
    simpl. unfold_monad.
    rewrite (revoke_edge_ids_spec l); [|done|done].
    rewrite (IH _ E'); [|done]. simpl. unfold append_revoked_id.
    rewrite ?fmap_app, <- ?app_assoc. reflexivity.
Qed.

(** ** Deleting several edges of one list *)

Lemma elem_of_split_first (l : list (nat * graph_edge_t)) (i : Z) :
  i ∈ edge_id <$> l.*2 ->
  exists l1 a e l2, l = l1 ++ (a, e) :: l2 /\ edge_id e = i /\ i ∉ edge_id <$> l1.*2.
Proof.
  induction l as [|[a e] l IH]; simpl; [by intros H%elem_of_nil|].
  destruct (decide (edge_id e = i)) as [Heq|Hne].
  - intros _. exists [], a, e, l. split; [done|]. split; [done|]. apply not_elem_of_nil.
  - intros [?|Hin]%elem_of_cons; [congruence|].
    destruct (IH Hin) as (l1 & a' & e' & l2 & -> & Hid & Hnot).
    exists ((a, e) :: l1), a', e', l2. split; [done|]. split; [done|].
    rewrite !fmap_cons. simpl. apply not_elem_of_cons. split; [congruence|done].
Qed.


(** ** Identifiers in use and the allocator *)

Lemma ids_ok_perm pool counter live live' :
  live ≡ₚ live' -> ids_ok pool counter live -> ids_ok pool counter live'.
Proof.
  intros Hp (Hnd & Hlt & H0). split; [|split; [|done]].
  - by rewrite <- Hp.
  - intros x Hx. apply Hlt. by rewrite Hp.
Qed.

Lemma ids_ok_live pool counter live i :
  ids_ok pool counter live -> i ∈ live -> i <= counter /\ i ∉ pool.
Proof.
  intros (Hnd & Hlt & _) Hi. split.
  - assert (i < counter); [|lia]. apply Hlt, elem_of_app. by right.
  - apply NoDup_app in Hnd as (_ & Hdisj & _). intros Hp. by apply (Hdisj i).
Qed.

Lemma ids_ok_pop i pool counter live :
  ids_ok (i :: pool) counter live -> ids_ok pool counter (live ++ [i]).
Proof.
  intros (Hnd & Hlt & H0). split; [|split; [|done]].
  - assert (pool ++ live ++ [i] ≡ₚ (i :: pool) ++ live) as ->; [|done].
    simpl. rewrite app_assoc. by rewrite <- Permutation_cons_append.
  - intros x Hx. apply Hlt.
    assert ((i :: pool) ++ live ≡ₚ pool ++ live ++ [i]) as ->; [|done].
    simpl. rewrite app_assoc. by rewrite <- Permutation_cons_append.
Qed.

Lemma ids_ok_mint counter live :
  ids_ok [] counter live -> counter + 1 < id_modulus ->
  ids_ok [] ((counter + 1) mod id_modulus) (live ++ [counter]).
Proof.
  intros (Hnd & Hlt & H0) Hroom. rewrite Z.mod_small by lia. simpl in *.
  split; [|split; [|lia]].
  - simpl. rewrite <- Permutation_cons_append. apply NoDup_cons. split; [|done].
    intros Hin. specialize (Hlt _ Hin). lia.
  - simpl. intros x [Hx|Hx]%elem_of_app.
    + specialize (Hlt _ Hx). lia.
    + apply list_elem_of_singleton in Hx. lia.
Qed.

Lemma ids_ok_revoke pool counter live moved :
  ids_ok pool counter (live ++ moved) -> ids_ok (pool ++ moved) counter live.
Proof.
  intros (Hnd & Hlt & H0).
  assert ((pool ++ moved) ++ live ≡ₚ pool ++ live ++ moved) as Hp.
  { rewrite <- app_assoc. f_equiv. apply Permutation_app_comm. }
  split; [|split; [|done]].
  - by rewrite Hp.
  - intros x Hx. apply Hlt. by rewrite <- Hp.
Qed.


Lemma edge_ids_ok_exists (s : state) live i :
  edge_ids_ok s live -> i ∈ live -> exists_edge_from_id i s = true.
Proof.
  intros Hok Hi. apply exists_edge_from_id_true. by eapply ids_ok_live.
Qed.

Lemma create_new_edge_ok w (label : string) e0 e1 (s : state) live :
  edge_ids_ok s live ->
  global_edge_id s + 1 < id_modulus ->
  exists i s',
    create_new_edge w label e0 e1 s = Some (mk_edge w i label e0 e1, s')
    /\ edge_ids_ok s' (live ++ [i])
    /\ heap s' = heap s
    /\ global_node_id s' = global_node_id s
    /\ revoked_node_ids s' = revoked_node_ids s
    /\ global_edge_id s <= global_edge_id s' <= global_edge_id s + 1.
Proof.
  intros Hok Hroom. unfold edge_ids_ok in *.
  destruct (revoked_edge_ids s) as [|i pool] eqn:Hpool.
  - rewrite (create_new_edge_mints _ _ _ _ _ Hpool).
    eexists _, _. split; [reflexivity|]. simpl. rewrite ?Hpool.
    split; [by apply ids_ok_mint|].
    destruct Hok as (_ & _ & H0). rewrite Z.mod_small by lia. repeat split; lia.
  - rewrite (create_new_edge_recycles _ _ _ _ _ _ _ Hpool).
    eexists _, _. split; [reflexivity|]. simpl.
    split; [by apply ids_ok_pop|]. repeat split; lia.
Qed.

Lemma create_new_node_ok (label : string) (s : state) live :
  node_ids_ok s live ->
  global_node_id s + 1 < id_modulus ->
  exists i s',
    create_new_node label s = Some (mk_node i label None, s')
    /\ node_ids_ok s' (live ++ [i])
    /\ heap s' = heap s
    /\ global_edge_id s' = global_edge_id s
    /\ revoked_edge_ids s' = revoked_edge_ids s
    /\ global_node_id s <= global_node_id s' <= global_node_id s + 1.
Proof.
  intros Hok Hroom. unfold node_ids_ok in *.
  destruct (revoked_node_ids s) as [|i pool] eqn:Hpool.
  - rewrite (create_new_node_mints _ _ Hpool).
    eexists _, _. split; [reflexivity|]. simpl. rewrite ?Hpool.
    split; [by apply ids_ok_mint|].
    destruct Hok as (_ & _ & H0). rewrite Z.mod_small by lia. repeat split; lia.
  - rewrite (create_new_node_recycles _ _ _ _ Hpool).
    eexists _, _. split; [reflexivity|]. simpl.
    split; [by apply ids_ok_pop|]. repeat split; lia.
Qed.

(** ** Complement *)

Lemma holds_frame h h' p es :
  holds h p es ->
  (forall b, (b < length h)%nat -> h' !! b = h !! b) ->
  holds h' p es.
Proof.
  intros (l & Hc & Hes) Hsame. exists l. split; [|done].
  eapply lseg_frame; [exact Hc|]. intros a Ha. apply Hsame. by eapply lseg_lt.
Qed.

Lemma graph_holds_frame (s s' : state) graph E :
  graph_holds s graph E ->
  (forall b, (b < length (heap s))%nat -> heap s' !! b = heap s !! b) ->
  graph_holds s' graph E.
Proof.
  unfold graph_holds. intros HE Hsame. eapply Forall2_impl; [exact HE|].
  intros n es Hn. eapply holds_frame; [exact Hn | exact Hsame].
Qed.

Lemma build_template_spec (cols : graph_t) :
  forall (s : state) (e0 : Z) (t : ptr) T live (W : nat),
    chain (heap s) t T ->
    (forall a, a ∈ T.*1 -> (W <= a)%nat) ->
    (W <= length (heap s))%nat ->
    edge_ids_ok s live ->
    global_edge_id s + Z.of_nat (length cols) < id_modulus ->
    exists t' s' T',
      build_template cols e0 t s = Some (t', s')
      /\ chain (heap s') t' (T ++ T')
      /\ (forall a, a ∈ T'.*1 -> (W <= a)%nat)
      /\ Forall2 (fun c e => endpoint_0 e = e0 /\ endpoint_1 e = node_id c) cols T'.*2
      /\ edge_ids_ok s' (live ++ (edge_id <$> T'.*2))
      /\ (length (heap s) <= length (heap s'))%nat
      /\ (forall b, (b < W)%nat -> heap s' !! b = heap s !! b)
      /\ global_edge_id s <= global_edge_id s' <= global_edge_id s + Z.of_nat (length cols).
Proof.
  induction cols as [|c cols IH]; intros s e0 t T live W Hc HW HWlen Hok Hroom.
  - exists t, s, []. simpl. unfold ret. rewrite !app_nil_r.
    split; [done|]. split; [done|].
    split; [intros a Ha; by apply elem_of_nil in Ha|].
    split; [constructor|]. split; [done|]. split; [done|]. split; [done|]. lia.
  - simpl in Hroom. simpl. unfold bind.
    destruct (create_new_edge_ok COMPLEMENTED_EDGE_DEFAULT_WEIGHT COMPLEMENTED_EDGE_DEFAULT_LABEL
                e0 (node_id c) s live Hok) as (i & s1 & Hrun & Hok1 & Hheap & _ & _ & Hg); [lia|].
    rewrite Hrun.
    set (e := mk_edge COMPLEMENTED_EDGE_DEFAULT_WEIGHT i COMPLEMENTED_EDGE_DEFAULT_LABEL
                e0 (node_id c)) in *.
    assert (chain (heap s1) t T) as Hc1 by by rewrite Hheap.
    destruct (append_edge_spec s1 t T e Hc1) as (t1 & h1 & Happ & Hct1 & Hlen1 & _ & Hfr1).
    rewrite Happ.
    destruct (IH (set_heap h1 s1) e0 t1 (T ++ [(length (heap s1), e)]) (live ++ [i]) W)
      as (t' & s' & T' & Hrun' & Hct' & HW' & Hends & Hok' & Hlen' & Hfr' & Hg').
    + done.
    + intros a Ha. rewrite fmap_app in Ha. apply elem_of_app in Ha as [Ha|Ha]; [by apply HW|].
      apply list_elem_of_singleton in Ha. simpl in Ha. subst a. by rewrite Hheap.
    + simpl. rewrite Hlen1, Hheap. lia.
    + done.
    + simpl. lia.
    + exists t', s', ((length (heap s1), e) :: T').
      split; [done|]. split; [by rewrite <- app_assoc in Hct'|].
      split.
      { intros a Ha. rewrite fmap_cons in Ha. apply elem_of_cons in Ha as [->|Ha]; [|by apply HW'].
        simpl. by rewrite Hheap. }
      split; [rewrite fmap_cons; by constructor|].
      split.
      { rewrite !fmap_cons. simpl. rewrite <- app_assoc in Hok'. exact Hok'. }
      split; [simpl in Hlen'; rewrite Hlen1, Hheap in Hlen'; lia|].
      split.
      { intros b Hb. rewrite Hfr' by done. simpl. rewrite Hfr1; [by rewrite Hheap| |rewrite Hheap; lia].
        intros Hin. specialize (HW _ Hin). lia. }
      simpl in Hg'. lia.
Qed.

Lemma unmatched_elem o T x :
  x ∈ unmatched o T <-> x ∈ T /\ same_endpoints o x.2 = false.
Proof.
  induction T as [|c T IH]; simpl.
  - split; [by intros H%elem_of_nil|]. intros [H _]. by apply elem_of_nil in H.
  - destruct (same_endpoints o c.2) eqn:Hm.
    + rewrite IH, elem_of_cons. split; [tauto|]. intros [[->|?] ?]; [congruence|done].
    + rewrite !elem_of_cons, IH. split; [|tauto]. intros [->|[? ?]]; auto.
Qed.

Lemma unmatched_addr o T a :
  a ∈ (unmatched o T).*1 -> a ∈ T.*1.
Proof.
  intros (x & -> & Hx)%list_elem_of_fmap. apply unmatched_elem in Hx as [Hx _].
  apply list_elem_of_fmap. by exists x.
Qed.

Lemma ids_ok_live_NoDup pool counter live :
  ids_ok pool counter live -> NoDup live.
Proof. intros (Hnd & _). by apply NoDup_app in Hnd as (_ & _ & ?). Qed.

Lemma prune_template_with_spec S :
  forall (fuel : nat) (s : state) K (t tp : ptr) (ea : nat) o no live,
    chain (heap s) t (K ++ S) ->
    chain (heap s) tp S ->
    heap s !! ea = Some (mk_cell o no) ->
    ea ∉ (K ++ S).*1 ->
    edge_ids_ok s (live ++ (edge_id <$> (K ++ S).*2)) ->
    (length S < fuel)%nat ->
    exists t' s',
      prune_template_with fuel ea tp t s = Some (t', s')
      /\ chain (heap s') t' (K ++ unmatched o S)
      /\ edge_ids_ok s' (live ++ (edge_id <$> (K ++ unmatched o S).*2))
      /\ length (heap s') = length (heap s)
      /\ (forall b, b ∉ (K ++ S).*1 -> heap s' !! b = heap s !! b)
      /\ global_edge_id s' = global_edge_id s.
Proof.
  induction S as [|[a c] S1 IH]; intros fuel s K t tp ea o no live Hct Hctp Hea Hnea Hok Hf.
  - unfold chain in Hctp. simpl in Hctp. subst tp. exists t, s. simpl.
    rewrite app_nil_r in *.
    split; [by destruct fuel|]. split; [done|]. split; [done|]. split; [done|].
    split; done.
  - unfold chain in Hctp. simpl in Hctp. destruct Hctp as (-> & n1 & Ha & Hc1).
    destruct fuel as [|fuel]; [simpl in Hf; lia|]. simpl in Hf.
    pose proof (chain_NoDup _ _ _ Hct) as Hnda.
    rewrite fmap_app, fmap_cons in Hnda. simpl in Hnda.
    apply NoDup_app in Hnda as (HndK & HdisjK & Hnda1).
    apply NoDup_cons in Hnda1 as (HaS1 & HndS1).
    assert (a ∉ K.*1) as HaK.
    { intros Hin. apply (HdisjK a Hin). left. }
    assert ((ea ∉ K.*1) /\ ea <> a /\ (ea ∉ S1.*1)) as (HeaK & Heaa & HeaS1).
    { rewrite fmap_app, fmap_cons in Hnea. simpl in Hnea.
      rewrite elem_of_app, elem_of_cons in Hnea. repeat split; intros ?; apply Hnea; auto. }
    simpl. unfold_monad. rewrite Hea, Ha. simpl.
    destruct (same_endpoints o c) eqn:Hm.
    + pose proof (ids_ok_live_NoDup _ _ _ Hok) as Hndi.
      apply NoDup_app in Hndi as (_ & _ & Hndi).
      rewrite fmap_app, fmap_cons, fmap_app, fmap_cons in Hndi. simpl in Hndi.
      apply NoDup_app in Hndi as (_ & HdisjI & _).
      destruct (delete_edge_found s t K a c S1 Hct) as (t1 & h1 & Hdel & Hct1 & Hlen1 & Hfr1).
      { intros Hin. apply (HdisjI _ Hin). left. }
      { eapply edge_ids_ok_exists; [exact Hok|]. apply elem_of_app. right.
        rewrite fmap_app, fmap_cons, fmap_app, fmap_cons. simpl.
        apply elem_of_app. right. left. }
      rewrite Hdel. simpl. rewrite (Hfr1 a HaK), Ha. simpl.
      destruct (IH fuel (set_heap h1 (set_revoked_edge_ids (revoked_edge_ids s ++ [edge_id c]) s))
                  K t1 n1 ea o no live)
        as (t' & s' & Hrun & Hct' & Hok' & Hlen' & Hfr' & Hg').
      * done.
      * simpl. eapply lseg_frame; [exact Hc1|]. intros b Hb. apply Hfr1.
        intros Hin. apply (HdisjK b Hin). by right.
      * simpl. by rewrite (Hfr1 ea HeaK).
      * rewrite fmap_app, elem_of_app. tauto.
      * unfold edge_ids_ok in *. simpl. apply ids_ok_revoke.
        eapply ids_ok_perm; [|exact Hok].
        rewrite !fmap_app, !fmap_cons. simpl. rewrite <- !app_assoc. f_equiv. f_equiv.
        by rewrite <- Permutation_cons_append.
      * lia.
      * exists t', s'. split; [done|]. split; [done|]. split; [done|].
        split; [simpl in Hlen'; lia|]. split; [|done].
        intros b Hb. rewrite fmap_app, fmap_cons, elem_of_app, elem_of_cons in Hb. simpl in Hb.
        rewrite Hfr'; [simpl; apply Hfr1; tauto|].
        rewrite fmap_app, elem_of_app. tauto.
    + simpl. rewrite Ha. simpl.
      destruct (IH fuel s (K ++ [(a, c)]) t n1 ea o no live)
        as (t' & s' & Hrun & Hct' & Hok' & Hlen' & Hfr' & Hg').
      * by rewrite <- app_assoc.
      * done.
      * done.
      * by rewrite <- app_assoc.
      * by rewrite <- app_assoc.
      * lia.
      * exists t', s'. rewrite <- !app_assoc in Hct', Hok'. simpl in Hct', Hok'.
        split; [done|]. split; [done|]. split; [done|]. split; [done|]. split; [|done].
        intros b Hb. apply Hfr'. by rewrite <- app_assoc.
Qed.

Lemma prune_template_spec O :
  forall (fuel : nat) (s : state) (ep t : ptr) T live,
    chain (heap s) ep O ->
    chain (heap s) t T ->
    (forall a, a ∈ O.*1 -> a ∉ T.*1) ->
    edge_ids_ok s (live ++ (edge_id <$> T.*2)) ->
    (length O < fuel)%nat ->
    exists t' s',
      prune_template fuel ep t s = Some (t', s')
      /\ chain (heap s') t' (fold_left (fun T o => unmatched o T) O.*2 T)
      /\ edge_ids_ok s'
           (live ++ (edge_id <$> (fold_left (fun T o => unmatched o T) O.*2 T).*2))
      /\ length (heap s') = length (heap s)
      /\ (forall b, b ∉ T.*1 -> heap s' !! b = heap s !! b)
      /\ global_edge_id s' = global_edge_id s.
Proof.
  induction O as [|[ea o] O1 IH]; intros fuel s ep t T live Hcep Hct Hdisj Hok Hf.
  - unfold chain in Hcep. simpl in Hcep. subst ep. exists t, s. simpl.
    split; [by destruct fuel|]. repeat (split; [done|]). done.
  - unfold chain in Hcep. simpl in Hcep. destruct Hcep as (-> & n1 & Hea & Hc1).
    destruct fuel as [|fuel]; [simpl in Hf; lia|]. simpl in Hf.
    assert (ea ∉ T.*1) as HeaT.
    { apply Hdisj. rewrite fmap_cons. left. }
    simpl. unfold_monad.
    destruct (prune_template_with_spec T (loop_fuel s) s [] t t ea o n1 live)
      as (t1 & s1 & Hrun1 & Hct1 & Hok1 & Hlen1 & Hfr1 & Hg1);
      [done|done|done|done|done|by eapply chain_fuel|].
    simpl in Hrun1, Hct1, Hok1, Hfr1. rewrite Hrun1.
    rewrite (Hfr1 ea HeaT), Hea. simpl.
    destruct (IH fuel s1 n1 t1 (unmatched o T) live)
      as (t' & s' & Hrun & Hct' & Hok' & Hlen' & Hfr' & Hg').
    + eapply lseg_frame; [exact Hc1|]. intros b Hb. apply Hfr1.
      apply Hdisj. rewrite fmap_cons. by right.
    + done.
    + intros b Hb Hin. apply unmatched_addr in Hin.
      eapply Hdisj; [|exact Hin]. rewrite fmap_cons. by right.
    + done.
    + lia.
    + exists t', s'. split; [done|]. split; [done|]. split; [done|].
      split; [lia|]. split; [|lia].
      intros b Hb. rewrite Hfr'; [by apply Hfr1|].
      intros Hin. by apply unmatched_addr in Hin.
Qed.

Lemma fold_unmatched_elem os T x :
  x ∈ fold_left (fun T o => unmatched o T) os T
  <-> x ∈ T /\ forall o, o ∈ os -> same_endpoints o x.2 = false.
Proof.
  revert T. induction os as [|o os IH]; intros T; simpl.
  - split; [|tauto]. intros H. split; [done|]. by intros o Ho%elem_of_nil.
  - rewrite IH, unmatched_elem. split.
    + intros [[Hx Hm] Hall]. split; [done|].
      intros o' [->|Ho']%elem_of_cons; [done|by apply Hall].
    + intros [Hx Hall]. split; [split; [done|apply Hall; left]|].
      intros o' Ho'. apply Hall. by right.
Qed.

Lemma adj_true es c :
  adj es c = true <-> exists e, e ∈ es /\ endpoint_1 e = c.
Proof.
  unfold adj. rewrite existsb_exists. split.
  - intros (e & He & Heq%Z.eqb_eq). exists e. split; [by apply list_elem_of_In|done].
  - intros (e & He & Heq). exists e. split; [by apply list_elem_of_In|by apply Z.eqb_eq].
Qed.

Lemma adj_from_true nid es c :
  adj_from nid es c = true <-> exists e, e ∈ es /\ endpoint_0 e = nid /\ endpoint_1 e = c.
Proof.
  unfold adj_from. rewrite existsb_exists. split.
  - intros (e & He & [H0%Z.eqb_eq H1%Z.eqb_eq]%andb_true_iff).
    exists e. split; [by apply list_elem_of_In|done].
  - intros (e & He & H0 & H1). exists e. split; [by apply list_elem_of_In|].
    apply andb_true_iff. split; by apply Z.eqb_eq.
Qed.

Lemma same_endpoints_true o c :
  same_endpoints o c = true <-> endpoint_0 o = endpoint_0 c /\ endpoint_1 o = endpoint_1 c.
Proof. unfold same_endpoints. rewrite andb_true_iff, !Z.eqb_eq. tauto. Qed.

Lemma complement_node_spec (s : state) (graph : graph_t) (n : graph_node_t) es live :
  holds (heap s) (node_edges n) es ->
  edge_ids_ok s (live ++ (edge_id <$> es)) ->
  global_edge_id s + Z.of_nat (length graph) < id_modulus ->
  exists t' s' es',
    complement_node graph n s = Some (t', s')
    /\ holds (heap s') t' es'
    /\ complemented (node_id <$> graph) (node_id n) es es'
    /\ edge_ids_ok s' (live ++ (edge_id <$> es'))
    /\ (forall b, (b < length (heap s))%nat -> heap s' !! b = heap s !! b)
    /\ (length (heap s) <= length (heap s'))%nat
    /\ global_edge_id s <= global_edge_id s' <= global_edge_id s + Z.of_nat (length graph).
Proof.
  intros (O & HcO & <-) Hok Hroom. unfold complement_node. unfold_monad.
  destruct (build_template_spec graph s (node_id n) None [] (live ++ (edge_id <$> O.*2))
              (length (heap s)))
    as (t0 & s0 & T0 & Hrun0 & Hct0 & HW0 & Hends & Hok0 & Hlen0 & Hfr0 & Hg0);
    [done|by intros a Ha%elem_of_nil|done|done|done|].
  simpl in Hct0. rewrite Hrun0.
  assert (chain (heap s0) (node_edges n) O) as HcO0.
  { eapply lseg_frame; [exact HcO|]. intros a Ha. apply Hfr0. by eapply lseg_lt. }
  destruct (prune_template_spec O (loop_fuel s0) s0 (node_edges n) t0 T0
              (live ++ (edge_id <$> O.*2)))
    as (t' & s1 & Hrun1 & Hct1 & Hok1 & Hlen1 & Hfr1 & Hg1);
    [done|done| |done|by eapply chain_fuel|].
  { intros a Ha Hin. specialize (HW0 _ Hin).
    pose proof (lseg_lt _ _ _ _ _ HcO Ha). lia. }
  rewrite Hrun1.
  set (T' := fold_left (fun T o => unmatched o T) O.*2 T0) in *.
  assert (forall a, a ∈ O.*1 -> a ∉ T0.*1) as Hdisj.
  { intros a Ha Hin. specialize (HW0 _ Hin).
    pose proof (lseg_lt _ _ _ _ _ HcO Ha). lia. }
  assert (holds (heap s1) (node_edges n) O.*2) as HholdsO.
  { exists O. split; [|done]. eapply lseg_frame; [exact HcO0|].
    intros a Ha. apply Hfr1. by apply Hdisj. }
  rewrite (delete_edge_list_spec _ _ _ HholdsO). simpl.
  eexists _, _, T'.*2. split; [reflexivity|]. simpl.
  split; [by exists T'|].
  assert (forall x, x ∈ T0 -> endpoint_0 x.2 = node_id n /\ endpoint_1 x.2 ∈ node_id <$> graph)
    as HT0.
  { intros x Hx. assert (x.2 ∈ T0.*2) as Hx2 by (apply list_elem_of_fmap; by exists x).
    apply list_elem_of_lookup_1 in Hx2 as (k & Hk).
    destruct (Forall2_lookup_r _ _ _ _ _ Hends Hk) as (m & Hm & H0 & H1).
    split; [done|]. rewrite H1. apply list_elem_of_fmap. exists m. split; [done|].
    by eapply list_elem_of_lookup_2. }
  split; [split|].
  - intros e (x & -> & Hx)%list_elem_of_fmap.
    apply fold_unmatched_elem in Hx as [Hx _]. by apply HT0.
  - intros c (m & -> & Hm)%list_elem_of_fmap.
    apply eq_true_iff_eq. rewrite negb_true_iff, adj_true.
    rewrite <- not_true_iff_false, adj_from_true. split.
    + intros (e & (x & -> & Hx)%list_elem_of_fmap & He1) (o & Ho & Ho0 & Ho1).
      apply fold_unmatched_elem in Hx as [Hx Hall].
      specialize (Hall o Ho). apply not_true_iff_false in Hall. apply Hall.
      apply same_endpoints_true. destruct (HT0 x Hx) as [-> _]. split; congruence.
    + intros Hnone.
      apply list_elem_of_lookup_1 in Hm as (k & Hk).
      destruct (Forall2_lookup_l _ _ _ _ _ Hends Hk) as (e & He & H0 & H1).
      apply list_elem_of_lookup_2 in He.
      apply list_elem_of_fmap in He as (x & -> & Hx).
      exists x.2. split; [|done]. apply list_elem_of_fmap. exists x. split; [done|].
      apply fold_unmatched_elem. split; [done|].
      intros o Ho. apply not_true_iff_false. intros Hm%same_endpoints_true.
      apply Hnone. exists o. split; [done|]. destruct Hm as [Hm0 Hm1]. split; congruence.
  - split.
    { unfold edge_ids_ok in *. simpl. apply ids_ok_revoke.
      eapply ids_ok_perm; [|exact Hok1].
      rewrite <- !app_assoc. f_equiv. apply Permutation_app_comm. }
    split.
    { intros b Hb. rewrite Hfr1; [by apply Hfr0|].
      intros Hin. specialize (HW0 _ Hin). lia. }
    split; [lia|]. lia.
Qed.

Lemma insert_middle {A : Type} (l1 l2 : list A) (x y : A) :
  <[length l1 := y]> (l1 ++ x :: l2) = l1 ++ y :: l2.
Proof.
  replace (length l1) with (length l1 + 0)%nat by lia. by rewrite insert_app_r.
Qed.

Lemma edge_ids_of_app E1 E2 :
  edge_ids_of (E1 ++ E2) = edge_ids_of E1 ++ edge_ids_of E2.
Proof. unfold edge_ids_of. by rewrite concat_app, fmap_app. Qed.

Lemma edge_ids_of_cons es E :
  edge_ids_of (es :: E) = (edge_id <$> es) ++ edge_ids_of E.
Proof. unfold edge_ids_of. simpl. by rewrite fmap_app. Qed.

Lemma edge_ids_of_singleton es :
  edge_ids_of [es] = edge_id <$> es.
Proof. rewrite edge_ids_of_cons. unfold edge_ids_of. simpl. by rewrite app_nil_r. Qed.

Lemma complement_loop_spec (gr : graph_t) :
  forall (gp : graph_t) (s : state) Ep Er,
    graph_holds s gp Ep ->
    graph_holds s gr Er ->
    edge_ids_ok s (edge_ids_of Ep ++ edge_ids_of Er) ->
    global_edge_id s + Z.of_nat (length gr) * Z.of_nat (length (gp ++ gr)) < id_modulus ->
    exists gr' s' Er',
      complement_loop (seq (length gp) (length gr)) (gp ++ gr) s = Some (gp ++ gr', s')
      /\ node_id <$> gr' = node_id <$> gr
      /\ graph_holds s' gp Ep
      /\ graph_holds s' gr' Er'
      /\ edge_ids_ok s' (edge_ids_of Ep ++ edge_ids_of Er')
      /\ global_edge_id s <= global_edge_id s'
         <= global_edge_id s + Z.of_nat (length gr) * Z.of_nat (length (gp ++ gr))
      /\ Forall3 (fun n es es' => complemented (node_id <$> (gp ++ gr)) (node_id n) es es')
           gr Er Er'.
Proof.
  induction gr as [|n gr1 IH]; intros gp s Ep Er Hp Hr Hok Hroom.
  - apply Forall2_nil_inv_l in Hr as ->. exists [], s, []. simpl. unfold ret.
    split; [done|]. split; [done|]. split; [done|]. split; [constructor|].
    split; [done|]. split; [lia|]. constructor.
  - apply Forall2_cons_inv_l in Hr as (es & Er1 & Hn & Hr1 & ->).
    set (L := length (gp ++ n :: gr1)) in *.
    assert (Z.of_nat (length (n :: gr1)) * Z.of_nat L
            = Z.of_nat L + Z.of_nat (length gr1) * Z.of_nat L) as HL.
    { simpl length. lia. }
    rewrite HL in Hroom. rewrite HL.
    cbn [length seq complement_loop]. unfold_monad.
    rewrite list_lookup_middle by done.
    destruct (complement_node_spec s (gp ++ n :: gr1) n es (edge_ids_of Ep ++ edge_ids_of Er1))
      as (t' & s1 & es' & Hrun1 & Hholds' & Hcompl & Hok1 & Hfr1 & Hlen1 & Hg1).
    + done.
    + eapply ids_ok_perm; [|exact Hok]. rewrite edge_ids_of_cons.
      rewrite <- !app_assoc. f_equiv. apply Permutation_app_comm.
    + fold L. lia.
    + rewrite Hrun1. rewrite insert_middle.
      set (n' := set_node_edges t' n).
      replace (gp ++ n' :: gr1) with ((gp ++ [n']) ++ gr1) by by rewrite <- app_assoc.
      replace (S (length gp)) with (length (gp ++ [n'])) by (rewrite length_app; simpl; lia).
      assert (length ((gp ++ [n']) ++ gr1) = L) as HL'.
      { unfold L. rewrite !length_app. simpl. lia. }
      destruct (IH (gp ++ [n']) s1 (Ep ++ [es']) Er1)
        as (gr1' & s' & Er1' & Hrun & Hids & Hp' & Hr' & Hok' & Hg' & Hall).
      * apply Forall2_app; [by eapply graph_holds_frame|].
        constructor; [done|constructor].
      * by eapply graph_holds_frame.
      * eapply ids_ok_perm; [|exact Hok1]. rewrite edge_ids_of_app, edge_ids_of_singleton.
        rewrite <- !app_assoc. f_equiv. apply Permutation_app_comm.
      * rewrite HL'. fold L in Hg1. lia.
      * rewrite HL' in Hg'. fold L in Hg1.
        apply Forall2_app_inv_l in Hp' as (Ep1 & Ep2 & Hp1 & Hp2 & Heq).
        apply Forall2_cons_inv_l in Hp2 as (es'' & Ep3 & Hn' & Hnil & ->).
        apply Forall2_nil_inv_l in Hnil as ->.
        assert (length Ep = length Ep1) as Hlen.
        { rewrite <- (Forall2_length _ _ _ Hp), <- (Forall2_length _ _ _ Hp1). done. }
        apply app_inj_1 in Heq as [<- [= <-]]; [|done].
        exists (n' :: gr1'), s', (es' :: Er1').
        split; [rewrite Hrun; by rewrite <- app_assoc|].
        split; [by rewrite !fmap_cons, Hids|].
        split; [done|]. split; [by constructor|].
        split.
        { eapply ids_ok_perm; [|exact Hok']. rewrite edge_ids_of_app, edge_ids_of_singleton.
          rewrite edge_ids_of_cons. by rewrite <- !app_assoc. }
        split; [lia|].
        constructor; [done|].
        eapply Forall3_impl; [exact Hall|]. intros m x y Hc. simpl in Hc.
        replace (node_id <$> gp ++ n :: gr1) with (node_id <$> (gp ++ [n']) ++ gr1); [done|].
        rewrite <- app_assoc, !fmap_app, !fmap_cons. done.
Qed.

Lemma complement_graph_spec (graph : graph_t) (s : state) E :
  graph_holds s graph E ->
  edge_ids_ok s (edge_ids_of E) ->
  global_edge_id s + Z.of_nat (length graph) * Z.of_nat (length graph) < id_modulus ->
  exists graph' s' E',
    complement_graph graph s = Some (graph', s')
    /\ node_id <$> graph' = node_id <$> graph
    /\ graph_holds s' graph' E'
    /\ edge_ids_ok s' (edge_ids_of E')
    /\ global_edge_id s <= global_edge_id s'
       <= global_edge_id s + Z.of_nat (length graph) * Z.of_nat (length graph)
    /\ Forall3 (fun n es es' => complemented (node_id <$> graph) (node_id n) es es')
         graph E E'.
Proof.
  intros HE Hok Hroom.
  destruct (complement_loop_spec graph [] s [] E)
    as (g' & s' & E' & Hrun & Hids & _ & HE' & Hok' & Hg' & Hall);
    [constructor|done|done|done|].
  exists g', s', E'. done.
Qed.

(** *** The adjacency matrix of a well-formed graph *)

Lemma matrix_row_spec fuel h (p : ptr) es (cols : graph_t) :
  holds h p es -> (length es < fuel)%nat ->
  matrix_row fuel h p cols
  = Some ((fun c => if adj es c then 1 else 0) <$> (node_id <$> cols)).
Proof.
  intros (l & Hc & <-) Hf. rewrite length_fmap in Hf.
  induction cols as [|c cols IH]; simpl; [done|].
  rewrite (has_edge_to_lseg _ _ _ _ _ Hc Hf). by rewrite IH.
Qed.

Lemma matrix_rows_spec fuel h (rows cols : graph_t) E :
  Forall2 (fun n es => holds h (node_edges n) es /\ (length es < fuel)%nat) rows E ->
  matrix_rows fuel h rows cols = Some (adjacency (node_id <$> cols) E).
Proof.
  unfold adjacency. induction 1 as [|n es rows E [Hn Hf] _ IH]; simpl; [done|].
  rewrite (matrix_row_spec _ _ _ _ _ Hn Hf). by rewrite IH.
Qed.

Lemma create_graph_matrix_spec (graph : graph_t) (s : state) E :
  graph_holds s graph E ->
  create_graph_matrix graph s
  = Some (match graph with
          | [] => None
          | _ :: _ => Some (adjacency (node_id <$> graph) E)
          end, s).
Proof.
  intros HE. destruct graph as [|n graph]; [done|].
  unfold create_graph_matrix. unfold_monad.
  rewrite (matrix_rows_spec _ _ _ _ E); [done|].
  eapply Forall2_impl; [exact HE|]. intros m es Hm. split; [done|].
  destruct (holds_fuel _ _ _ Hm) as (l & _ & <- & Hf). by rewrite length_fmap.
Qed.

Lemma adj_from_sources nid es c :
  (forall e, e ∈ es -> endpoint_0 e = nid) -> adj_from nid es c = adj es c.
Proof.
  intros Hsrc. apply eq_true_iff_eq. rewrite adj_true, adj_from_true. split.
  - intros (e & He & _ & H1). by exists e.
  - intros (e & He & H1). exists e. split; [done|]. split; [by apply Hsrc|done].
Qed.



(** ** Sequences of creations and deletions *)

Lemma node_index_split (graph : graph_t) (i : Z) (k : nat) :
  node_index graph i = Some k ->
  exists g1 n g2, graph = g1 ++ n :: g2 /\ length g1 = k /\ node_id n = i
                  /\ graph !! k = Some n.
Proof.
  intros Hk. destruct (node_index_Some _ _ _ Hk) as (n & Hn & Hid & _).
  exists (take k graph), n, (drop (S k) graph).
  split; [by rewrite take_drop_middle|]. split; [|done].
  apply length_take_le. apply lookup_lt_Some in Hn. lia.
Qed.

Lemma graph_cells_frame (s s' : state) graph C :
  graph_cells s graph C ->
  (forall a, a ∈ (concat C).*1 -> heap s' !! a = heap s !! a) ->
  graph_cells s' graph C.
Proof.
  unfold graph_cells. induction 1 as [|n l g C Hn _ IH]; intros Hsame; [constructor|].
  simpl in Hsame. rewrite fmap_app in Hsame. constructor.
  - eapply lseg_frame; [exact Hn|]. intros a Ha. apply Hsame, elem_of_app. by left.
  - apply IH. intros a Ha. apply Hsame, elem_of_app. by right.
Qed.

Lemma graph_cells_lt (s : state) graph C a :
  graph_cells s graph C -> a ∈ (concat C).*1 -> (a < length (heap s))%nat.
Proof.
  unfold graph_cells. induction 1 as [|n l g C Hn _ IH]; simpl.
  - by intros H%elem_of_nil.
  - rewrite fmap_app. intros [Ha|Ha]%elem_of_app; [by eapply lseg_lt|by apply IH].
Qed.


Lemma graph_cells_holds (s : state) graph C :
  graph_cells s graph C -> graph_holds s graph ((fun l => l.*2) <$> C).
Proof.
  unfold graph_cells, graph_holds. induction 1 as [|n l g C Hn _ IH]; [constructor|].
  rewrite fmap_cons. constructor; [by exists l|done].
Qed.










(** *** Exhausting a counter *)



(** ** Union and series composition *)

Lemma fold_append_node (graph acc : graph_t) :
  fold_left append_node graph acc = acc ++ graph.
Proof.
  revert acc. induction graph as [|n graph IH]; intros acc; simpl.
  - by rewrite app_nil_r.
  - rewrite IH. unfold append_node. by rewrite <- app_assoc.
Qed.

(** The union is the concatenation of the two lists of node structs:
    the nodes keep their identifiers and their [edges] pointers. *)
Lemma disjoint_graph_union_app (graph1 graph2 : graph_t) :
  disjoint_graph_union graph1 graph2 = graph1 ++ graph2.
Proof. unfold disjoint_graph_union. by rewrite !fold_append_node. Qed.

(** When both terminals own at least one edge, the two bridging edges
    are appended in place to their lists, which the node structs of
    the union share: the union then carries both new edges, and no
    other cell of the heap is written. *)
Lemma series_graph_composition_nonempty
    (graph1 graph2 : graph_t) (source_id sink_id : Z) (s : state)
    (li ri : nat) (left_node right_node : graph_node_t) cl cr :
  node_index graph1 source_id = Some li ->
  graph1 !! li = Some left_node ->
  node_index graph2 sink_id = Some ri ->
  graph2 !! ri = Some right_node ->
  chain (heap s) (node_edges left_node) cl ->
  chain (heap s) (node_edges right_node) cr ->
  cl <> [] -> cr <> [] ->
  NoDup (cl ++ cr).*1 ->
  exists r s' i1 i2,
    series_graph_composition graph1 graph2 source_id sink_id s = Some (r, s')
    /\ series_union r = graph1 ++ graph2
    /\ series_graph1 r = graph1
    /\ series_graph2 r = graph2
    /\ holds (heap s') (node_edges left_node)
         (cl.*2 ++ [mk_edge SERIES_EDGE_DEFAULT_WEIGHT i1 SERIES_EDGE_DEFAULT_LABEL
                      (node_id left_node) (node_id right_node)])
    /\ holds (heap s') (node_edges right_node)
         (cr.*2 ++ [mk_edge SERIES_EDGE_DEFAULT_WEIGHT i2 SERIES_EDGE_DEFAULT_LABEL
                      (node_id right_node) (node_id left_node)])
    /\ (forall b, (b < length (heap s))%nat -> b ∉ (cl ++ cr).*1 ->
                  heap s' !! b = heap s !! b).
Proof.
  intros Hli Hl Hri Hr Hcl Hcr Hnel Hner Hnd.
  unfold series_graph_composition, get_node_from_id. rewrite Hli, Hri.
  unfold_monad. rewrite Hl, Hr.
  destruct (create_new_edge SERIES_EDGE_DEFAULT_WEIGHT SERIES_EDGE_DEFAULT_LABEL
              (node_id left_node) (node_id right_node) s) as [[e1 s1]|] eqn:He1.
  2:{ unfold create_new_edge in He1. destruct (revoked_edge_ids s); done. }
  assert (heap s1 = heap s /\ exists i1, e1 = mk_edge SERIES_EDGE_DEFAULT_WEIGHT i1
            SERIES_EDGE_DEFAULT_LABEL (node_id left_node) (node_id right_node))
    as [Hh1 [i1 ->]].
  { unfold create_new_edge in He1. destruct (revoked_edge_ids s); simpl in He1;
      injection He1 as <- <-; (split; [done|]); eexists; reflexivity. }
  rewrite fmap_app in Hnd. apply NoDup_app in Hnd as (Hndl & Hdisj & Hndr).
  assert (chain (heap s1) (node_edges left_node) cl) as Hcl1 by by rewrite Hh1.
  destruct (append_edge_spec s1 _ _ (mk_edge SERIES_EDGE_DEFAULT_WEIGHT i1
              SERIES_EDGE_DEFAULT_LABEL (node_id left_node) (node_id right_node)) Hcl1)
    as (p & h2 & Happ & Hcl2 & Hlen2 & Hsame & Hfr2).
  rewrite Happ.
  assert (p = node_edges left_node) as ->.
  { apply Hsame. intros Hnone. rewrite Hnone in Hcl. destruct cl as [|[? ?] ?]; [done|].
    by destruct Hcl. }
  destruct (create_new_edge SERIES_EDGE_DEFAULT_WEIGHT SERIES_EDGE_DEFAULT_LABEL
              (node_id right_node) (node_id left_node) (set_heap h2 s1)) as [[e2 s3]|] eqn:He2.
  2:{ unfold create_new_edge in He2. destruct (revoked_edge_ids (set_heap h2 s1)); done. }
  assert (heap s3 = h2 /\ exists i2, e2 = mk_edge SERIES_EDGE_DEFAULT_WEIGHT i2
            SERIES_EDGE_DEFAULT_LABEL (node_id right_node) (node_id left_node))
    as [Hh3 [i2 ->]].
  { unfold create_new_edge in He2. destruct (revoked_edge_ids (set_heap h2 s1)); simpl in He2;
      injection He2 as <- <-; (split; [done|]); eexists; reflexivity. }
  assert (chain (heap s3) (node_edges right_node) cr) as Hcr3.
  { rewrite Hh3. eapply lseg_frame; [exact Hcr|]. intros b Hb.
    rewrite Hfr2; [by rewrite Hh1| |].
    - intros Hin. by apply (Hdisj b Hin).
    - rewrite Hh1. by eapply lseg_lt. }
  destruct (append_edge_spec s3 _ _ (mk_edge SERIES_EDGE_DEFAULT_WEIGHT i2
              SERIES_EDGE_DEFAULT_LABEL (node_id right_node) (node_id left_node)) Hcr3)
    as (p' & h4 & Happ' & Hcr4 & Hlen4 & Hsame' & Hfr4).
  rewrite Happ'.
  assert (p' = node_edges right_node) as ->.
  { apply Hsame'. intros Hnone. rewrite Hnone in Hcr. destruct cr as [|[? ?] ?]; [done|].
    by destruct Hcr. }
  eexists _, _, i1, i2. split; [reflexivity|]. simpl.
  split; [apply disjoint_graph_union_app|].
  split; [apply list_insert_id; rewrite Hl; by destruct left_node|].
  split; [apply list_insert_id; rewrite Hr; by destruct right_node|].
  split; [|split].
  - eexists. split.
    { eapply lseg_frame; [exact Hcl2|]. intros b Hb. rewrite <- Hh3. apply Hfr4.
      + rewrite fmap_app in Hb. apply elem_of_app in Hb as [Hb|Hb].
        * intros Hin. by apply (Hdisj b Hb).
        * apply list_elem_of_singleton in Hb. simpl in Hb. subst b.
          intros Hin. pose proof (lseg_lt _ _ _ _ _ Hcr Hin). rewrite Hh1 in *. lia.
      + rewrite Hh3. eapply lseg_lt; [exact Hcl2|done]. }
    by rewrite fmap_app.
  - eexists. split; [exact Hcr4|by rewrite fmap_app].
  - intros b Hb Hnot. rewrite fmap_app, elem_of_app in Hnot.
    rewrite Hfr4; [|tauto|rewrite Hh3, Hlen2, Hh1; lia].
    rewrite Hh3, Hfr2; [by rewrite Hh1|tauto|by rewrite Hh1].
Qed.

(** * The claims *)

(** ** Composition with an unknown terminal *)

(** C2. When one of the identifiers given to [parallel_graph_composition]
    (all four) or to [series_graph_composition] (the source in [graph1],
    the sink in [graph2]) is not the identifier of a node of its graph,
    the function returns [NULL], and neither the globals, the heap of
    edge cells nor the cells of the two argument lists are written. *)
Theorem composition_rejects_unknown_ids
    (graph1 graph2 : graph_t) (source_1 sink_1 source_2 sink_2 : Z) (s : state) :
  (source_1 ∉ node_id <$> graph1 \/ sink_1 ∉ node_id <$> graph1
   \/ source_2 ∉ node_id <$> graph2 \/ sink_2 ∉ node_id <$> graph2 ->
   parallel_graph_composition graph1 graph2 source_1 sink_1 source_2 sink_2 s
   = Some ([], s))
  /\ (source_1 ∉ node_id <$> graph1 \/ sink_2 ∉ node_id <$> graph2 ->
      series_graph_composition graph1 graph2 source_1 sink_2 s
      = Some (mk_series_result [] graph1 graph2, s)).
Proof.
  split.
  - intros H. unfold parallel_graph_composition, find_node.
    destruct H as [H|[H|[H|H]]]; apply node_index_None in H; rewrite H;
      repeat (match goal with |- context [node_index ?g ?i] =>
                        destruct (node_index g i) end); reflexivity.
  - intros H. unfold series_graph_composition, get_node_from_id.
    destruct H as [H|H]; apply node_index_None in H; rewrite H;
      repeat (match goal with |- context [node_index ?g ?i] =>
                        destruct (node_index g i) end); reflexivity.
Qed.

Lemma composition_rejects_unknown_ids_witness :
  let s := mk_state 3 [] 2 [] [mk_cell (mk_edge 5 1 "e" 1 1) None] in
  let graph1 := [mk_node 1 "a" (Some 0%nat)] in
  let graph2 := [mk_node 2 "b" None] in
  parallel_graph_composition graph1 graph2 1 1 2 7 s = Some ([], s)
  /\ series_graph_composition graph1 graph2 7 2 s
     = Some (mk_series_result [] graph1 graph2, s).
Proof.
  intros s graph1 graph2. split.
  - apply (proj1 (composition_rejects_unknown_ids graph1 graph2 1 1 2 7 s)).
    right. right. right. vm_compute. intros H.
    apply elem_of_cons in H as [H|H]; [discriminate|]. by apply elem_of_nil in H.
  - apply (proj2 (composition_rejects_unknown_ids graph1 graph2 7 1 2 2 s)).
    left. vm_compute. intros H.
    apply elem_of_cons in H as [H|H]; [discriminate|]. by apply elem_of_nil in H.
Defined.

(** ** Identifiers in use *)

(** C3. In the state the program starts in no identifier has been
    issued: both counters still hold 1, the first value they will hand
    out, and both pools are empty.  [exists_node_from_id] and
    [exists_edge_from_id] nevertheless report the identifier 1 (and the
    sentinel [ERROR_ID]) as in use: the comparison admits the counter's
    own value, one above the highest identifier issued. *)
Theorem exists_from_id_accepts_unissued_id :
  global_node_id initial_state = 1 /\ revoked_node_ids initial_state = []
  /\ global_edge_id initial_state = 1 /\ revoked_edge_ids initial_state = []
  /\ exists_node_from_id 1 initial_state = true
  /\ exists_edge_from_id 1 initial_state = true
  /\ exists_node_from_id ERROR_ID initial_state = true
  /\ exists_edge_from_id ERROR_ID initial_state = true.
Proof. repeat split. Qed.

(** What the two functions decide, in every state: the bound is the
    counter itself, that is the next identifier to be minted. *)
Lemma exists_from_id_characterisation (i : Z) (s : state) :
  (exists_node_from_id i s = true <-> i <= global_node_id s /\ i ∉ revoked_node_ids s)
  /\ (exists_edge_from_id i s = true <-> i <= global_edge_id s /\ i ∉ revoked_edge_ids s).
Proof. split; [apply exists_node_from_id_true | apply exists_edge_from_id_true]. Qed.

(** After a node has been created from an empty pool, the identifier
    one above the one just issued counts as in use. *)
Lemma exists_node_from_id_above_issued (label : string) (s : state) :
  revoked_node_ids s = [] ->
  0 <= global_node_id s -> global_node_id s + 1 < id_modulus ->
  exists n s',
    create_new_node label s = Some (n, s')
    /\ exists_node_from_id (node_id n + 1) s' = true.
Proof.
  intros Hpool H0 Hroom. rewrite (create_new_node_mints _ _ Hpool).
  eexists _, _. split; [reflexivity|]. simpl.
  apply exists_node_from_id_true. simpl. rewrite Hpool.
  rewrite Z.mod_small by lia. split; [lia|]. apply not_elem_of_nil.
Qed.

(** ** Pushing on an empty collection *)

(** C9. [push_node] on the empty graph and [push_edge] on the empty edge
    list return the empty collection and change nothing; on a non-empty
    collection the element becomes the new first element. *)
Theorem push_on_empty_collection :
  (forall node, push_node [] node = [])
  /\ (forall e s, push_edge None e s = Some (None, s))
  /\ (forall n graph node, push_node (n :: graph) node = node :: n :: graph)
  /\ (forall a e s,
        push_edge (Some a) e s
        = Some (Some (length (heap s)), set_heap (heap s ++ [mk_cell e (Some a)]) s)).
Proof. repeat split. Qed.

(** On a well-formed list, [push_edge] puts the edge in front. *)
Lemma push_edge_holds (a : nat) (e : graph_edge_t) (s : state) (es : list graph_edge_t) :
  holds (heap s) (Some a) es ->
  exists p s', push_edge (Some a) e s = Some (p, s') /\ holds (heap s') p (e :: es).
Proof.
  intros (l & Hc & Hes). eexists _, _. split; [reflexivity|]. simpl.
  exists ((length (heap s), e) :: l). split; [|by rewrite fmap_cons, Hes].
  split; [done|]. exists (Some a). split.
  - rewrite lookup_app_r by lia. by rewrite Nat.sub_diag.
  - by apply lseg_grow.
Qed.

(** ** Allocation policy *)



(** ** What [delete_node] recycles *)

(** C10. Deleting a node that owns edges puts the node's identifier at
    the end of the node pool and changes nothing else: the edge pool,
    both counters and the heap stay as they are, so none of the node's
    edge identifiers is recycled.  [delete_graph], in contrast, revokes
    every node identifier and every edge identifier of the graph. *)
Theorem delete_node_recycles_only_the_node_id
    (graph : graph_t) (i : Z) (k : nat) (n : graph_node_t)
    (e : graph_edge_t) (es : list graph_edge_t) (s : state) :
  node_index graph i = Some k ->
  graph !! k = Some n ->
  holds (heap s) (node_edges n) (e :: es) ->
  (exists s',
      delete_node graph i s = Some (delete k graph, s')
      /\ revoked_node_ids s' = revoked_node_ids s ++ [i]
      /\ revoked_edge_ids s' = revoked_edge_ids s
      /\ global_node_id s' = global_node_id s
      /\ global_edge_id s' = global_edge_id s
      /\ heap s' = heap s)
  /\ (forall E, graph_holds s graph E ->
      exists s',
        delete_graph graph s = Some ([], s')
        /\ revoked_node_ids s' = revoked_node_ids s ++ (node_id <$> graph)
        /\ revoked_edge_ids s' = revoked_edge_ids s ++ edge_ids_of E
        /\ edge_id e ∈ revoked_edge_ids s').
Proof.
  intros Hk Hn Hes. split.
  - rewrite (delete_node_found _ _ _ _ Hk). eexists. split; [reflexivity|]. done.
  - intros E HE. rewrite (delete_graph_spec _ _ _ HE). eexists. split; [reflexivity|].
    simpl. split; [done|]. split; [done|].
    apply elem_of_app. right. unfold edge_ids_of.
    apply list_elem_of_fmap. exists e. split; [done|].
    apply elem_of_concat. exists (e :: es). split; [left|].
    unfold graph_holds in HE.
    destruct (Forall2_lookup_l _ _ _ _ _ HE Hn) as (es' & HEk & Hes').
    destruct Hes as (l1 & Hc1 & H1). destruct Hes' as (l2 & Hc2 & H2).
    rewrite (chain_func _ _ _ _ Hc1 Hc2) in H1. rewrite H1 in H2. subst es'.
    by eapply list_elem_of_lookup_2.
Qed.

Lemma delete_node_recycles_only_the_node_id_witness :
  let s := mk_state 3 [] 2 [] [mk_cell (mk_edge 5 1 "x" 1 2) None] in
  let graph := [mk_node 1 "a" (Some 0%nat); mk_node 2 "b" None] in
  (exists s',
      delete_node graph 1 s = Some ([mk_node 2 "b" None], s')
      /\ revoked_node_ids s' = [1]
      /\ revoked_edge_ids s' = []
      /\ global_node_id s' = 3
      /\ global_edge_id s' = 2
      /\ heap s' = heap s)
  /\ (exists s',
      delete_graph graph s = Some ([], s')
      /\ revoked_node_ids s' = [1; 2]
      /\ revoked_edge_ids s' = [1]
      /\ 1 ∈ revoked_edge_ids s').
Proof.
  intros s graph.
  assert (holds (heap s) (Some 0%nat) [mk_edge 5 1 "x" 1 2]) as Hholds.
  { exists [(0%nat, mk_edge 5 1 "x" 1 2)]. split; [|reflexivity].
    split; [done|]. eexists. split; [reflexivity|]. done. }
  destruct (delete_node_recycles_only_the_node_id graph 1 0 (mk_node 1 "a" (Some 0%nat))
              (mk_edge 5 1 "x" 1 2) [] s eq_refl eq_refl Hholds) as [H1 H2].
  split; [exact H1|].
  apply (H2 [[mk_edge 5 1 "x" 1 2]; []]).
  constructor; [exact Hholds|]. constructor; [|constructor].
  exists []. split; done.
Defined.

(** ** Vertex contraction *)

(** C1. A graph of three nodes: B (identifier 1, no edge), A (identifier
    2, one edge to C) and C (identifier 3).  Contracting A into B
    leaves B without any edge: the donor's edges are appended to the
    list the local variable [ptr2] points to, and since B's own list
    was empty that list is a new one, which is never stored in B's
    [edges] field.  The edge A had is lost instead of becoming an edge
    from B to C. *)
Theorem vertex_contraction_drops_donor_edges :
  let s := mk_state 4 [] 2 [] [mk_cell (mk_edge 7 1 "a_c" 2 3) None] in
  let B := mk_node 1 "B" None in
  let A := mk_node 2 "A" (Some 0%nat) in
  let C := mk_node 3 "C" None in
  edges_of s B = Some []
  /\ edges_of s A = Some [mk_edge 7 1 "a_c" 2 3]
  /\ exists s',
      vertex_contraction [B; A; C] 1 2 s = Some ([B; C], s')
      /\ edges_of s' B = Some []
      /\ edges_of s' C = Some []
      /\ revoked_node_ids s' = [2].
Proof.
  intros s B A C. split; [reflexivity|]. split; [reflexivity|].
  eexists. split; [vm_compute; reflexivity|]. repeat split.
Qed.

(** Where the survivor owns an edge the contraction does what its
    comment says.  B (1) has edges to A and to C, A (2) has edges to
    C, to itself and to B, C (3) has an edge to A: the two mutual edges
    are deleted and their identifiers revoked, A's other edges follow
    B's in B's list with B as their source, the self-loop of A becomes
    a self-loop of B, and the edge of C points to B. *)
Example vertex_contraction_with_edges_on_the_survivor :
  let s := mk_state 4 [] 7 []
             [mk_cell (mk_edge 7 1 "b_a" 1 2) (Some 1%nat);
              mk_cell (mk_edge 7 2 "b_c" 1 3) None;
              mk_cell (mk_edge 8 3 "a_c" 2 3) (Some 3%nat);
              mk_cell (mk_edge 8 4 "a_a" 2 2) (Some 4%nat);
              mk_cell (mk_edge 8 5 "a_b" 2 1) None;
              mk_cell (mk_edge 1 6 "c_a" 3 2) None] in
  let graph := [mk_node 1 "B" (Some 0%nat); mk_node 2 "A" (Some 2%nat);
                mk_node 3 "C" (Some 5%nat)] in
  exists graph' s',
    vertex_contraction graph 1 2 s = Some (graph', s')
    /\ node_id <$> graph' = [1; 3]
    /\ live_edges s' graph'
       = Some [mk_edge 7 2 "b_c" 1 3; mk_edge 8 3 "a_c" 1 3; mk_edge 8 4 "a_a" 1 1;
               mk_edge 1 6 "c_a" 3 1]
    /\ revoked_edge_ids s' = [1; 5]
    /\ revoked_node_ids s' = [2].
Proof.
  intros s graph. eexists _, _. split; [vm_compute; reflexivity|]. repeat split.
Qed.

(** The example of the specification: A (1) has the edge "edge1" of
    weight 3 to B (2), B has no edge; contracting A into B leaves the
    node B without edges. *)
Example vertex_contraction_of_the_two_node_graph :
  let s := mk_state 3 [] 2 [] [mk_cell (mk_edge 3 1 "edge1" 1 2) None] in
  let graph := [mk_node 1 "A" (Some 0%nat); mk_node 2 "B" None] in
  exists s',
    vertex_contraction graph 2 1 s = Some ([mk_node 2 "B" None], s')
    /\ live_edges s' [mk_node 2 "B" None] = Some []
    /\ revoked_edge_ids s' = [1]
    /\ revoked_node_ids s' = [1].
Proof.
  intros s graph. eexists. split; [vm_compute; reflexivity|]. repeat split.
Qed.

(** ** Cartesian product *)

(** C6. [graph1] has the nodes a and b and the edge from a to b,
    [graph2] the single node c.  The product has two nodes and should
    have [2 * 0 + 1 * 1 = 1] edge; it has none.  The edge between the
    two layers is appended to the list of a cell of the copy kept in
    [layers], whose [edges] field was [NULL]; the node struct stored in
    the result by [append_node] still has [NULL] there. *)
Theorem cartesian_product_drops_cross_edges :
  let s := mk_state 4 [] 2 [] [mk_cell (mk_edge 7 1 "a_b" 1 2) None] in
  let graph1 := [mk_node 1 "a" (Some 0%nat); mk_node 2 "b" None] in
  let graph2 := [mk_node 3 "c" None] in
  graph_dim graph1 = 2%nat /\ graph_edge_count s graph1 = Some 1%nat
  /\ graph_dim graph2 = 1%nat /\ graph_edge_count s graph2 = Some 0%nat
  /\ exists cartesian s',
      cartesian_graph_product graph1 graph2 s = Some (cartesian, s')
      /\ graph_dim cartesian = 2%nat
      /\ graph_edge_count s' cartesian = Some 0%nat.
Proof.
  intros s graph1 graph2. repeat (split; [reflexivity|]).
  eexists _, _. split; [vm_compute; reflexivity|]. split; reflexivity.
Qed.

(** The same loss with a second graph that has an edge: [graph2] is
    c -> d.  The product has its four nodes, but three edges instead
    of [2 * 1 + 1 * 2 = 4]: the edge between the two copies of the
    sink d is missing. *)
Example cartesian_product_drops_edges_of_sinks :
  let s := mk_state 5 [] 3 []
             [mk_cell (mk_edge 7 1 "a_b" 1 2) None; mk_cell (mk_edge 8 2 "c_d" 3 4) None] in
  let graph1 := [mk_node 1 "a" (Some 0%nat); mk_node 2 "b" None] in
  let graph2 := [mk_node 3 "c" (Some 1%nat); mk_node 4 "d" None] in
  exists cartesian s',
    cartesian_graph_product graph1 graph2 s = Some (cartesian, s')
    /\ graph_dim cartesian = 4%nat
    /\ graph_edge_count s' cartesian = Some 3%nat.
Proof.
  intros s graph1 graph2.
  eexists _, _. split; [vm_compute; reflexivity|]. split; reflexivity.
Qed.

(** When every node of [graph2] owns an edge nothing is lost: for
    a -> b and c <-> d the product has its four nodes and
    [2 * 2 + 1 * 2 = 6] edges. *)
Example cartesian_product_without_sinks :
  let s := mk_state 5 [] 4 []
             [mk_cell (mk_edge 7 1 "a_b" 1 2) None;
              mk_cell (mk_edge 8 2 "c_d" 3 4) None;
              mk_cell (mk_edge 9 3 "d_c" 4 3) None] in
  let graph1 := [mk_node 1 "a" (Some 0%nat); mk_node 2 "b" None] in
  let graph2 := [mk_node 3 "c" (Some 1%nat); mk_node 4 "d" (Some 2%nat)] in
  exists cartesian s',
    cartesian_graph_product graph1 graph2 s = Some (cartesian, s')
    /\ graph_dim cartesian = 4%nat
    /\ graph_edge_count s' cartesian = Some 6%nat.
Proof.
  intros s graph1 graph2.
  eexists _, _. split; [vm_compute; reflexivity|]. split; reflexivity.
Qed.

(** ** Series composition *)

(** C7. [graph1] is the single node L (identifier 1), [graph2] the
    single node R (identifier 2), neither with an edge.  The function
    returns the two nodes without any edge: both bridging edges are
    created (the edge counter advances by two) and appended to the
    lists of the cells of [graph1] and [graph2], after the union had
    copied the node structs with their [NULL] edge pointers. *)
Theorem series_composition_drops_bridge_edges :
  let s := mk_state 3 [] 1 [] [] in
  let L := mk_node 1 "L" None in
  let R := mk_node 2 "R" None in
  exists r s',
    series_graph_composition [L] [R] 1 2 s = Some (r, s')
    /\ series_union r = [L; R]
    /\ graph_edge_count s' (series_union r) = Some 0%nat
    /\ graph_edge_count s' (series_graph1 r) = Some 1%nat
    /\ graph_edge_count s' (series_graph2 r) = Some 1%nat
    /\ global_edge_id s' = 3.
Proof.
  intros s L R. eexists _, _. split; [vm_compute; reflexivity|]. repeat split.
Qed.

(** ** Complement *)




(** ** Uniqueness of identifiers *)



(** * Further properties of the library *)

(** ** Reading concrete heaps *)

(** What [edge_list] reads is a well-formed list. *)
Lemma edge_list_sound fuel h p es :
  edge_list fuel h p = Some es -> holds h p es.
Proof.
  revert p es. induction fuel as [|fuel IH]; intros [a|] es H; simpl in H.
  - done.
  - injection H as <-. by exists [].
  - destruct (h !! a) as [[e n]|] eqn:Ha; [|done]. simpl in H.
    destruct (edge_list fuel h n) as [l|] eqn:Hl; [|done]. injection H as <-.
    destruct (IH _ _ Hl) as (c & Hc & <-).
    exists ((a, e) :: c). split; [|done]. split; [done|]. by exists n.
  - injection H as <-. by exists [].
Qed.

Ltac concrete_holds := apply (edge_list_sound 64); vm_compute; reflexivity.
Ltac concrete_graph_holds :=
  repeat first [ apply Forall2_nil_2 | apply Forall2_cons_2; [concrete_holds|] ].

(** ** The adjacency matrix *)

Lemma adjacency_length ids E :
  length (adjacency ids E) = (length E * length ids)%nat.
Proof.
  unfold adjacency. induction E as [|es E IH]; [done|].
  rewrite fmap_cons. simpl. rewrite length_app, IH, length_fmap. lia.
Qed.

Lemma adjacency_lookup ids E i j es c :
  E !! i = Some es -> ids !! j = Some c ->
  adjacency ids E !! (j + i * length ids)%nat = Some (if adj es c then 1 else 0).
Proof.
  unfold adjacency. revert i. induction E as [|es0 E IH]; intros i Hi Hj; [done|].
  rewrite fmap_cons. simpl. destruct i as [|i]; simpl in Hi.
  - injection Hi as ->. rewrite Nat.add_0_r.
    rewrite lookup_app_l by (rewrite length_fmap; by eapply lookup_lt_Some).
    by rewrite list_lookup_fmap, Hj.
  - rewrite lookup_app_r by (rewrite length_fmap; lia).
    rewrite length_fmap.
    replace (j + S i * length ids - length ids)%nat with (j + i * length ids)%nat by lia.
    by apply IH.
Qed.

(** X1. [create_graph_matrix] returns [NULL] for the empty graph; for a
    graph of [n] nodes with well-formed edge lists it returns [n * n]
    cells and leaves the state alone, and the cell at offset
    [j + i * n] is 1 exactly when the list of the [i]-th node holds an
    edge whose destination [endpoint_ids[1]] is the identifier of the
    [j]-th node.  The source of the edge is not looked at. *)
Theorem create_graph_matrix_cells (graph : graph_t) (s : state) (E : list (list graph_edge_t)) :
  graph_holds s graph E ->
  create_graph_matrix [] s = Some (None, s)
  /\ (graph <> [] ->
      exists m,
        create_graph_matrix graph s = Some (Some m, s)
        /\ length m = (graph_dim graph * graph_dim graph)%nat
        /\ forall i j es c,
             E !! i = Some es -> graph !! j = Some c ->
             m !! (j + i * graph_dim graph)%nat
             = Some (if adj es (node_id c) then 1 else 0)).
Proof.
  intros HE. split; [done|]. intros Hne.
  exists (adjacency (node_id <$> graph) E).
  rewrite (create_graph_matrix_spec _ _ _ HE).
  destruct graph as [|n graph]; [done|]. split; [done|].
  unfold graph_dim. split.
  - rewrite adjacency_length, length_fmap. by rewrite <- (Forall2_length _ _ _ HE).
  - intros i j es c Hi Hj.
    rewrite <- (length_fmap node_id (n :: graph)). apply adjacency_lookup; [done|].
    by rewrite list_lookup_fmap, Hj.
Qed.

Lemma create_graph_matrix_cells_witness :
  let s := mk_state 3 [] 2 [] [mk_cell (mk_edge 7 1 "a_b" 1 2) None] in
  let graph := [mk_node 1 "a" (Some 0%nat); mk_node 2 "b" None] in
  exists m,
    create_graph_matrix graph s = Some (Some m, s)
    /\ length m = (graph_dim graph * graph_dim graph)%nat
    /\ forall i j es c,
         [[mk_edge 7 1 "a_b" 1 2]; []] !! i = Some es -> graph !! j = Some c ->
         m !! (j + i * graph_dim graph)%nat
         = Some (if adj es (node_id c) then 1 else 0).
Proof.
  intros s graph.
  apply (create_graph_matrix_cells graph s [[mk_edge 7 1 "a_b" 1 2]; []]).
  - concrete_graph_holds.
  - discriminate.
Defined.

(** The matrix of a complemented graph. *)
Lemma adjacency_complemented (graph : graph_t) E E1 :
  sources_ok graph E ->
  Forall3 (fun n es es' => complemented (node_id <$> graph) (node_id n) es es') graph E E1 ->
  adjacency (node_id <$> graph) E1 = (fun x => 1 - x) <$> adjacency (node_id <$> graph) E.
Proof.
  unfold adjacency, sources_ok. generalize (node_id <$> graph) as ids. intros ids Hsrc H1.
  induction H1 as [|n es es1 g E E1 [Hs1 Hc1] _ IH]; [done|].
  apply Forall2_cons_1 in Hsrc as [Hsn Hsrc].
  rewrite !fmap_cons. simpl. rewrite fmap_app. f_equal; [|by apply IH].
  rewrite <- list_fmap_compose. apply list_fmap_ext. intros k c Hk.
  apply list_elem_of_lookup_2 in Hk. simpl.
  rewrite (Hc1 c Hk), (adj_from_sources _ _ _ Hsn). by destruct (adj es c).
Qed.

(** X2. [complement_graph] negates the adjacency matrix cell by cell,
    the diagonal included: where a node had no edge to a node
    (itself included) it has one afterwards, and the other way round.
    The graph keeps its node identifiers.  The lists must be well
    formed, every edge must name its owner as its source, the edge
    allocator must agree with the edges of the graph and the edge
    counter must have room for the [n * n] template edges. *)
Theorem complement_graph_negates_matrix
    (graph : graph_t) (s : state) (E : list (list graph_edge_t)) :
  graph_holds s graph E ->
  sources_ok graph E ->
  edge_ids_ok s (edge_ids_of E) ->
  global_edge_id s + Z.of_nat (length graph) * Z.of_nat (length graph) < id_modulus ->
  exists (graph1 : graph_t) (s1 : state) (m : option (list Z)),
    complement_graph graph s = Some (graph1, s1)
    /\ node_id <$> graph1 = node_id <$> graph
    /\ create_graph_matrix graph s = Some (m, s)
    /\ create_graph_matrix graph1 s1
       = Some (fmap (M:=list) (fun x : Z => 1 - x) <$> m, s1).
Proof.
  intros HE Hsrc Hids Hroom.
  destruct (complement_graph_spec _ _ _ HE Hids Hroom)
    as (graph1 & s1 & E1 & Hrun & Hnid & HE1 & _ & _ & Hcompl).
  eexists graph1, s1, _. split; [done|]. split; [done|].
  rewrite (create_graph_matrix_spec _ _ _ HE), (create_graph_matrix_spec _ _ _ HE1).
  split; [reflexivity|].
  assert (length graph1 = length graph) as Hlen
    by (rewrite <- (length_fmap node_id graph1), Hnid; apply length_fmap).
  assert (adjacency (node_id <$> graph1) E1
          = (fun x => 1 - x) <$> adjacency (node_id <$> graph) E) as Hadj
    by (rewrite Hnid; by apply adjacency_complemented).
  destruct graph as [|n graph], graph1 as [|n1 graph1]; try done.
  by rewrite Hadj.
Qed.

Lemma complement_graph_negates_matrix_witness :
  let s := mk_state 3 [] 2 [] [mk_cell (mk_edge 7 1 "a_b" 1 2) None] in
  let graph := [mk_node 1 "a" (Some 0%nat); mk_node 2 "b" None] in
  exists (graph1 : graph_t) (s1 : state) (m : option (list Z)),
    complement_graph graph s = Some (graph1, s1)
    /\ node_id <$> graph1 = node_id <$> graph
    /\ create_graph_matrix graph s = Some (m, s)
    /\ create_graph_matrix graph1 s1
       = Some (fmap (M:=list) (fun x : Z => 1 - x) <$> m, s1).
Proof.
  intros s graph.
  apply (complement_graph_negates_matrix graph s [[mk_edge 7 1 "a_b" 1 2]; []]).
  - concrete_graph_holds.
  - constructor.
    + intros e He. apply list_elem_of_singleton in He. by subst.
    + constructor; [|constructor]. intros e He. by apply elem_of_nil in He.
  - split; [|split].
    + apply (bool_decide_unpack _). vm_compute. exact I.
    + intros x Hx. vm_compute in Hx. apply list_elem_of_singleton in Hx. subst. reflexivity.
    + done.
  - vm_compute. reflexivity.
Defined.
(** ** Edge lists *)

Lemma holds_split h p es1 e es2 :
  holds h p (es1 ++ e :: es2) ->
  exists l1 a l2, chain h p (l1 ++ (a, e) :: l2) /\ l1.*2 = es1 /\ l2.*2 = es2.
Proof.
  intros (l & Hc & Hl).
  apply fmap_app_inv in Hl as (l1 & l' & -> & Hl' & ->).
  symmetry in Hl'. apply fmap_cons_inv in Hl' as ([a e'] & l2 & He & -> & ->).
  simpl in He. subst e'. by exists l1, a, l2.
Qed.

(** X3. [delete_edge] unlinks the first edge of the list that carries
    the identifier and keeps the other edges in their order; the
    identifier goes to the end of the edge recycle queue, and neither
    counter moves.  The identifier must be one the allocator regards as
    in use. *)
Theorem delete_edge_removes_first_match
    (s : state) (p : ptr) (es1 es2 : list graph_edge_t) (e : graph_edge_t) :
  holds (heap s) p (es1 ++ e :: es2) ->
  edge_id e ∉ edge_id <$> es1 ->
  exists_edge_from_id (edge_id e) s = true ->
  exists p' s',
    delete_edge p (edge_id e) s = Some (p', s')
    /\ holds (heap s') p' (es1 ++ es2)
    /\ revoked_edge_ids s' = revoked_edge_ids s ++ [edge_id e]
    /\ global_edge_id s' = global_edge_id s
    /\ global_node_id s' = global_node_id s
    /\ revoked_node_ids s' = revoked_node_ids s.
Proof.
  intros (l1 & a & l2 & Hc & <- & <-)%holds_split Hfirst Hlive.
  destruct (delete_edge_found _ _ _ _ _ _ Hc Hfirst Hlive) as (p' & h' & Hrun & Hc' & _).
  eexists _, _. split; [exact Hrun|]. simpl. split; [|done].
  exists (l1 ++ l2). split; [done|]. by rewrite fmap_app.
Qed.

Lemma delete_edge_removes_first_match_witness :
  let s := mk_state 3 [] 3 []
             [mk_cell (mk_edge 7 1 "a_b" 1 2) (Some 1%nat);
              mk_cell (mk_edge 0 2 "a_a" 1 1) None] in
  exists p' s',
    delete_edge (Some 0%nat) 2 s = Some (p', s')
    /\ holds (heap s') p' ([mk_edge 7 1 "a_b" 1 2] ++ [])
    /\ revoked_edge_ids s' = revoked_edge_ids s ++ [2]
    /\ global_edge_id s' = global_edge_id s
    /\ global_node_id s' = global_node_id s
    /\ revoked_node_ids s' = revoked_node_ids s.
Proof.
  intros s.
  apply (delete_edge_removes_first_match s (Some 0%nat) [mk_edge 7 1 "a_b" 1 2] []
           (mk_edge 0 2 "a_a" 1 1)).
  - concrete_holds.
  - intros H. vm_compute in H. apply list_elem_of_singleton in H. done.
  - reflexivity.
Defined.

(** X4. [delete_edge] changes nothing, list and globals, in two cases:
    when [exists_edge_from_id] does not regard the identifier as in
    use, whether or not an edge of the list carries it, and when no
    edge of the list carries it. *)
Theorem delete_edge_leaves_list_alone (s : state) (p : ptr) (es : list graph_edge_t) (i : Z) :
  exists_edge_from_id i s = false
  \/ (holds (heap s) p es /\ i ∉ edge_id <$> es) ->
  delete_edge p i s = Some (p, s).
Proof.
  intros [Hdead|[(l & Hc & <-) Habs]].
  - unfold delete_edge. unfold_monad. rewrite Hdead. by destruct p.
  - by eapply delete_edge_absent.
Qed.

Lemma delete_edge_leaves_list_alone_witness :
  let s := mk_state 3 [] 3 [2]
             [mk_cell (mk_edge 7 1 "a_b" 1 2) (Some 1%nat);
              mk_cell (mk_edge 0 2 "a_a" 1 1) None] in
  delete_edge (Some 0%nat) 2 s = Some (Some 0%nat, s).
Proof.
  intros s.
  apply (delete_edge_leaves_list_alone s (Some 0%nat) [] 2).
  left. reflexivity.
Defined.

(** X5. [append_edge] puts the edge behind the last edge of a
    well-formed list.  A list that was not empty keeps its head
    pointer; for the empty list the new cell is the head.  The number
    [edge_list_dim] reports grows by one, and the globals of the
    allocator are not touched. *)
Theorem append_edge_appends (s : state) (p : ptr) (es : list graph_edge_t) (e : graph_edge_t) :
  holds (heap s) p es ->
  exists p' s',
    append_edge p e s = Some (p', s')
    /\ holds (heap s') p' (es ++ [e])
    /\ (p <> None -> p' = p)
    /\ (p = None -> p' = Some (length (heap s)))
    /\ edge_list_dim p' s' = Some (S (length es), s')
    /\ global_edge_id s' = global_edge_id s
    /\ revoked_edge_ids s' = revoked_edge_ids s
    /\ global_node_id s' = global_node_id s
    /\ revoked_node_ids s' = revoked_node_ids s.
Proof.
  intros (l & Hc & <-).
  destruct (append_edge_spec _ _ _ e Hc) as (p' & h' & Hrun & Hc' & Hlen & Hhead & _).
  eexists _, _. split; [exact Hrun|]. simpl.
  split; [|split; [done|split; [|split; [|done]]]].
  - exists (l ++ [(length (heap s), e)]). split; [done|]. by rewrite fmap_app.
  - intros ->. destruct l as [|[a e0] l]; [|by destruct Hc].
    unfold append_edge in Hrun. unfold_monad. simpl in Hrun. by injection Hrun as <- _.
  - unfold edge_list_dim. unfold_monad. simpl.
    rewrite (edge_list_dim_lseg _ _ _ _ Hc').
    + rewrite length_app, length_fmap. simpl. do 3 f_equal. lia.
    + pose proof (chain_length _ _ _ Hc'). rewrite loop_fuel_set_heap. lia.
Qed.

Lemma append_edge_appends_witness :
  let s := mk_state 3 [] 2 [] [mk_cell (mk_edge 7 1 "a_b" 1 2) None] in
  let e := mk_edge 0 2 "a_a" 1 1 in
  exists p' s',
    append_edge (Some 0%nat) e s = Some (p', s')
    /\ holds (heap s') p' ([mk_edge 7 1 "a_b" 1 2] ++ [e])
    /\ (Some 0%nat <> None -> p' = Some 0%nat)
    /\ (Some 0%nat = None -> p' = Some (length (heap s)))
    /\ edge_list_dim p' s' = Some (S (length [mk_edge 7 1 "a_b" 1 2]), s')
    /\ global_edge_id s' = global_edge_id s
    /\ revoked_edge_ids s' = revoked_edge_ids s
    /\ global_node_id s' = global_node_id s
    /\ revoked_node_ids s' = revoked_node_ids s.
Proof.
  intros s e.
  apply (append_edge_appends s (Some 0%nat) [mk_edge 7 1 "a_b" 1 2] e).
  concrete_holds.
Defined.

(** [find_edge_loop] on a well-formed list. *)
Lemma find_edge_loop_found fuel h p l1 a e l2 :
  chain h p (l1 ++ (a, e) :: l2) ->
  edge_id e ∉ edge_id <$> l1.*2 ->
  (length l1 < fuel)%nat ->
  find_edge_loop fuel h p (edge_id e) = Some (Some a).
Proof.
  revert fuel p. induction l1 as [|[b eb] l1 IH]; intros fuel p Hc Hfirst Hf.
  - destruct Hc as (-> & n & Ha & _). destruct fuel; [simpl in Hf; lia|].
    simpl. rewrite Ha. simpl. by rewrite Z.eqb_refl.
  - destruct Hc as (-> & n & Hb & Hc). destruct fuel; [simpl in Hf; lia|].
    simpl. rewrite Hb. simpl.
    rewrite !fmap_cons in Hfirst. apply not_elem_of_cons in Hfirst as [Hne Hfirst].
    destruct (Z.eqb_spec (edge_id eb) (edge_id e)) as [Heq|_]; [by simpl in Hne|].
    apply IH; [done..|]. simpl in Hf. lia.
Qed.

Lemma find_edge_loop_absent fuel h p l i :
  chain h p l ->
  i ∉ edge_id <$> l.*2 ->
  (length l < fuel)%nat ->
  find_edge_loop fuel h p i = Some None.
Proof.
  revert fuel p. induction l as [|[b eb] l IH]; intros fuel p Hc Habs Hf.
  - unfold chain in Hc. simpl in Hc. subst p. by destruct fuel.
  - destruct Hc as (-> & n & Hb & Hc). destruct fuel; [simpl in Hf; lia|].
    simpl. rewrite Hb. simpl.
    rewrite !fmap_cons in Habs. apply not_elem_of_cons in Habs as [Hne Habs].
    destruct (Z.eqb_spec (edge_id eb) i) as [Heq|_]; [by simpl in Hne|].
    apply IH; [done..|]. simpl in Hf. lia.
Qed.

(** X6. [find_edge], and [find_edge_R] alike, returns the first cell of
    a well-formed list whose edge carries the identifier, and [NULL]
    exactly when no edge of the list carries it; the state is left
    alone. *)
Theorem find_edge_returns_first_match
    (s : state) (p : ptr) (l : list (nat * graph_edge_t)) (i : Z) :
  chain (heap s) p l ->
  exists r,
    find_edge p i s = Some (r, s)
    /\ find_edge_R p i s = Some (r, s)
    /\ match r with
       | Some a =>
           exists l1 e l2,
             l = l1 ++ (a, e) :: l2 /\ edge_id e = i /\ i ∉ edge_id <$> l1.*2
       | None => i ∉ edge_id <$> l.*2
       end.
Proof.
  intros Hc. unfold find_edge, find_edge_R. unfold_monad.
  destruct (decide (i ∈ edge_id <$> l.*2)) as [Hin|Hout].
  - apply elem_of_split_first in Hin as (l1 & a & e & l2 & -> & <- & Hfirst).
    exists (Some a). rewrite (find_edge_loop_found _ _ _ _ _ _ _ Hc Hfirst).
    + split; [done|]. split; [done|]. by exists l1, e, l2.
    + pose proof (chain_fuel _ _ _ Hc) as Hlen. rewrite length_app in Hlen. lia.
  - exists None. rewrite (find_edge_loop_absent _ _ _ _ _ Hc Hout); [done|].
    by eapply chain_fuel.
Qed.

Lemma find_edge_returns_first_match_witness :
  let s := mk_state 3 [] 3 []
             [mk_cell (mk_edge 7 1 "a_b" 1 2) (Some 1%nat);
              mk_cell (mk_edge 0 2 "a_a" 1 1) None] in
  let l := [(0%nat, mk_edge 7 1 "a_b" 1 2); (1%nat, mk_edge 0 2 "a_a" 1 1)] in
  exists r,
    find_edge (Some 0%nat) 2 s = Some (r, s)
    /\ find_edge_R (Some 0%nat) 2 s = Some (r, s)
    /\ match r with
       | Some a =>
           exists l1 e l2,
             l = l1 ++ (a, e) :: l2 /\ edge_id e = 2 /\ 2 ∉ edge_id <$> l1.*2
       | None => 2 ∉ edge_id <$> l.*2
       end.
Proof.
  intros s l. apply (find_edge_returns_first_match s (Some 0%nat) l 2).
  split; [done|]. eexists. split; [reflexivity|].
  split; [done|]. eexists. split; [reflexivity|]. done.
Defined.

(** X7. A [delete_edge] that removes an edge makes [find_edge] miss
    its identifier, when no two edges of the list share an
    identifier; an [append_edge] of an edge whose identifier the list
    does not hold yet makes [find_edge] return the new cell, the one
    at the old end of the heap. *)
Theorem find_edge_after_delete_and_append
    (s : state) (p : ptr) (es : list graph_edge_t) (e : graph_edge_t) :
  holds (heap s) p es ->
  (e ∈ es -> NoDup (edge_id <$> es) -> exists_edge_from_id (edge_id e) s = true ->
   exists p' s',
     delete_edge p (edge_id e) s = Some (p', s')
     /\ find_edge p' (edge_id e) s' = Some (None, s'))
  /\ (edge_id e ∉ edge_id <$> es ->
      exists p' s',
        append_edge p e s = Some (p', s')
        /\ find_edge p' (edge_id e) s' = Some (Some (length (heap s)), s')).
Proof.
  intros Hh. split.
  - intros Hin Hnd Hlive.
    apply list_elem_of_split in Hin as (es1 & es2 & ->).
    rewrite fmap_app, fmap_cons in Hnd.
    apply NoDup_app in Hnd as (_ & Hdisj & Hnd2). apply NoDup_cons in Hnd2 as [Hnot2 _].
    assert (edge_id e ∉ edge_id <$> es1) as Hnot1.
    { intros H1. apply (Hdisj _ H1). left. }
    apply holds_split in Hh as (l1 & a & l2 & Hc & <- & <-).
    destruct (delete_edge_found _ _ _ _ _ _ Hc Hnot1 Hlive) as (p' & h' & Hrun & Hc' & Hlen & _).
    eexists _, _. split; [exact Hrun|].
    unfold find_edge. unfold_monad. simpl.
    rewrite (find_edge_loop_absent _ _ _ _ _ Hc'); [done| |].
    + rewrite fmap_app, fmap_app. intros [H|H]%elem_of_app; [by apply Hnot1|by apply Hnot2].
    + pose proof (chain_length _ _ _ Hc'). rewrite loop_fuel_set_heap. lia.
  - intros Hnew. destruct Hh as (l & Hc & <-).
    destruct (append_edge_spec _ _ _ e Hc) as (p' & h' & Hrun & Hc' & Hlen & _).
    eexists _, _. split; [exact Hrun|].
    unfold find_edge. unfold_monad. simpl.
    rewrite (find_edge_loop_found _ _ _ _ _ _ [] Hc' Hnew); [done|].
    pose proof (chain_length _ _ _ Hc') as Hl. rewrite length_app in Hl.
    rewrite loop_fuel_set_heap. simpl in Hl. lia.
Qed.

Lemma find_edge_after_delete_and_append_witness :
  let s := mk_state 3 [] 3 [] [mk_cell (mk_edge 7 1 "a_b" 1 2) None] in
  let e := mk_edge 7 1 "a_b" 1 2 in
  let e' := mk_edge 0 2 "a_a" 1 1 in
  (exists p' s',
     delete_edge (Some 0%nat) (edge_id e) s = Some (p', s')
     /\ find_edge p' (edge_id e) s' = Some (None, s'))
  /\ (exists p' s',
        append_edge (Some 0%nat) e' s = Some (p', s')
        /\ find_edge p' (edge_id e') s' = Some (Some (length (heap s)), s')).
Proof.
  intros s e e'.
  assert (holds (heap s) (Some 0%nat) [e]) as Hh by concrete_holds.
  split.
  - apply (proj1 (find_edge_after_delete_and_append s (Some 0%nat) [e] e Hh)).
    + apply list_elem_of_singleton. reflexivity.
    + apply (bool_decide_unpack _). vm_compute. exact I.
    + reflexivity.
  - apply (proj2 (find_edge_after_delete_and_append s (Some 0%nat) [e] e' Hh)).
    intros H. vm_compute in H. apply list_elem_of_singleton in H. done.
Defined.

(** ** The list of nodes *)

Lemma node_index_app_l (g1 g2 : graph_t) (i : Z) (k : nat) :
  node_index g1 i = Some k -> node_index (g1 ++ g2) i = Some k.
Proof.
  revert k. induction g1 as [|n g1 IH]; intros k H; simpl in *; [done|].
  destruct (Z.eqb (node_id n) i); [done|].
  destruct (node_index g1 i) as [k'|]; [|done]. by rewrite (IH k').
Qed.

Lemma node_index_app_r (g1 g2 : graph_t) (i : Z) :
  node_index g1 i = None ->
  node_index (g1 ++ g2) i = (fun k => (length g1 + k)%nat) <$> node_index g2 i.
Proof.
  induction g1 as [|n g1 IH]; intros H; simpl in *.
  - by destruct (node_index g2 i).
  - destruct (Z.eqb (node_id n) i); [done|].
    destruct (node_index g1 i) as [k'|]; [done|]. rewrite IH by done.
    by destruct (node_index g2 i).
Qed.

(** X8. [find_node] after [append_node] and after [delete_node].  An
    appended node is found at the end of the list when its identifier
    was not in the graph, and is shadowed by the first older node with
    the same identifier otherwise.  [delete_node] removes the first
    node with the identifier only: when the identifiers of the graph
    are pairwise distinct a later [find_node] misses the identifier,
    and the nodes with other identifiers are all still found. *)
Theorem find_node_after_append_and_delete (graph : graph_t) (n : graph_node_t) (i : Z) (s : state) :
  (node_id n ∉ node_id <$> graph ->
   find_node (append_node graph n) (node_id n) = Some (length graph))
  /\ (forall k, find_node graph (node_id n) = Some k ->
        find_node (append_node graph n) (node_id n) = Some k)
  /\ (NoDup (node_id <$> graph) ->
      exists graph' s',
        delete_node graph i s = Some (graph', s')
        /\ find_node graph' i = None
        /\ forall j, j <> i -> j ∈ node_id <$> graph -> exists k, find_node graph' j = Some k).
Proof.
  unfold find_node, append_node. split; [|split].
  - intros Hnew. apply node_index_None in Hnew.
    rewrite node_index_app_r by done. simpl. rewrite Z.eqb_refl. simpl. by rewrite Nat.add_0_r.
  - intros k Hk. by apply node_index_app_l.
  - intros Hnd. destruct (node_index graph i) as [k|] eqn:Hk.
    + rewrite (delete_node_found _ _ _ _ Hk). eexists _, _. split; [done|].
      apply node_index_split in Hk as (g1 & m & g2 & -> & <- & Hm & _).
      rewrite delete_middle. rewrite fmap_app, fmap_cons in Hnd.
      apply NoDup_app in Hnd as (_ & Hdisj & Hnd2). apply NoDup_cons in Hnd2 as [Hnot2 _].
      subst i. split.
      * apply node_index_None. rewrite fmap_app.
        intros [H|H]%elem_of_app; [|done]. apply (Hdisj _ H). left.
      * intros j Hj Hin. apply node_index_is_Some.
        rewrite fmap_app, fmap_cons in Hin. rewrite fmap_app.
        apply elem_of_app in Hin as [H|H]; [apply elem_of_app; by left|].
        apply elem_of_cons in H as [H|H]; [done|]. apply elem_of_app. by right.
    + rewrite (delete_node_absent _ _ _ Hk). eexists _, _. split; [done|]. split; [done|].
      intros j _ Hin. by apply node_index_is_Some.
Qed.

Lemma find_node_after_append_and_delete_witness :
  let graph := [mk_node 1 "a" None; mk_node 2 "b" None] in
  let s := mk_state 4 [] 1 [] [] in
  find_node (append_node graph (mk_node 3 "c" None)) 3 = Some 2%nat
  /\ find_node (append_node graph (mk_node 1 "z" None)) 1 = Some 0%nat
  /\ (exists graph' s',
        delete_node graph 2 s = Some (graph', s')
        /\ find_node graph' 2 = None
        /\ forall j, j <> 2 -> j ∈ node_id <$> graph -> exists k, find_node graph' j = Some k).
Proof.
  intros graph s. split; [|split].
  - apply (proj1 (find_node_after_append_and_delete graph (mk_node 3 "c" None) 2 s)).
    apply (bool_decide_unpack _). vm_compute. exact I.
  - apply (proj1 (proj2 (find_node_after_append_and_delete graph (mk_node 1 "z" None) 2 s))).
    reflexivity.
  - apply (proj2 (proj2 (find_node_after_append_and_delete graph (mk_node 3 "c" None) 2 s))).
    apply (bool_decide_unpack _). vm_compute. exact I.
Defined.

(** [get_id_from_node_label_loop] once [found] is set. *)
Lemma get_id_from_node_label_loop_found (graph : graph_t) (label : string) (nid : Z) :
  get_id_from_node_label_loop graph label nid true = nid.
Proof. by destruct graph. Qed.

Lemma get_id_from_node_label_absent (graph : graph_t) (label : string) (nid : Z) :
  label ∉ node_label <$> graph ->
  get_id_from_node_label_loop graph label nid false = nid.
Proof.
  induction graph as [|n graph IH]; intros Habs; simpl; [done|].
  rewrite fmap_cons in Habs. apply not_elem_of_cons in Habs as [Hne Habs].
  destruct (String.eqb_spec (node_label n) label) as [Heq|_]; [by rewrite Heq in Hne|].
  by apply IH.
Qed.

Lemma get_id_from_node_label_first (g1 g2 : graph_t) (n : graph_node_t) (nid : Z) :
  node_label n ∉ node_label <$> g1 ->
  get_id_from_node_label_loop (g1 ++ n :: g2) (node_label n) nid false = node_id n.
Proof.
  induction g1 as [|m g1 IH]; intros Habs; simpl.
  - rewrite String.eqb_refl. apply get_id_from_node_label_loop_found.
  - rewrite fmap_cons in Habs. apply not_elem_of_cons in Habs as [Hne Habs].
    destruct (String.eqb_spec (node_label m) (node_label n)) as [Heq|_];
      [by rewrite Heq in Hne|].
    by apply IH.
Qed.

(** X9. [get_id_from_node_label] returns the identifier of the first
    node that carries the label, whatever later nodes carry it too,
    and [ERROR_ID] (0) when no node carries it. *)
Theorem get_id_from_node_label_first_match (graph : graph_t) (label : string) :
  (label ∉ node_label <$> graph -> get_id_from_node_label graph label = ERROR_ID)
  /\ (forall g1 n g2,
        graph = g1 ++ n :: g2 -> node_label n = label -> label ∉ node_label <$> g1 ->
        get_id_from_node_label graph label = node_id n).
Proof.
  unfold get_id_from_node_label. split.
  - apply get_id_from_node_label_absent.
  - intros g1 n g2 -> <- Hfirst. by apply get_id_from_node_label_first.
Qed.

Lemma get_id_from_node_label_first_match_witness :
  let graph := [mk_node 1 "a" None; mk_node 2 "b" None; mk_node 3 "b" None] in
  get_id_from_node_label graph "c" = ERROR_ID
  /\ get_id_from_node_label graph "b" = 2.
Proof.
  intros graph.
  split.
  - apply (proj1 (get_id_from_node_label_first_match graph "c")).
    intros H. vm_compute in H.
    apply elem_of_cons in H as [H|H]; [done|].
    apply elem_of_cons in H as [H|H]; [done|]. by apply list_elem_of_singleton in H.
  - apply (proj2 (get_id_from_node_label_first_match graph "b")
             [mk_node 1 "a" None] (mk_node 2 "b" None) [mk_node 3 "b" None]);
      [reflexivity|reflexivity|].
    intros H. vm_compute in H. apply list_elem_of_singleton in H. done.
Defined.

(** ** Replacing a node label *)

Lemma ref_index_absent (graph : list graph_node_ref) (i : Z) :
  i ∉ ref_id <$> graph -> ref_index graph i = None.
Proof.
  induction graph as [|n graph IH]; intros Habs; simpl; [done|].
  rewrite fmap_cons in Habs. apply not_elem_of_cons in Habs as [Hne Habs].
  destruct (Z.eqb_spec (ref_id n) i) as [Heq|_]; [by rewrite Heq in Hne|].
  by rewrite IH.
Qed.

Lemma ref_index_first (g1 g2 : list graph_node_ref) (n : graph_node_ref) :
  ref_id n ∉ ref_id <$> g1 -> ref_index (g1 ++ n :: g2) (ref_id n) = Some (length g1).
Proof.
  induction g1 as [|m g1 IH]; intros Habs; simpl.
  - by rewrite Z.eqb_refl.
  - rewrite fmap_cons in Habs. apply not_elem_of_cons in Habs as [Hne Habs].
    destruct (Z.eqb_spec (ref_id m) (ref_id n)) as [Heq|_]; [by rewrite Heq in Hne|].
    by rewrite IH.
Qed.

(** X10. [change_node_label] frees the label buffer of the first node
    with the identifier, when that node's label pointer is not [NULL],
    and stores the pointer [new_label] in that node.  No other node
    struct changes and no other buffer is touched: a node that holds
    the same pointer as the changed node is left with a freed buffer,
    every other label reads as before.  When the buffer to free is not
    live the call has no defined result, and a graph without the
    identifier is returned with the store as it was. *)
Theorem change_node_label_frees_the_old_buffer
    (g1 g2 : list graph_node_ref) (n : graph_node_ref) (new_label : option nat)
    (st : list (option string)) :
  ref_id n ∉ ref_id <$> g1 ->
  (forall a old,
     ref_label n = Some a -> st !! a = Some (Some old) ->
     change_node_label (g1 ++ n :: g2) (ref_id n) new_label st
     = Some (g1 ++ mk_node_ref (ref_id n) new_label (ref_edges n) :: g2, <[a := None]> st)
     /\ read_label (<[a := None]> st) (Some a) = None
     /\ forall p, p <> Some a -> read_label (<[a := None]> st) p = read_label st p)
  /\ (ref_label n = None ->
      change_node_label (g1 ++ n :: g2) (ref_id n) new_label st
      = Some (g1 ++ mk_node_ref (ref_id n) new_label (ref_edges n) :: g2, st))
  /\ (forall a, ref_label n = Some a -> read_label st (Some a) = None ->
      change_node_label (g1 ++ n :: g2) (ref_id n) new_label st = None)
  /\ (forall graph i, i ∉ ref_id <$> graph ->
        change_node_label graph i new_label st = Some (graph, st)).
Proof.
  intros Hfirst. unfold change_node_label.
  rewrite (ref_index_first _ _ _ Hfirst), list_lookup_middle by done.
  rewrite insert_middle.
  split; [|split; [|split]].
  - intros a old -> Ha. unfold free_label. rewrite Ha. split; [done|]. split.
    + simpl. rewrite list_lookup_insert_eq by by eapply lookup_lt_Some. done.
    + intros [b|] Hne; [|done]. simpl.
      rewrite list_lookup_insert_ne by congruence. done.
  - by intros ->.
  - intros a -> Hdead. unfold free_label. simpl in Hdead.
    destruct (st !! a) as [[l|]|]; done.
  - intros graph i Habs. by rewrite (ref_index_absent _ _ Habs).
Qed.

Lemma change_node_label_frees_the_old_buffer_witness :
  let st := [Some "a"; Some "b"; Some "c"]%string in
  let n1 := mk_node_ref 1 (Some 0%nat) None in
  let n2 := mk_node_ref 2 (Some 1%nat) None in
  let n3 := mk_node_ref 3 (Some 1%nat) None in
  change_node_label ([n1] ++ n2 :: [n3]) 2 (Some 2%nat) st
  = Some ([n1] ++ mk_node_ref 2 (Some 2%nat) None :: [n3], <[1%nat := None]> st)
  /\ read_label (<[1%nat := None]> st) (ref_label n3) = None
  /\ read_label (<[1%nat := None]> st) (ref_label n1) = read_label st (ref_label n1).
Proof.
  intros st n1 n2 n3.
  assert (ref_id n2 ∉ ref_id <$> [n1]) as Hfirst.
  { intros H. vm_compute in H. apply list_elem_of_singleton in H. done. }
  destruct (proj1 (change_node_label_frees_the_old_buffer [n1] [n3] n2 (Some 2%nat) st Hfirst)
              1%nat "b"%string eq_refl eq_refl) as (Hrun & Hfreed & Hother).
  split; [exact Hrun|]. split; [exact Hfreed|]. apply Hother. discriminate.
Defined.

(** ** Relabelling an edge *)

(** X11. [change_edge_label] with an identifier that no edge of the
    graph carries leaves every node of the graph with an empty edge
    list: the search advances the [edges] field of each node it visits
    to [NULL].  The heap and the globals are untouched, the cells are
    merely no longer reachable from the graph. *)
Theorem change_edge_label_unknown_id_empties_lists
    (graph : graph_t) (s : state) (E : list (list graph_edge_t)) (eid : Z) (new_label : string) :
  graph_holds s graph E ->
  eid ∉ edge_ids_of E ->
  change_edge_label graph eid new_label s = Some (set_node_edges None <$> graph, s).
Proof.
  intros HE. induction HE as [|n es graph E (l & Hc & <-) _ IH]; intros Habs; [done|].
  rewrite edge_ids_of_cons in Habs. apply not_elem_of_app in Habs as [Hn Habs].
  simpl. unfold_monad.
  rewrite (find_edge_loop_absent _ _ _ _ _ Hc Hn) by by eapply chain_fuel.
  by rewrite (IH Habs).
Qed.

Lemma change_edge_label_unknown_id_empties_lists_witness :
  let s := mk_state 3 [] 2 [] [mk_cell (mk_edge 7 1 "a_b" 1 2) None] in
  let graph := [mk_node 1 "a" (Some 0%nat); mk_node 2 "b" None] in
  change_edge_label graph 5 "new" s = Some (set_node_edges None <$> graph, s).
Proof.
  intros s graph.
  apply (change_edge_label_unknown_id_empties_lists graph s [[mk_edge 7 1 "a_b" 1 2]; []]).
  - concrete_graph_holds.
  - intros H. vm_compute in H. apply list_elem_of_singleton in H. done.
Defined.



(** ** Counting *)

Lemma autoloop_count_loop_spec fuel h p l count :
  chain h p l -> (length l < fuel)%nat ->
  autoloop_count_loop fuel h p count
  = Some (count + length (filter (fun e => endpoint_0 e = endpoint_1 e) l.*2))%nat.
Proof.
  revert fuel p count. induction l as [|[a e] l IH]; intros fuel p count Hc Hf.
  - unfold chain in Hc. simpl in Hc. subst p. destruct fuel; simpl; f_equal; lia.
  - destruct Hc as (-> & n & Ha & Hc). destruct fuel; [simpl in Hf; lia|].
    rewrite fmap_cons, filter_cons. cbn [autoloop_count_loop snd]. rewrite Ha.
    cbn [next edge]. rewrite IH by (done || simpl in Hf; lia).
    destruct (Z.eqb_spec (endpoint_0 e) (endpoint_1 e)) as [Heq|Hne].
    + rewrite decide_True by done. simpl. f_equal. lia.
    + by rewrite decide_False by done.
Qed.

(** X13. [autoloop_count] returns the number of edges of the list whose
    two endpoints are equal, [edge_list_dim] the number of all its
    edges; so the first never exceeds the second, and neither changes
    the state. *)
Theorem autoloop_count_counts_self_loops (s : state) (p : ptr) (es : list graph_edge_t) :
  holds (heap s) p es ->
  autoloop_count p s
  = Some (length (filter (fun e => endpoint_0 e = endpoint_1 e) es), s)
  /\ edge_list_dim p s = Some (length es, s)
  /\ (length (filter (fun e => endpoint_0 e = endpoint_1 e) es) <= length es)%nat.
Proof.
  intros (l & Hc & <- & Hf)%holds_fuel. unfold autoloop_count, edge_list_dim. unfold_monad.
  rewrite (autoloop_count_loop_spec _ _ _ _ _ Hc Hf), (edge_list_dim_lseg _ _ _ _ Hc Hf).
  simpl. rewrite length_fmap. split; [done|]. split; [done|].
  rewrite <- (length_fmap snd l). apply length_filter.
Qed.

Lemma autoloop_count_counts_self_loops_witness :
  let s := mk_state 3 [] 3 []
             [mk_cell (mk_edge 7 1 "a_b" 1 2) (Some 1%nat);
              mk_cell (mk_edge 0 2 "a_a" 1 1) None] in
  let es := [mk_edge 7 1 "a_b" 1 2; mk_edge 0 2 "a_a" 1 1] in
  autoloop_count (Some 0%nat) s
  = Some (length (filter (fun e => endpoint_0 e = endpoint_1 e) es), s)
  /\ edge_list_dim (Some 0%nat) s = Some (length es, s)
  /\ (length (filter (fun e => endpoint_0 e = endpoint_1 e) es) <= length es)%nat.
Proof.
  intros s es. apply (autoloop_count_counts_self_loops s (Some 0%nat) es). concrete_holds.
Defined.

(** ** Copying the edges of one list to the end of another *)

Lemma set_heap_set_heap h h' (s : state) : set_heap h' (set_heap h s) = set_heap h' s.
Proof. done. Qed.

(** The loop [donate_edges]: the edges of the list at [p] are appended,
    one fresh cell each, to the list at [p2]; the list at [p] must not
    share a cell with the list at [p2]. *)
Lemma donate_edges_spec ld :
  forall (fuel : nat) (s : state) (p p2 : ptr) l2,
    chain (heap s) p ld ->
    chain (heap s) p2 l2 ->
    (forall a, a ∈ ld.*1 -> a ∉ l2.*1) ->
    (length ld < fuel)%nat ->
    exists p2' h',
      donate_edges fuel p p2 s = Some (p2', set_heap h' s)
      /\ chain h' p2' (l2 ++ zip (seq (length (heap s)) (length ld)) ld.*2)
      /\ length h' = (length (heap s) + length ld)%nat
      /\ (p2 <> None -> p2' = p2)
      /\ (ld = [] -> p2' = p2)
      /\ (forall b, b ∉ l2.*1 -> (b < length (heap s))%nat -> h' !! b = heap s !! b).
Proof.
  induction ld as [|[a e] ld IH]; intros fuel s p p2 l2 Hp Hp2 Hdisj Hf.
  - unfold chain in Hp. simpl in Hp. subst p.
    exists p2, (heap s). destruct fuel; simpl; unfold_monad; rewrite set_heap_same;
      (split; [done|]); rewrite app_nil_r; repeat split; (done || lia).
  - destruct Hp as (-> & n & Ha & Hp). destruct fuel; [simpl in Hf; lia|].
    cbn [donate_edges]. unfold bind at 1. unfold load at 1. rewrite Ha. cbn [edge next].
    destruct (append_edge_spec _ _ _ e Hp2) as (p2a & h1 & Hrun & Hc1 & Hlen1 & Hhead1 & Hfr1).
    unfold bind at 1. rewrite Hrun.
    assert (a ∉ l2.*1) as Hal2 by (apply Hdisj; rewrite fmap_cons; left).
    assert (a < length (heap s))%nat as Halt by by eapply lookup_lt_Some.
    unfold bind at 1. unfold load at 1. cbn [heap set_heap].
    rewrite (Hfr1 a Hal2 Halt), Ha. cbn [next].
    assert (chain (heap (set_heap h1 s)) n ld) as Hp'.
    { simpl. eapply lseg_frame; [exact Hp|]. intros b Hb. apply Hfr1.
      - apply Hdisj. rewrite fmap_cons. by right.
      - exact (lseg_lt _ _ _ _ _ Hp Hb). }
    destruct (IH fuel (set_heap h1 s) n p2a _ Hp' Hc1) as (p2' & h' & Hrun' & Hc' & Hlen' & Hhead' & Hnil' & Hfr').
    { intros b Hb. rewrite fmap_app. intros [H|H]%elem_of_app.
      - revert H. apply Hdisj. rewrite fmap_cons. by right.
      - simpl in H. apply list_elem_of_singleton in H. subst b.
        pose proof (lseg_lt _ _ _ _ _ Hp Hb). lia. }
    { simpl in Hf. lia. }
    rewrite Hrun'. rewrite set_heap_set_heap. exists p2', h'. split; [done|].
    simpl in Hc', Hlen', Hfr'. rewrite Hlen1 in Hc', Hlen'.
    split; [|split; [|split; [|split]]].
    + rewrite fmap_cons. simpl. by rewrite <- app_assoc in Hc'.
    + simpl. lia.
    + intros Hne. rewrite <- (Hhead1 Hne). apply Hhead'.
      rewrite (Hhead1 Hne). done.
    + done.
    + intros b Hb Hlt. rewrite Hfr'.
      * by apply Hfr1.
      * rewrite fmap_app. intros [H|H]%elem_of_app; [done|].
        simpl in H. apply list_elem_of_singleton in H. lia.
      * lia.
Qed.

(** X14. [add_new_edges_to_node] appends a copy of every edge of
    [new_edges], in order, to the list of the first node with the
    identifier.  The copies keep the identifiers of the originals, no
    identifier is allocated, so afterwards each of these identifiers
    is carried by two cells; the list [new_edges] itself is left as it
    was.  The two lists must not share a cell.  A graph without the
    identifier is left alone. *)
Theorem add_new_edges_to_node_appends_copies
    (graph : graph_t) (nid : Z) (new_edges : ptr) (s : state)
    (l ln : list (nat * graph_edge_t)) (k : nat) (n : graph_node_t) :
  (node_index graph nid = None -> add_new_edges_to_node graph nid new_edges s = Some (graph, s))
  /\ (node_index graph nid = Some k ->
      graph !! k = Some n ->
      chain (heap s) (node_edges n) l ->
      chain (heap s) new_edges ln ->
      (forall a, a ∈ ln.*1 -> a ∉ l.*1) ->
      exists p s',
        add_new_edges_to_node graph nid new_edges s
        = Some (<[k := set_node_edges p n]> graph, s')
        /\ holds (heap s') p (l.*2 ++ ln.*2)
        /\ holds (heap s') new_edges ln.*2
        /\ global_edge_id s' = global_edge_id s
        /\ revoked_edge_ids s' = revoked_edge_ids s).
Proof.
  unfold add_new_edges_to_node. split.
  - by intros ->.
  - intros -> Hn Hl Hln Hdisj. unfold_monad. rewrite Hn.
    destruct (donate_edges_spec ln (loop_fuel s) s new_edges (node_edges n) l Hln Hl Hdisj)
      as (p & h' & Hrun & Hc' & Hlen' & _ & _ & Hfr').
    { by eapply chain_fuel. }
    rewrite Hrun. eexists _, _. split; [reflexivity|]. simpl.
    split; [|split; [|done]].
    + eexists. split; [exact Hc'|]. rewrite fmap_app. f_equal.
      apply snd_zip. rewrite length_seq, length_fmap. lia.
    + exists ln. split; [|done]. eapply lseg_frame; [exact Hln|].
      intros b Hb. apply Hfr'; [by apply Hdisj|by eapply lseg_lt].
Qed.

Lemma add_new_edges_to_node_appends_copies_witness :
  let s := mk_state 3 [] 3 []
             [mk_cell (mk_edge 7 1 "a_b" 1 2) None;
              mk_cell (mk_edge 0 2 "b_a" 2 1) None] in
  let graph := [mk_node 1 "a" (Some 0%nat); mk_node 2 "b" (Some 1%nat)] in
  let l := [(0%nat, mk_edge 7 1 "a_b" 1 2)] in
  let ln := [(1%nat, mk_edge 0 2 "b_a" 2 1)] in
  exists p s',
    add_new_edges_to_node graph 1 (Some 1%nat) s
    = Some (<[0%nat := set_node_edges p (mk_node 1 "a" (Some 0%nat))]> graph, s')
    /\ holds (heap s') p (l.*2 ++ ln.*2)
    /\ holds (heap s') (Some 1%nat) ln.*2
    /\ global_edge_id s' = global_edge_id s
    /\ revoked_edge_ids s' = revoked_edge_ids s.
Proof.
  intros s graph l ln.
  apply (proj2 (add_new_edges_to_node_appends_copies graph 1 (Some 1%nat) s l ln 0
                  (mk_node 1 "a" (Some 0%nat)))).
  - reflexivity.
  - reflexivity.
  - split; [done|]. eexists. split; [reflexivity|]. done.
  - split; [done|]. eexists. split; [reflexivity|]. done.
  - intros a Ha. vm_compute in Ha. apply list_elem_of_singleton in Ha. subst a.
    intros H. vm_compute in H. apply list_elem_of_singleton in H. done.
Defined.

(** ** Union and series composition *)

Lemma graph_holds_app (s : state) (g1 g2 : graph_t) E1 E2 :
  graph_holds s g1 E1 -> graph_holds s g2 E2 -> graph_holds s (g1 ++ g2) (E1 ++ E2).
Proof. apply Forall2_app. Qed.

(** X15. [disjoint_graph_union] returns the node structs of the first
    graph followed by those of the second.  Nothing is copied or
    renumbered: the nodes keep their identifiers and their [edges]
    pointers, so the union reads the very edge lists of its arguments;
    and a node of the first graph shadows a node of the second that
    has the same identifier. *)
Theorem disjoint_graph_union_shares_lists
    (graph1 graph2 : graph_t) (s : state) (E1 E2 : list (list graph_edge_t)) :
  disjoint_graph_union graph1 graph2 = graph1 ++ graph2
  /\ graph_dim (disjoint_graph_union graph1 graph2) = (graph_dim graph1 + graph_dim graph2)%nat
  /\ (graph_holds s graph1 E1 -> graph_holds s graph2 E2 ->
      graph_holds s (disjoint_graph_union graph1 graph2) (E1 ++ E2))
  /\ (forall i k, find_node graph1 i = Some k ->
        find_node (disjoint_graph_union graph1 graph2) i = Some k)
  /\ (forall i, find_node graph1 i = None ->
        find_node (disjoint_graph_union graph1 graph2) i
        = (fun k => (graph_dim graph1 + k)%nat) <$> find_node graph2 i).
Proof.
  rewrite disjoint_graph_union_app. unfold graph_dim, find_node.
  split; [done|]. split; [apply length_app|]. split; [apply graph_holds_app|].
  split; [intros i k; apply node_index_app_l|intros i; apply node_index_app_r].
Qed.

Lemma disjoint_graph_union_shares_lists_witness :
  let s := mk_state 3 [] 2 [] [mk_cell (mk_edge 7 1 "a_b" 1 2) None] in
  let graph1 := [mk_node 1 "a" (Some 0%nat)] in
  let graph2 := [mk_node 2 "b" None] in
  graph_holds s (disjoint_graph_union graph1 graph2) ([[mk_edge 7 1 "a_b" 1 2]] ++ [[]])
  /\ find_node (disjoint_graph_union graph1 graph2) 1 = Some 0%nat
  /\ find_node (disjoint_graph_union graph1 graph2) 2
     = (fun k => (graph_dim graph1 + k)%nat) <$> find_node graph2 2.
Proof.
  intros s graph1 graph2.
  destruct (disjoint_graph_union_shares_lists graph1 graph2 s [[mk_edge 7 1 "a_b" 1 2]] [[]])
    as (_ & _ & H1 & H2 & H3).
  split; [|split].
  - apply H1; concrete_graph_holds.
  - apply H2. reflexivity.
  - apply H3. reflexivity.
Defined.

(** X16. [series_graph_composition] on two terminals that both own at
    least one edge: the result is the union of the two graphs, and the
    two bridging edges, from the left terminal to the right one and
    back, are appended in place to the lists of the terminals, which
    the union shares; their weight and label are the defaults.  No
    other cell of the heap is written.  The lists of the two terminals
    must not share a cell. *)
Theorem series_graph_composition_links_terminals
    (graph1 graph2 : graph_t) (source_id sink_id : Z) (s : state)
    (li ri : nat) (left_node right_node : graph_node_t)
    (cl cr : list (nat * graph_edge_t)) :
  find_node graph1 source_id = Some li ->
  graph1 !! li = Some left_node ->
  find_node graph2 sink_id = Some ri ->
  graph2 !! ri = Some right_node ->
  chain (heap s) (node_edges left_node) cl ->
  chain (heap s) (node_edges right_node) cr ->
  cl <> [] -> cr <> [] ->
  NoDup (cl ++ cr).*1 ->
  exists r s' i1 i2,
    series_graph_composition graph1 graph2 source_id sink_id s = Some (r, s')
    /\ series_union r = graph1 ++ graph2
    /\ holds (heap s') (node_edges left_node)
         (cl.*2 ++ [mk_edge SERIES_EDGE_DEFAULT_WEIGHT i1 SERIES_EDGE_DEFAULT_LABEL
                      (node_id left_node) (node_id right_node)])
    /\ holds (heap s') (node_edges right_node)
         (cr.*2 ++ [mk_edge SERIES_EDGE_DEFAULT_WEIGHT i2 SERIES_EDGE_DEFAULT_LABEL
                      (node_id right_node) (node_id left_node)])
    /\ (forall b, (b < length (heap s))%nat -> b ∉ (cl ++ cr).*1 ->
                  heap s' !! b = heap s !! b).
Proof.
  intros Hli Hl Hri Hr Hcl Hcr Hnel Hner Hnd.
  destruct (series_graph_composition_nonempty graph1 graph2 source_id sink_id s li ri
              left_node right_node cl cr Hli Hl Hri Hr Hcl Hcr Hnel Hner Hnd)
    as (r & s' & i1 & i2 & Hrun & Hu & _ & _ & H1 & H2 & Hfr).
  by exists r, s', i1, i2.
Qed.

Lemma series_graph_composition_links_terminals_witness :
  let s := mk_state 3 [] 3 []
             [mk_cell (mk_edge 7 1 "a_a" 1 1) None;
              mk_cell (mk_edge 0 2 "b_b" 2 2) None] in
  let left_node := mk_node 1 "a" (Some 0%nat) in
  let right_node := mk_node 2 "b" (Some 1%nat) in
  let cl := [(0%nat, mk_edge 7 1 "a_a" 1 1)] in
  let cr := [(1%nat, mk_edge 0 2 "b_b" 2 2)] in
  exists r s' i1 i2,
    series_graph_composition [left_node] [right_node] 1 2 s = Some (r, s')
    /\ series_union r = [left_node] ++ [right_node]
    /\ holds (heap s') (node_edges left_node)
         (cl.*2 ++ [mk_edge SERIES_EDGE_DEFAULT_WEIGHT i1 SERIES_EDGE_DEFAULT_LABEL
                      (node_id left_node) (node_id right_node)])
    /\ holds (heap s') (node_edges right_node)
         (cr.*2 ++ [mk_edge SERIES_EDGE_DEFAULT_WEIGHT i2 SERIES_EDGE_DEFAULT_LABEL
                      (node_id right_node) (node_id left_node)])
    /\ (forall b, (b < length (heap s))%nat -> b ∉ (cl ++ cr).*1 ->
                  heap s' !! b = heap s !! b).
Proof.
  intros s left_node right_node cl cr.
  apply (series_graph_composition_links_terminals [left_node] [right_node] 1 2 s 0 0
           left_node right_node cl cr).
  - reflexivity.
  - reflexivity.
  - reflexivity.
  - reflexivity.
  - split; [done|]. eexists. split; [reflexivity|]. done.
  - split; [done|]. eexists. split; [reflexivity|]. done.
  - discriminate.
  - discriminate.
  - apply (bool_decide_unpack _). vm_compute. exact I.
Defined.

(** ** Deleting a graph and building a new one *)

(** X17. After [delete_graph], starting from empty recycle queues, the
    next creations hand out the identifiers of the deleted graph
    again, in the order in which the graph held them: the nodes in
    list order, the edges node by node.  When as many nodes and edges
    are created as were deleted, both queues are empty again and
    neither counter has moved. *)
Theorem delete_graph_then_create_reuses_identifiers
    (graph : graph_t) (s : state) (E : list (list graph_edge_t))
    (labels : list string) (descs : list (Z * string * Z * Z)) :
  graph_holds s graph E ->
  revoked_node_ids s = [] ->
  revoked_edge_ids s = [] ->
  length labels = length graph ->
  length descs = length (concat E) ->
  exists s1 nodes s2 es s3,
    delete_graph graph s = Some ([], s1)
    /\ create_new_nodes labels s1 = Some (nodes, s2)
    /\ node_id <$> nodes = node_id <$> graph
    /\ create_new_edges descs s2 = Some (es, s3)
    /\ edge_id <$> es = edge_ids_of E
    /\ revoked_node_ids s3 = []
    /\ revoked_edge_ids s3 = []
    /\ global_node_id s3 = global_node_id s
    /\ global_edge_id s3 = global_edge_id s.
Proof.
  intros HE Hn He Hlabels Hdescs.
  rewrite (delete_graph_spec _ _ _ HE), Hn, He.
  set (s1 := set_revoked_edge_ids ([] ++ edge_ids_of E)
               (set_revoked_node_ids ([] ++ (node_id <$> graph)) s)).
  destruct (create_new_nodes_from_pool labels s1 (node_id <$> graph) [])
    as (nodes & Hrun1 & Hids1 & _).
  { simpl. by rewrite app_nil_r. }
  { by rewrite length_fmap. }
  destruct (create_new_edges_from_pool descs (set_revoked_node_ids [] s1) (edge_ids_of E) [])
    as (es & Hrun2 & Hids2).
  { simpl. by rewrite app_nil_r. }
  { unfold edge_ids_of. by rewrite length_fmap. }
  exists s1, nodes, (set_revoked_node_ids [] s1), es,
    (set_revoked_edge_ids [] (set_revoked_node_ids [] s1)).
  repeat split; done.
Qed.

Lemma delete_graph_then_create_reuses_identifiers_witness :
  let s := mk_state 3 [] 2 [] [mk_cell (mk_edge 7 1 "a_b" 1 2) None] in
  let graph := [mk_node 1 "a" (Some 0%nat); mk_node 2 "b" None] in
  let E := [[mk_edge 7 1 "a_b" 1 2]; []] in
  exists s1 nodes s2 es s3,
    delete_graph graph s = Some ([], s1)
    /\ create_new_nodes ["x"; "y"]%string s1 = Some (nodes, s2)
    /\ node_id <$> nodes = node_id <$> graph
    /\ create_new_edges [(0, "e"%string, 2, 1)] s2 = Some (es, s3)
    /\ edge_id <$> es = edge_ids_of E
    /\ revoked_node_ids s3 = []
    /\ revoked_edge_ids s3 = []
    /\ global_node_id s3 = global_node_id s
    /\ global_edge_id s3 = global_edge_id s.
Proof.
  intros s graph E.
  apply (delete_graph_then_create_reuses_identifiers graph s E); try reflexivity.
  concrete_graph_holds.
Defined.

(** ** Numbers as strings *)

Lemma count_digits_spec (fuel : nat) :
  forall (tmp : Z) (digits : nat),
    0 < tmp -> Z.log2 tmp < Z.of_nat fuel ->
    exists k : nat,
      count_digits fuel tmp digits = (digits + S k)%nat
      /\ 10 ^ Z.of_nat k <= tmp < 10 ^ Z.of_nat (S k).
Proof.
  induction fuel as [|fuel IH]; intros tmp digits Hpos Hlog.
  - pose proof (Z.log2_nonneg tmp). lia.
  - simpl. destruct (Z.eqb_spec tmp 0) as [->|_]; [lia|].
    rewrite Z.quot_div_nonneg by lia.
    destruct (Z_lt_le_dec tmp 10) as [Hsmall|Hbig].
    + exists O. rewrite Z.div_small by lia.
      split; [|simpl; lia]. destruct fuel; simpl; lia.
    + assert (0 < tmp / 10) as Hq by (apply Z.div_str_pos; lia).
      destruct (IH (tmp / 10) (S digits) Hq) as (k & Hk & Hlo & Hhi).
      { assert (Z.log2 (tmp / 10) <= Z.log2 (tmp / 2)) as H1.
        { apply Z.log2_le_mono. apply Z.div_le_compat_l; lia. }
        assert (Z.log2 (tmp / 2) = Z.log2 tmp - 1) as H2.
        { change (tmp / 2) with (tmp / 2 ^ 1).
          rewrite <- (Z.shiftr_div_pow2 tmp 1) by lia. rewrite Z.log2_shiftr by lia.
          assert (1 <= Z.log2 tmp) by (apply Z.log2_le_pow2; lia). lia. }
        lia. }
      exists (S k). split; [rewrite Hk; lia|].
      rewrite !Nat2Z.inj_succ, !Z.pow_succ_r in * by lia.
      pose proof (Z.mul_div_le tmp 10). pose proof (Z.mod_pos_bound tmp 10).
      pose proof (Z.div_mod tmp 10). lia.
Qed.

Lemma digit_of_char_of_Z (d : Z) :
  0 <= d <= 9 -> digit_of_char (char_of_Z (ZERO_CHAR + d)) = d.
Proof.
  intros Hd. unfold digit_of_char, char_of_Z, ZERO_CHAR.
  rewrite Z.mod_small by lia. rewrite Ascii.N_ascii_embedding by lia. lia.
Qed.

Lemma write_digits_spec (n : nat) :
  forall (tmp acc : Z),
    0 <= tmp < 10 ^ Z.of_nat n ->
    decimal_value_from acc (write_digits n tmp) = acc * 10 ^ Z.of_nat n + tmp
    /\ String.length (write_digits n tmp) = n
    /\ forall c, In c (list_ascii_of_string (write_digits n tmp)) -> 0 <= digit_of_char c <= 9.
Proof.
  induction n as [|n IH]; intros tmp acc Htmp.
  - simpl in *. split; [lia|]. split; [done|]. intros c [].
  - rewrite Nat2Z.inj_succ, Z.pow_succ_r in Htmp by lia.
    cbn [write_digits]. set (divider := 10 ^ Z.of_nat n) in *.
    assert (0 < divider) as Hdiv by (apply Z.pow_pos_nonneg; lia).
    rewrite Z.quot_div_nonneg by lia.
    assert (0 <= tmp / divider <= 9) as Hdigit.
    { split; [apply Z.div_pos; lia|].
      assert (tmp / divider < 10); [|lia]. apply Z.div_lt_upper_bound; lia. }
    assert (tmp - tmp / divider * divider = tmp mod divider) as Hrest.
    { pose proof (Z.div_mod tmp divider). lia. }
    rewrite Hrest.
    destruct (IH (tmp mod divider) (10 * acc + tmp / divider)) as (Hv & Hl & Hd).
    { apply Z.mod_pos_bound. lia. }
    cbn [decimal_value_from String.length list_ascii_of_string].
    rewrite digit_of_char_of_Z by done. split; [|split].
    + rewrite Hv. rewrite Nat2Z.inj_succ, Z.pow_succ_r by lia. fold divider.
      pose proof (Z.div_mod tmp divider). lia.
    + by rewrite Hl.
    + intros c [<-|Hc]; [by rewrite digit_of_char_of_Z|by apply Hd].
Qed.

Lemma int_to_string_value (val : Z) :
  0 < val ->
  decimal_value (int_to_string val) = val
  /\ (forall c, In c (list_ascii_of_string (int_to_string val)) ->
        0 <= digit_of_char c <= 9)
  /\ exists c rest, int_to_string val = String c rest /\ 1 <= digit_of_char c.
Proof.
  intros Hpos. unfold int_to_string, decimal_value.
  destruct (count_digits_spec (S (Z.to_nat (Z.log2 (Z.abs val)))) val O Hpos)
    as (k & -> & Hlo & Hhi).
  { rewrite Z.abs_eq by lia. pose proof (Z.log2_nonneg val). lia. }
  simpl plus.
  destruct (write_digits_spec (S k) val 0) as (Hv & _ & Hd); [lia|].
  split; [rewrite Hv; lia|]. split; [done|].
  cbn [write_digits]. eexists _, _. split; [reflexivity|].
  assert (0 < 10 ^ Z.of_nat k) as Hdiv by (apply Z.pow_pos_nonneg; lia).
  rewrite Z.quot_div_nonneg by lia.
  rewrite Nat2Z.inj_succ, Z.pow_succ_r in Hhi by lia.
  assert (1 <= val / 10 ^ Z.of_nat k <= 9) as Hdigit.
  { split; [apply Z.div_le_lower_bound; lia|].
    assert (val / 10 ^ Z.of_nat k < 10); [|lia]. apply Z.div_lt_upper_bound; lia. }
  rewrite digit_of_char_of_Z by lia. lia.
Qed.

(** Two positive numbers with the same digits are equal. *)
Lemma int_to_string_inj (a b : Z) :
  0 < a -> 0 < b -> int_to_string a = int_to_string b -> a = b.
Proof.
  intros Ha Hb Heq.
  destruct (int_to_string_value a Ha) as (<- & _).
  destruct (int_to_string_value b Hb) as (<- & _).
  by rewrite Heq.
Qed.

(** X18. [int_to_string] writes a positive [long] as its decimal
    digits, the most significant first and without a leading zero, so
    that reading the digits back gives the number; for 0 it returns the
    empty string, not the digit 0. *)
Theorem int_to_string_decimal (val : Z) :
  int_to_string 0 = EmptyString
  /\ (0 < val < 2 ^ 63 ->
      decimal_value (int_to_string val) = val
      /\ (forall c, In c (list_ascii_of_string (int_to_string val)) ->
            0 <= digit_of_char c <= 9)
      /\ exists c rest, int_to_string val = String c rest /\ 1 <= digit_of_char c).
Proof.
  split; [done|]. intros [Hpos _]. by apply int_to_string_value.
Qed.

Lemma int_to_string_decimal_witness :
  decimal_value (int_to_string 1203) = 1203
  /\ (forall c, In c (list_ascii_of_string (int_to_string 1203)) ->
        0 <= digit_of_char c <= 9)
  /\ exists c rest, int_to_string 1203 = String c rest /\ 1 <= digit_of_char c.
Proof.
  apply (proj2 (int_to_string_decimal 1203)). split; [lia|reflexivity].
Defined.


(** ** Duplicated node labels *)

Lemma strconcat_inj (sub a b : string) :
  strconcat sub a = strconcat sub b -> a = b.
Proof.
  unfold strconcat. induction sub as [|c sub IH]; simpl; [done|].
  intros H. injection H as H. by apply IH.
Qed.

Lemma relabel_values_of_length (k : nat) (sub : string) (js : list nat) :
  forall graph : graph_t, length (relabel_values_of k js sub graph) = length graph.
Proof.
  induction js as [|j js IH]; intros graph; simpl; [done|].
  destruct (graph !! k) as [p|]; [|done]. destruct (graph !! j) as [p2|]; [|done].
  destruct (negb (k =? j)%nat && String.eqb (node_label p) (node_label p2)); [|apply IH].
  by rewrite IH, length_insert.
Qed.

(** The inner loop, position by position: the node at a visited
    position other than [k] is relabelled when it carries the label of
    the node at [k]. *)
Lemma relabel_values_of_lookup (k : nat) (sub : string) (p : graph_node_t) (js : list nat) :
  forall (graph : graph_t) (j : nat),
    graph !! k = Some p ->
    NoDup js ->
    (forall i, i ∈ js -> (i < length graph)%nat) ->
    relabel_values_of k js sub graph !! j
    = (fun n => if decide (j ∈ js /\ j <> k /\ node_label p = node_label n)
                then relabelled sub n else n) <$> graph !! j.
Proof.
  induction js as [|j0 js IH]; intros graph j Hk Hnd Hlt.
  - cbn [relabel_values_of]. destruct (graph !! j) as [n|]; [|done]. cbn [fmap option_fmap option_map].
    rewrite decide_False; [done|]. intros [H _]. by apply elem_of_nil in H.
  - apply NoDup_cons in Hnd as [Hj0 Hnd].
    destruct (lookup_lt_is_Some_2 graph j0) as [p2 Hp2]; [apply Hlt; left|].
    cbn [relabel_values_of]. rewrite Hk, Hp2.
    assert (forall i, i ∈ js -> (i < length graph)%nat) as Hlt'
      by (intros i Hi; apply Hlt; by right).
    destruct (negb (k =? j0)%nat && String.eqb (node_label p) (node_label p2)) eqn:Hcond.
    + apply andb_prop in Hcond as [Hne Heq].
      apply negb_true_iff, Nat.eqb_neq in Hne. apply String.eqb_eq in Heq.
      rewrite IH; [|by rewrite list_lookup_insert_ne|done|by intros i Hi; rewrite length_insert; apply Hlt'].
      destruct (decide (j = j0)) as [->|Hjj0].
      * rewrite list_lookup_insert_eq by by eapply lookup_lt_Some.
        rewrite Hp2. cbn [fmap option_fmap option_map]. rewrite decide_False by (intros [H _]; done).
        rewrite decide_True; [done|]. split; [left|]. split; [done|done].
      * rewrite list_lookup_insert_ne by done.
        destruct (graph !! j) as [n|]; [|done]. cbn [fmap option_fmap option_map]. f_equal.
        destruct (decide (j ∈ js /\ j <> k /\ node_label p = node_label n)) as [(H1 & H2 & H3)|Hno].
        -- rewrite decide_True; [done|]. split; [by right|done].
        -- rewrite decide_False; [done|]. intros (H1 & H2 & H3). apply Hno.
           apply elem_of_cons in H1 as [H1|H1]; done.
    + rewrite IH by done.
      destruct (decide (j = j0)) as [->|Hjj0].
      * rewrite Hp2. cbn [fmap option_fmap option_map]. rewrite decide_False by (intros [H _]; done).
        rewrite decide_False; [done|]. intros (_ & H2 & H3).
        apply andb_false_iff in Hcond as [Hc|Hc].
        -- apply negb_false_iff, Nat.eqb_eq in Hc. by subst.
        -- apply String.eqb_neq in Hc. done.
      * destruct (graph !! j) as [n|]; [|done]. cbn [fmap option_fmap option_map]. f_equal.
        destruct (decide (j ∈ js /\ j <> k /\ node_label p = node_label n)) as [(H1 & H2 & H3)|Hno].
        -- rewrite decide_True; [done|]. split; [by right|done].
        -- rewrite decide_False; [done|]. intros (H1 & H2 & H3). apply Hno.
           apply elem_of_cons in H1 as [H1|H1]; done.
Qed.

Section DuplicatedLabels.
  Variable graph0 : graph_t.
  Variable sub : string.
  Hypothesis ids_distinct : NoDup (node_id <$> graph0).
  Hypothesis ids_positive : forall n, n ∈ graph0 -> 0 < node_id n.
  Hypothesis labels_fresh :
    forall n m, n ∈ graph0 -> m ∈ graph0 -> node_label n <> node_label (relabelled sub m).

Lemma relabelled_label_inj (i j : nat) (a b : graph_node_t) :
  graph0 !! i = Some a -> graph0 !! j = Some b ->
  node_label (relabelled sub a) = node_label (relabelled sub b) -> i = j.
Proof using ids_distinct ids_positive.
  intros Ha Hb Heq. simpl in Heq. apply strconcat_inj in Heq.
  apply int_to_string_inj in Heq;
    [|apply ids_positive; by eapply list_elem_of_lookup_2..].
  eapply NoDup_lookup; [exact ids_distinct| |].
  - by rewrite list_lookup_fmap, Ha.
  - rewrite list_lookup_fmap, Hb. simpl. by rewrite Heq.
Qed.

Lemma label_in_take (k : nat) (label : string) :
  label ∈ node_label <$> take k graph0
  <-> exists i n, (i < k)%nat /\ graph0 !! i = Some n /\ node_label n = label.
Proof.
  rewrite list_elem_of_fmap. split.
  - intros (n & -> & Hn). apply list_elem_of_lookup_1 in Hn as [i Hi].
    apply lookup_take_Some in Hi as [Hi Hlt]. by exists i, n.
  - intros (i & n & Hlt & Hi & <-). exists n. split; [done|].
    apply (list_elem_of_lookup_2 _ i). by rewrite lookup_take_lt.
Qed.

(** After the positions before [k] have been the outer [ptr], a node
    has been relabelled exactly when an earlier node, among those
    positions, carries its label. *)
Lemma relabel_step (k : nat) (g : graph_t) :
  (k < length graph0)%nat ->
  length g = length graph0 ->
  (forall j n0, graph0 !! j = Some n0 ->
     g !! j = Some (if decide (node_label n0 ∈ node_label <$> take (j `min` k) graph0)
                    then relabelled sub n0 else n0)) ->
  forall j n0, graph0 !! j = Some n0 ->
    relabel_values_of k (seq 0 (length g)) sub g !! j
    = Some (if decide (node_label n0 ∈ node_label <$> take (j `min` S k) graph0)
            then relabelled sub n0 else n0).
Proof using ids_distinct ids_positive labels_fresh.
  intros Hk Hlen Hinv j n0 Hj.
  destruct (lookup_lt_is_Some_2 graph0 k Hk) as [nk Hnk].
  pose proof (Hinv k nk Hnk) as Hgk. rewrite Nat.min_id in Hgk.
  pose proof (Hinv j n0 Hj) as Hgj.
  assert (j < length graph0)%nat as Hjlt by by eapply lookup_lt_Some.
  rewrite (relabel_values_of_lookup k sub _ _ g j Hgk);
    [|apply NoDup_seq|intros i Hi; apply elem_of_seq in Hi; lia].
  rewrite Hgj. cbn [fmap option_fmap option_map]. f_equal.
  assert (n0 ∈ graph0) as Hn0 by by eapply list_elem_of_lookup_2.
  assert (nk ∈ graph0) as Hnk0 by by eapply list_elem_of_lookup_2.
  destruct (decide (j ∈ seq 0 (length g) /\ j <> k /\ _)) as [(_ & Hjk & Heq)|Hno].
  - (* the inner test succeeds *)
    destruct (decide (node_label nk ∈ node_label <$> take k graph0)) as [Hck|Hck];
      destruct (decide (node_label n0 ∈ node_label <$> take (j `min` k) graph0)) as [Hcj|Hcj].
    + exfalso. apply Hjk. symmetry. by eapply relabelled_label_inj.
    + exfalso. by eapply (labels_fresh n0 nk).
    + exfalso. by eapply (labels_fresh nk n0).
    + assert (k < j)%nat as Hlt.
      { destruct (Nat.lt_ge_cases k j) as [|Hge]; [done|]. exfalso. apply Hck.
        apply label_in_take. exists j, n0. split; [lia|]. split; [done|]. by symmetry. }
      rewrite decide_True; [done|].
      apply label_in_take. exists k, nk. split; [lia|]. split; [done|]. done.
  - (* the inner test fails *)
    destruct (decide (node_label n0 ∈ node_label <$> take (j `min` k) graph0)) as [Hcj|Hcj].
    + rewrite decide_True; [done|].
      apply label_in_take in Hcj as (i & ni & Hi & Hni & Hl).
      apply label_in_take. exists i, ni. split; [lia|done].
    + rewrite decide_False; [done|]. intros Hc.
      apply label_in_take in Hc as (i & ni & Hi & Hni & Hl).
      destruct (decide (i = k)) as [->|Hik].
      * assert (ni = nk) as -> by congruence.
        apply Hno. split; [apply elem_of_seq; lia|]. split; [lia|].
        destruct (decide (node_label nk ∈ node_label <$> take k graph0)) as [Hck|Hck]; [|done].
        exfalso. apply Hcj. apply label_in_take in Hck as (i' & ni' & Hi' & Hni' & Hl').
        apply label_in_take. exists i', ni'. split; [lia|]. split; [done|]. congruence.
      * apply Hcj. apply label_in_take. exists i, ni. split; [lia|done].
Qed.

Lemma relabel_values_spec (m : nat) :
  forall (k : nat) (g : graph_t),
    (k + m = length graph0)%nat ->
    length g = length graph0 ->
    (forall j n0, graph0 !! j = Some n0 ->
       g !! j = Some (if decide (node_label n0 ∈ node_label <$> take (j `min` k) graph0)
                      then relabelled sub n0 else n0)) ->
    length (relabel_values (seq k m) sub g) = length graph0
    /\ forall j n0, graph0 !! j = Some n0 ->
         relabel_values (seq k m) sub g !! j
         = Some (if decide (node_label n0 ∈ node_label <$> take j graph0)
                 then relabelled sub n0 else n0).
Proof using ids_distinct ids_positive labels_fresh.
  induction m as [|m IH]; intros k g Hkm Hlen Hinv.
  - simpl. split; [done|]. intros j n0 Hj. rewrite (Hinv j n0 Hj).
    apply lookup_lt_Some in Hj. by rewrite Nat.min_l by lia.
  - cbn [seq relabel_values]. apply IH.
    + lia.
    + by rewrite relabel_values_of_length.
    + apply relabel_step; [lia|done|done].
Qed.

Lemma relabel_all_values_lookup (j : nat) (n0 : graph_node_t) :
  graph0 !! j = Some n0 ->
  relabel_all_values graph0 sub !! j
  = Some (if decide (node_label n0 ∈ node_label <$> take j graph0)
          then relabelled sub n0 else n0).
Proof using ids_distinct ids_positive labels_fresh.
  unfold relabel_all_values.
  apply (relabel_values_spec (length graph0) 0 graph0); [done|done|].
  intros i ni Hi. rewrite Nat.min_0_r, take_0, fmap_nil.
  rewrite decide_False; [done|]. apply not_elem_of_nil.
Qed.

Lemma relabel_all_values_length :
  length (relabel_all_values graph0 sub) = length graph0.
Proof using ids_distinct ids_positive labels_fresh.
  unfold relabel_all_values.
  apply (relabel_values_spec (length graph0) 0 graph0); [done|done|].
  intros i ni Hi. rewrite Nat.min_0_r, take_0, fmap_nil.
  rewrite decide_False; [done|]. apply not_elem_of_nil.
Qed.

End DuplicatedLabels.

Lemma relabel_all_values_distinct (graph : graph_t) (substitute : string) :
  NoDup (node_id <$> graph) ->
  (forall n, n ∈ graph -> 0 < node_id n) ->
  (forall n m, n ∈ graph -> m ∈ graph -> node_label n <> node_label (relabelled substitute m)) ->
  NoDup (node_label <$> relabel_all_values graph substitute)
  /\ node_id <$> relabel_all_values graph substitute = node_id <$> graph
  /\ node_edges <$> relabel_all_values graph substitute = node_edges <$> graph
  /\ forall j n, graph !! j = Some n ->
       relabel_all_values graph substitute !! j
       = Some (if decide (node_label n ∈ node_label <$> take j graph)
               then relabelled substitute n else n).
Proof.
  intros Hnd Hpos Hfresh.
  pose proof (relabel_all_values_lookup graph substitute Hnd Hpos Hfresh) as Hlook.
  pose proof (relabel_all_values_length graph substitute Hnd Hpos Hfresh) as Hlen.
  set (graph' := relabel_all_values graph substitute) in *.
  split; [|split; [|split; [|done]]].
  - apply NoDup_alt. intros i j label Hi Hj.
    rewrite list_lookup_fmap in Hi, Hj.
    destruct (graph' !! i) as [ci|] eqn:Hci; [|done].
    destruct (graph' !! j) as [cj|] eqn:Hcj; [|done].
    simpl in Hi, Hj. injection Hi as Hi. injection Hj as Hj.
    destruct (lookup_lt_is_Some_2 graph i) as [ni Hni];
      [rewrite <- Hlen; by eapply lookup_lt_Some|].
    destruct (lookup_lt_is_Some_2 graph j) as [nj Hnj];
      [rewrite <- Hlen; by eapply lookup_lt_Some|].
    rewrite (Hlook i ni Hni) in Hci. rewrite (Hlook j nj Hnj) in Hcj.
    injection Hci as <-. injection Hcj as <-.
    assert (ni ∈ graph) as Hin_i by by eapply list_elem_of_lookup_2.
    assert (nj ∈ graph) as Hin_j by by eapply list_elem_of_lookup_2.
    destruct (decide (node_label ni ∈ _)) as [Hsi|Hsi];
      destruct (decide (node_label nj ∈ _)) as [Hsj|Hsj].
    + apply (relabelled_label_inj graph substitute Hnd Hpos i j ni nj Hni Hnj). congruence.
    + exfalso. apply (Hfresh nj ni Hin_j Hin_i). congruence.
    + exfalso. apply (Hfresh ni nj Hin_i Hin_j). congruence.
    + destruct (Nat.lt_trichotomy i j) as [Hlt|[Heq|Hgt]]; [|done|].
      * exfalso. apply Hsj. apply label_in_take. exists i, ni. split; [done|].
        split; [done|congruence].
      * exfalso. apply Hsi. apply label_in_take. exists j, nj. split; [done|].
        split; [done|congruence].
  - apply list_eq. intros j. rewrite !list_lookup_fmap.
    destruct (graph !! j) as [n|] eqn:Hn.
    + rewrite (Hlook j n Hn). simpl. by destruct (decide _).
    + apply lookup_ge_None in Hn. rewrite <- Hlen in Hn. apply lookup_ge_None in Hn.
      by rewrite Hn.
  - apply list_eq. intros j. rewrite !list_lookup_fmap.
    destruct (graph !! j) as [n|] eqn:Hn.
    + rewrite (Hlook j n Hn). simpl. by destruct (decide _).
    + apply lookup_ge_None in Hn. rewrite <- Hlen in Hn. apply lookup_ge_None in Hn.
      by rewrite Hn.
Qed.

(** *** The loops on buffers that no two nodes share *)

Lemma NoDup_insert_fresh {A : Type} (l : list A) (i : nat) (x : A) :
  NoDup l -> x ∉ l -> NoDup (<[i := x]> l).
Proof.
  intros Hnd Hx. apply NoDup_alt. intros i1 i2 y H1 H2.
  destruct (decide (i1 = i)) as [->|Hne1], (decide (i2 = i)) as [->|Hne2]; [done| | |].
  - rewrite list_lookup_insert_ne in H2 by done.
    apply list_lookup_insert_Some in H1 as [(_ & <- & _)|(? & _)]; [|done].
    exfalso. apply Hx. by eapply list_elem_of_lookup_2.
  - rewrite list_lookup_insert_ne in H1 by done.
    apply list_lookup_insert_Some in H2 as [(_ & <- & _)|(? & _)]; [|done].
    exfalso. apply Hx. by eapply list_elem_of_lookup_2.
  - rewrite list_lookup_insert_ne in H1, H2 by done.
    by eapply NoDup_lookup.
Qed.

Lemma labels_in_length st gp gv : labels_in st gp gv -> length gp = length gv.
Proof. intros [H _]. by eapply Forall2_length. Qed.

Lemma labels_in_lookup st gp gv j p :
  labels_in st gp gv -> gp !! j = Some p ->
  exists v a, gv !! j = Some v /\ ref_id p = node_id v /\ ref_edges p = node_edges v
              /\ ref_label p = Some a /\ st !! a = Some (Some (node_label v)).
Proof.
  intros [H _] Hp. destruct (Forall2_lookup_l _ _ _ _ _ H Hp) as (v & Hv & Hid & Hed & Hread).
  unfold read_label in Hread. destruct (ref_label p) as [a|]; [|done].
  destruct (st !! a) as [[l|]|] eqn:Ha; try done. injection Hread as ->.
  by exists v, a.
Qed.

(** One duplicate gets its new label. *)
Lemma labels_in_relabel st gp gv j p2 v2 a2 sub :
  labels_in st gp gv ->
  gp !! j = Some p2 -> gv !! j = Some v2 -> ref_label p2 = Some a2 ->
  labels_in
    ((<[a2 := None]> st ++ [Some (int_to_string (ref_id p2))])
       ++ [Some (strconcat sub (int_to_string (ref_id p2)))])
    (<[j := mk_node_ref (ref_id p2)
              (Some (length (<[a2 := None]> st ++ [Some (int_to_string (ref_id p2))])))
              (ref_edges p2)]> gp)
    (<[j := relabelled sub v2]> gv).
Proof.
  intros Hin Hp2 Hv2 Ha2. pose proof Hin as [Hall Hnd].
  destruct (labels_in_lookup _ _ _ _ _ Hin Hp2) as (v2' & a2' & Hv2' & Hid2 & Hed2 & Ha2' & Hst2).
  assert (v2' = v2) as -> by congruence. assert (a2' = a2) as -> by congruence.
  split.
  - apply Forall2_same_length_lookup_2.
    { rewrite !length_insert. by eapply Forall2_length. }
    intros i x y Hx Hy.
    destruct (decide (i = j)) as [->|Hne].
    + apply list_lookup_insert_Some in Hx as [(_ & <- & _)|(? & _)]; [|done].
      apply list_lookup_insert_Some in Hy as [(_ & <- & _)|(? & _)]; [|done]. simpl.
      split; [done|]. split; [done|].
      rewrite lookup_app_r by done. rewrite Nat.sub_diag. simpl. by rewrite Hid2.
    + rewrite list_lookup_insert_ne in Hx by done.
      rewrite list_lookup_insert_ne in Hy by done.
      destruct (labels_in_lookup _ _ _ _ _ Hin Hx) as (y' & a & Hy' & Hid & Hed & Ha & Hst).
      assert (y' = y) as -> by congruence.
      split; [done|]. split; [done|]. rewrite Ha. simpl.
      assert (a <> a2) as Hdiff.
      { intros ->. apply Hne. apply (NoDup_lookup _ i j (Some a2) Hnd).
        - rewrite list_lookup_fmap, Hx. simpl. by rewrite Ha.
        - rewrite list_lookup_fmap, Hp2. simpl. by rewrite Ha2. }
      assert (a < length st)%nat as Hlt by by eapply lookup_lt_Some.
      rewrite lookup_app_l by (rewrite length_app, length_insert; simpl; lia).
      rewrite lookup_app_l by (rewrite length_insert; lia).
      rewrite list_lookup_insert_ne by done. by rewrite Hst.
  - rewrite list_fmap_insert. simpl. apply NoDup_insert_fresh; [done|].
    intros Hold. apply list_elem_of_fmap in Hold as (x & Hx & Hxin).
    apply list_elem_of_lookup_1 in Hxin as [i Hi].
    destruct (labels_in_lookup _ _ _ _ _ Hin Hi) as (y & a & _ & _ & _ & Ha & Hst).
    rewrite Ha in Hx. injection Hx as Hx.
    apply lookup_lt_Some in Hst. rewrite length_app, length_insert in Hx. simpl in Hx. lia.
Qed.

Lemma relabel_duplicates_of_values (k : nat) (sub : string) (js : list nat) :
  forall (gp : list graph_node_ref) (st : list (option string)) (gv : graph_t),
    labels_in st gp gv ->
    (k < length gp)%nat ->
    (forall j, j ∈ js -> (j < length gp)%nat) ->
    exists gp' st',
      relabel_duplicates_of k js sub gp st = Some (gp', st')
      /\ labels_in st' gp' (relabel_values_of k js sub gv)
      /\ length gp' = length gp.
Proof.
  induction js as [|j js IH]; intros gp st gv Hin Hk Hjs.
  - by exists gp, st.
  - destruct (lookup_lt_is_Some_2 gp k Hk) as [p Hp].
    destruct (lookup_lt_is_Some_2 gp j) as [p2 Hp2]; [apply Hjs; left|].
    destruct (labels_in_lookup _ _ _ _ _ Hin Hp) as (v & a & Hv & Hid & Hed & Ha & Hst).
    destruct (labels_in_lookup _ _ _ _ _ Hin Hp2) as (v2 & a2 & Hv2 & Hid2 & Hed2 & Ha2 & Hst2).
    assert (forall i, i ∈ js -> (i < length gp)%nat) as Hjs' by (intros i Hi; apply Hjs; by right).
    cbn [relabel_duplicates_of relabel_values_of]. rewrite Hp, Hp2, Hv, Hv2.
    destruct (Nat.eqb_spec k j) as [->|Hne]; cbn [negb andb].
    + by apply IH.
    + rewrite Ha, Ha2. cbn [read_label]. rewrite Hst, Hst2.
      destruct (String.eqb (node_label v) (node_label v2)) eqn:Heq; [|by apply IH].
      unfold free_label. rewrite Hst2. cbv zeta.
      destruct (IH _ _ _ (labels_in_relabel _ _ _ _ _ _ _ sub Hin Hp2 Hv2 Ha2))
        as (gp' & st' & Hrun & Hin' & Hlen').
      { by rewrite length_insert. }
      { intros i Hi. rewrite length_insert. by apply Hjs'. }
      exists gp', st'. split; [done|]. split; [done|]. by rewrite Hlen', length_insert.
Qed.

Lemma relabel_duplicates_values (sub : string) (ks : list nat) :
  forall (gp : list graph_node_ref) (st : list (option string)) (gv : graph_t),
    labels_in st gp gv ->
    (forall k, k ∈ ks -> (k < length gp)%nat) ->
    exists gp' st',
      relabel_duplicates ks sub gp st = Some (gp', st')
      /\ labels_in st' gp' (relabel_values ks sub gv).
Proof.
  induction ks as [|k ks IH]; intros gp st gv Hin Hks.
  - by exists gp, st.
  - cbn [relabel_duplicates relabel_values].
    destruct (relabel_duplicates_of_values k sub (seq 0 (length gp)) gp st gv Hin)
      as (gp1 & st1 & Hrun1 & Hin1 & Hlen1).
    { apply Hks. left. }
    { intros j Hj. apply elem_of_seq in Hj. lia. }
    rewrite Hrun1. rewrite <- (labels_in_length _ _ _ Hin).
    apply IH; [done|]. intros i Hi. rewrite Hlen1. apply Hks. by right.
Qed.

(** X19. [change_duplicated_node_labels] on a graph whose nodes hold
    pairwise different, live label buffers, whose identifiers are
    positive and pairwise distinct, and none of whose labels reads as
    the substitute followed by the digits of one of its identifiers:
    the first node that carries a label keeps it, every later node
    with that label has its buffer freed and gets a new buffer that
    holds the substitute followed by the digits of its own
    identifier, and afterwards no two nodes carry the same label.
    Identifiers and [edges] pointers are not touched.  [contents]
    gives the nodes with the characters of their labels. *)
Theorem change_duplicated_node_labels_makes_labels_distinct
    (graph : list graph_node_ref) (st : list (option string)) (contents : graph_t)
    (substitute : string) :
  labels_in st graph contents ->
  NoDup (node_id <$> contents) ->
  (forall n, n ∈ contents -> 0 < node_id n < id_modulus) ->
  (forall n m, n ∈ contents -> m ∈ contents ->
     node_label n <> strconcat substitute (int_to_string (node_id m))) ->
  exists graph' st' contents',
    change_duplicated_node_labels graph substitute st = Some (graph', st')
    /\ labels_in st' graph' contents'
    /\ NoDup (node_label <$> contents')
    /\ node_id <$> contents' = node_id <$> contents
    /\ node_edges <$> contents' = node_edges <$> contents
    /\ forall j n, contents !! j = Some n ->
         (node_label n ∉ node_label <$> take j contents -> contents' !! j = Some n)
         /\ (node_label n ∈ node_label <$> take j contents ->
             contents' !! j
             = Some (set_node_label (strconcat substitute (int_to_string (node_id n))) n)).
Proof.
  intros Hin Hnd Hrange Hfresh.
  assert (forall n, n ∈ contents -> 0 < node_id n) as Hpos by (intros n Hn; by apply Hrange).
  destruct (relabel_all_values_distinct contents substitute Hnd Hpos Hfresh)
    as (Hdistinct & Hids & Hedges & Hlook).
  destruct (relabel_duplicates_values substitute (seq 0 (length graph)) graph st contents Hin)
    as (graph' & st' & Hrun & Hin').
  { intros k Hk. apply elem_of_seq in Hk. lia. }
  exists graph', st', (relabel_all_values contents substitute).
  unfold change_duplicated_node_labels. split; [done|].
  rewrite (labels_in_length _ _ _ Hin) in Hin'.
  split; [done|]. split; [done|]. split; [done|]. split; [done|].
  intros j n Hn. rewrite (Hlook j n Hn). split; intros H.
  - by rewrite decide_False.
  - by rewrite decide_True.
Qed.

Lemma change_duplicated_node_labels_makes_labels_distinct_witness :
  let st := [Some "a"; Some "b"; Some "a"]%string in
  let graph := [mk_node_ref 1 (Some 0%nat) None; mk_node_ref 2 (Some 1%nat) None;
                mk_node_ref 3 (Some 2%nat) None] in
  let contents := [mk_node 1 "a" None; mk_node 2 "b" None; mk_node 3 "a" None] in
  exists graph' st' contents',
    change_duplicated_node_labels graph "n" st = Some (graph', st')
    /\ labels_in st' graph' contents'
    /\ NoDup (node_label <$> contents')
    /\ node_id <$> contents' = node_id <$> contents
    /\ node_edges <$> contents' = node_edges <$> contents
    /\ forall j n, contents !! j = Some n ->
         (node_label n ∉ node_label <$> take j contents -> contents' !! j = Some n)
         /\ (node_label n ∈ node_label <$> take j contents ->
             contents' !! j
             = Some (set_node_label (strconcat "n" (int_to_string (node_id n))) n)).
Proof.
  intros st graph contents.
  apply (change_duplicated_node_labels_makes_labels_distinct graph st contents "n").
  - split.
    + repeat (constructor; [by repeat split|]). constructor.
    + apply (bool_decide_unpack _). vm_compute. exact I.
  - apply (bool_decide_unpack _). vm_compute. exact I.
  - intros n Hn. repeat (apply elem_of_cons in Hn as [->|Hn]; [split; reflexivity|]).
    by apply elem_of_nil in Hn.
  - intros n m Hn Hm.
    repeat (apply elem_of_cons in Hn as [->|Hn];
            [repeat (apply elem_of_cons in Hm as [->|Hm]; [vm_compute; discriminate|]);
             by apply elem_of_nil in Hm|]).
    by apply elem_of_nil in Hn.
Defined.

(** ** Growing one list of a graph *)

(** A fresh edge is appended to the list of the node at position [k]:
    the other lists of the graph are not touched, the lists still
    share no cell, and the edge allocator agrees with the edges the
    graph now holds. *)
Lemma grow_row (G : graph_t) (C : list (list (nat * graph_edge_t))) (s : state)
    (k : nat) (n : graph_node_t) (l : list (nat * graph_edge_t))
    (w : Z) (label : string) (e0 e1 : Z) :
  graph_cells s G C ->
  NoDup (concat C).*1 ->
  edge_ids_ok s (edge_id <$> (concat C).*2) ->
  G !! k = Some n ->
  C !! k = Some l ->
  global_edge_id s + 1 < id_modulus ->
  exists i s1 p s',
    create_new_edge w label e0 e1 s = Some (mk_edge w i label e0 e1, s1)
    /\ append_edge (node_edges n) (mk_edge w i label e0 e1) s1 = Some (p, s')
    /\ graph_cells s' (<[k := set_node_edges p n]> G)
         (<[k := l ++ [(length (heap s), mk_edge w i label e0 e1)]]> C)
    /\ NoDup (concat (<[k := l ++ [(length (heap s), mk_edge w i label e0 e1)]]> C)).*1
    /\ edge_ids_ok s'
         (edge_id <$> (concat (<[k := l ++ [(length (heap s), mk_edge w i label e0 e1)]]> C)).*2)
    /\ global_node_id s' = global_node_id s
    /\ revoked_node_ids s' = revoked_node_ids s
    /\ global_edge_id s <= global_edge_id s' <= global_edge_id s + 1
    /\ length (heap s') = S (length (heap s))
    /\ heap s1 = heap s.
Proof.
  intros Hcells Hnd Hedges Hn Hl Hroom.
  destruct (create_new_edge_ok w label e0 e1 s _ Hedges Hroom)
    as (i & s1 & Hrun & Hedges1 & Hheap & Hgn & Hpn & Hg).
  set (e := mk_edge w i label e0 e1) in *.
  assert (graph_cells s1 G C) as Hcells1.
  { eapply graph_cells_frame; [exact Hcells|]. intros a _. by rewrite Hheap. }
  pose proof (take_drop_middle _ _ _ Hn) as HG.
  assert (length (take k G) = k) as Hlen.
  { apply length_take_le. apply lookup_lt_Some in Hn. lia. }
  revert HG Hlen. generalize (take k G) (drop (S k) G). intros g1 g2 HG Hlen. subst G.
  apply Forall2_app_inv_l in Hcells1 as (C1 & C' & Hc1 & Hc' & ->).
  apply Forall2_cons_inv_l in Hc' as (l' & C2 & Hl' & Hc2 & ->).
  assert (length C1 = k) as HlenC by (rewrite <- Hlen; symmetry; by eapply Forall2_length).
  rewrite <- HlenC, list_lookup_middle in Hl by done. injection Hl as ->.
  destruct (append_edge_spec s1 (node_edges n) l e Hl') as (p & h' & Happ & Hlc & Hlen' & _ & Hfr).
  exists i, s1, p, (set_heap h' s1). split; [done|]. split; [done|].
  rewrite <- Hlen at 1. rewrite <- HlenC. rewrite !insert_middle. rewrite <- Hheap.
  rewrite concat_app, concat_cons, !fmap_app in Hnd.
  apply NoDup_app in Hnd as (Hnd1 & Hd1 & Hnd').
  apply NoDup_app in Hnd' as (Hndl & Hdl & Hnd2).
  assert (forall a, a ∈ (concat (C1 ++ l :: C2)).*1 -> (a < length (heap s1))%nat) as Hlt.
  { intros a Ha. eapply graph_cells_lt; [|exact Ha].
    apply Forall2_app; [done|]. by constructor. }
  rewrite concat_app, concat_cons, !fmap_app in Hlt.
  split; [|split; [|split; [|split; [done|split; [done|split; [simpl; lia|split; [simpl; lia|done]]]]]]].
  - apply Forall2_app; [|constructor].
    + eapply graph_cells_frame; [exact Hc1|]. intros a Ha. simpl. apply Hfr.
      * intros Hin. apply (Hd1 a Ha). apply elem_of_app. by left.
      * apply Hlt. apply elem_of_app. by left.
    + done.
    + eapply graph_cells_frame; [exact Hc2|]. intros a Ha. simpl. apply Hfr.
      * intros Hin. by apply (Hdl a Hin).
      * apply Hlt. apply elem_of_app. right. apply elem_of_app. by right.
  - rewrite concat_app, concat_cons, !fmap_app. simpl.
    apply NoDup_app. split; [done|]. split.
    + intros a Ha [[Hin|Hin]%elem_of_app|Hin]%elem_of_app.
      * apply (Hd1 a Ha). apply elem_of_app. by left.
      * apply list_elem_of_singleton in Hin. subst a.
        assert (length (heap s1) < length (heap s1))%nat; [|lia].
        apply Hlt. apply elem_of_app. by left.
      * apply (Hd1 a Ha). apply elem_of_app. by right.
    + apply NoDup_app. split; [|split; [|done]].
      * apply NoDup_app. split; [done|]. split; [|apply NoDup_singleton].
        intros a Ha Hin%list_elem_of_singleton. subst a.
        assert (length (heap s1) < length (heap s1))%nat; [|lia].
        apply Hlt. apply elem_of_app. right. apply elem_of_app. by left.
      * intros a [Ha|Ha]%elem_of_app Hin; [by apply (Hdl a Ha)|].
        apply list_elem_of_singleton in Ha. subst a.
        assert (length (heap s1) < length (heap s1))%nat; [|lia].
        apply Hlt. apply elem_of_app. right. apply elem_of_app. by right.
  - unfold edge_ids_ok in *. simpl. eapply ids_ok_perm; [|exact Hedges1].
    rewrite !concat_app, !concat_cons, !fmap_app. simpl.
    rewrite <- !app_assoc. f_equiv. f_equiv. apply Permutation_app_comm.
Qed.

(** ** Structural copy *)

(** First loop of [create_graph_copy]: one fresh node per old node. *)
Lemma copy_nodes_spec (old : graph_t) :
  forall (acc : graph_t) (s : state) live,
    node_ids_ok s live ->
    global_node_id s + Z.of_nat (length old) < id_modulus ->
    exists fresh s',
      copy_nodes old acc s = Some (acc ++ fresh, s')
      /\ node_label <$> fresh = node_label <$> old
      /\ Forall (fun n => node_edges n = None) fresh
      /\ node_ids_ok s' (live ++ (node_id <$> fresh))
      /\ heap s' = heap s
      /\ global_edge_id s' = global_edge_id s
      /\ revoked_edge_ids s' = revoked_edge_ids s.
Proof.
  induction old as [|n old IH]; intros acc s live Hok Hroom.
  - exists [], s. cbn [copy_nodes]. unfold_monad. rewrite fmap_nil, !app_nil_r.
    split; [done|]. split; [done|]. split; [constructor|]. by split.
  - rewrite length_cons, Nat2Z.inj_succ in Hroom.
    destruct (create_new_node_ok (node_label n) s live Hok) as (i & s1 & Hrun & Hok1 & Hh & Hg & Hp & Hgn);
      [lia|].
    cbn [copy_nodes]. unfold bind at 1. rewrite Hrun.
    destruct (IH (append_node acc (mk_node i (node_label n) None)) s1 _ Hok1)
      as (fresh & s' & Hrun' & Hlab & Hnone & Hok' & Hh' & Hg' & Hp'); [lia|].
    rewrite Hrun'. exists (mk_node i (node_label n) None :: fresh), s'.
    unfold append_node. rewrite <- app_assoc. split; [done|].
    split; [by rewrite !fmap_cons, Hlab|]. split; [by constructor|].
    split; [by rewrite fmap_cons, <- app_assoc in *|].
    split; [congruence|]. split; congruence.
Qed.

(** [edge_at_clamped] stays on the cells of a well-formed list. *)
Lemma edge_at_clamped_chain h (j : nat) :
  forall (a : nat) l,
    chain h (Some a) l -> exists a4 c, edge_at_clamped h a j = Some a4 /\ h !! a4 = Some c.
Proof.
  induction j as [|j IH]; intros a l Hc.
  - destruct l as [|[b e] l]; [done|]. destruct Hc as (Hb & n & Ha & _).
    injection Hb as ->. simpl. rewrite Ha. by eexists _, _.
  - destruct l as [|[b e] l]; [done|]. destruct Hc as (Hb & n & Ha & Hc).
    injection Hb as ->. simpl. rewrite Ha. simpl. destruct n as [b'|].
    + by eapply IH.
    + by eexists _, _.
Qed.

Lemma adj_app es1 es2 c : adj (es1 ++ es2) c = adj es1 c || adj es2 c.
Proof. unfold adj. apply existsb_app. Qed.

Lemma adj_nonempty es c : adj es c = true -> es <> [].
Proof. by destruct es. Qed.

Lemma adjacency_ext ids ids' E E' :
  Forall2 (fun es es' => (fun c => if adj es c then 1 else 0) <$> ids
                         = (fun c => if adj es' c then 1 else 0) <$> ids') E E' ->
  adjacency ids E = adjacency ids' E'.
Proof.
  unfold adjacency. induction 1 as [|es es' E E' Hrow _ IH]; [done|].
  rewrite !fmap_cons. simpl. by rewrite Hrow, IH.
Qed.

Section Copy.
  Variable old : graph_t.
  Variable Cold : list (list (nat * graph_edge_t)).
  Variable cids : list Z.
  Variable old_mat : list Z.
  Hypothesis cids_distinct : NoDup cids.
  Hypothesis cids_length : length cids = length old.
  Hypothesis Cold_length : length Cold = length old.
  Hypothesis old_mat_eq :
    old_mat = adjacency (node_id <$> old) ((fun l => l.*2) <$> Cold).

Lemma old_mat_lookup (i j : nat) (l : list (nat * graph_edge_t)) (o : graph_node_t) :
  Cold !! i = Some l -> old !! j = Some o ->
  old_mat !! (j + i * length old)%nat = Some (if adj l.*2 (node_id o) then 1 else 0).
Proof using old_mat_eq.
  intros Hl Ho. rewrite old_mat_eq. rewrite <- (length_fmap node_id old).
  apply adjacency_lookup; by rewrite list_lookup_fmap, ?Hl, ?Ho.
Qed.

Lemma copy_inv_next (i : nat) (g : graph_t) Cg (s : state) :
  copy_inv old Cold old_mat cids i (length old) g Cg s ->
  copy_inv old Cold old_mat cids (S i) 0 g Cg s.
Proof.
  intros (H1 & H2 & H3 & H4 & H5).
  split; [done|]. split; [done|]. split; [done|]. split; [done|].
  intros i' row c Hrow. rewrite (H5 i' row c Hrow).
  assert ((if (i' <? i)%nat then length old else if (i' =? i)%nat then length old else O)
          = (if (i' <? S i)%nat then length old else if (i' =? S i)%nat then O else O)) as ->;
    [|done].
  destruct (Nat.ltb_spec i' i), (Nat.eqb_spec i' i), (Nat.ltb_spec i' (S i)),
    (Nat.eqb_spec i' (S i)); lia.
Qed.

(** One row of the copy: the columns from [jcur] on. *)
Lemma copy_row_spec (i : nat) (m : nat) :
  forall (jcur : nat) (g : graph_t) Cg (s : state),
    (i < length old)%nat ->
    (jcur + m = length old)%nat ->
    copy_inv old Cold old_mat cids i jcur g Cg s ->
    global_edge_id s + Z.of_nat m < id_modulus ->
    exists g' Cg' s',
      copy_row old old_mat (length old) i (seq jcur m) g s = Some (g', s')
      /\ copy_inv old Cold old_mat cids i (length old) g' Cg' s'
      /\ node_label <$> g' = node_label <$> g
      /\ global_node_id s' = global_node_id s
      /\ revoked_node_ids s' = revoked_node_ids s
      /\ global_edge_id s' <= global_edge_id s + Z.of_nat m.
Proof using cids_distinct cids_length Cold_length old_mat_eq.
  induction m as [|m IH]; intros jcur g Cg s Hi Hjm Hinv Hroom.
  - exists g, Cg, s. replace jcur with (length old) in Hinv by lia.
    cbn [seq copy_row]. unfold_monad.
    split; [done|]. split; [done|]. split; [done|]. split; [done|]. split; [done|]. lia.
  - destruct Hinv as (Hids & Hcells & Hnd & Hedges & Hrows).
    assert (length g = length old) as Hlen_g
      by (rewrite <- cids_length, <- Hids; by rewrite length_fmap).
    assert (length Cg = length old) as Hlen_Cg.
    { apply Forall2_length in Hcells. rewrite !length_app in Hcells. lia. }
    destruct (lookup_lt_is_Some_2 Cold i) as [li Hli]; [lia|].
    destruct (lookup_lt_is_Some_2 old i) as [oi Hoi]; [lia|].
    destruct (lookup_lt_is_Some_2 old jcur) as [oj Hoj]; [lia|].
    destruct (lookup_lt_is_Some_2 g i) as [ptr Hptr]; [lia|].
    destruct (lookup_lt_is_Some_2 g jcur) as [ptr2 Hptr2]; [lia|].
    destruct (lookup_lt_is_Some_2 Cg i) as [row Hrow]; [lia|].
    assert (cids !! jcur = Some (node_id ptr2)) as Hcj
      by (rewrite <- Hids, list_lookup_fmap, Hptr2; done).
    pose proof (old_mat_lookup i jcur li oj Hli Hoj) as Hflag.
    cbn [seq copy_row]. unfold bind at 1. unfold lift_option at 1. rewrite Hflag.
    destruct (adj li.*2 (node_id oj)) eqn:Hadj.
    + (* the cell is 1: an edge is created and appended *)
      change (1 =? 1) with true. cbn iota.
      unfold bind at 1. unfold lift_option at 1. rewrite Hptr.
      unfold bind at 1. unfold lift_option at 1. rewrite Hptr2.
      rewrite Nat.min_l by lia.
      unfold bind at 1. unfold lift_option at 1. rewrite Hoi.
      assert (chain (heap s) (node_edges oi) li) as Hchain_i.
      { apply Forall2_app_inv_l in Hcells as (C1 & C2 & Hc1 & Hc2 & Heq).
        apply app_inj_1 in Heq as [<- <-];
          [|apply Forall2_length in Hc1; lia].
        by eapply (Forall2_lookup_lr _ _ _ i) in Hc1. }
      destruct (node_edges oi) as [a|] eqn:Hedges_oi.
      2:{ apply adj_nonempty in Hadj. destruct li; [done|]. by destruct p, Hchain_i. }
      unfold bind at 1. unfold lift_option at 1.
      unfold bind at 1. unfold get_state at 1.
      destruct (edge_at_clamped_chain (heap s) jcur a li Hchain_i) as (a4 & c4 & Ha4 & Hc4).
      unfold bind at 1. unfold lift_option at 1. rewrite Ha4.
      unfold bind at 1. unfold load at 1. rewrite Hc4.
      destruct (grow_row (old ++ g) (Cold ++ Cg) s (length old + i) ptr row
                  (edge_weight (edge c4)) (edge_label (edge c4)) (node_id ptr) (node_id ptr2)
                  Hcells Hnd Hedges)
        as (eid & s1 & p & s' & Hrun1 & Hrun2 & Hcells' & Hnd' & Hedges' & Hgn & Hpn & Hge & Hheap' & _).
      { by rewrite lookup_app_r, Nat.add_comm, Nat.add_sub by lia. }
      { rewrite lookup_app_r by lia. by rewrite <- Cold_length, Nat.add_comm, Nat.add_sub. }
      { lia. }
      unfold bind at 1. rewrite Hrun1. unfold bind at 1. rewrite Hrun2.
      set (e := mk_edge (edge_weight (edge c4)) eid (edge_label (edge c4))
                  (node_id ptr) (node_id ptr2)) in *.
      rewrite (insert_app_r_alt old) in Hcells' by lia.
      rewrite (insert_app_r_alt Cold) in Hcells', Hnd', Hedges' by (rewrite Cold_length; lia).
      rewrite Cold_length in Hcells', Hnd', Hedges'.
      replace (length old + i - length old)%nat with i in Hcells', Hnd', Hedges' by lia.
      destruct (IH (S jcur) (<[i := set_node_edges p ptr]> g)
                  (<[i := row ++ [(length (heap s), e)]]> Cg) s')
        as (g' & Cg' & s'' & Hrun' & Hinv' & Hlab' & Hgn' & Hpn' & Hge'); [done|lia| |lia|].
      { split; [|split; [done|split; [done|split; [done|]]]].
        - rewrite list_fmap_insert. simpl. rewrite list_insert_id; [done|].
          by rewrite list_lookup_fmap, Hptr.
        - intros i' row' c Hrow'.
          destruct (decide (i' = i)) as [->|Hne].
          + rewrite list_lookup_insert_eq in Hrow' by lia. injection Hrow' as <-.
            rewrite fmap_app, adj_app. rewrite Nat.ltb_irrefl, Nat.eqb_refl.
            specialize (Hrows i row c Hrow). rewrite Nat.ltb_irrefl, Nat.eqb_refl in Hrows.
            rewrite orb_true_iff, Hrows. unfold adj. simpl. rewrite orb_false_r.
            split.
            * intros [(j & Hj & Hrest)|Hc].
              -- exists j. split; [lia|done].
              -- apply Z.eqb_eq in Hc. subst c. exists jcur. split; [lia|]. done.
            * intros (j & Hj & Hm & Hc).
              destruct (decide (j = jcur)) as [->|Hjne].
              -- right. apply Z.eqb_eq. congruence.
              -- left. exists j. split; [lia|done].
          + rewrite list_lookup_insert_ne in Hrow' by done.
            specialize (Hrows i' row' c Hrow').
            destruct (i' <? i)%nat; [done|].
            by destruct (Nat.eqb_spec i' i). }
      rewrite Hrun'. exists g', Cg', s''. split; [done|]. split; [done|].
      split; [|split; [congruence|split; [congruence|lia]]].
      rewrite Hlab', list_fmap_insert. simpl. rewrite list_insert_id; [done|].
      by rewrite list_lookup_fmap, Hptr.
    + (* the cell is 0 *)
      change (0 =? 1) with false. cbn iota.
      destruct (IH (S jcur) g Cg s) as (g' & Cg' & s'' & Hrun' & Hinv' & Hrest);
        [done|lia| |lia|].
      { split; [done|]. split; [done|]. split; [done|]. split; [done|].
        intros i' row' c Hrow'. specialize (Hrows i' row' c Hrow').
        destruct (i' <? i)%nat; [done|]. destruct (Nat.eqb_spec i' i) as [->|_]; [|done].
        rewrite Hrows. split.
        - intros (j & Hj & Hrest). exists j. split; [lia|done].
        - intros (j & Hj & Hm & Hc). exists j. split; [|done].
          destruct (decide (j = jcur)) as [->|Hjne]; [|lia].
          rewrite Hflag in Hm. done. }
      rewrite Hrun'. exists g', Cg', s''. split; [done|]. split; [done|].
      destruct Hrest as (? & ? & ? & ?). repeat split; (done || lia).
Qed.

(** The rows from [i] on. *)
Lemma copy_rows_spec (m : nat) :
  forall (i : nat) (g : graph_t) Cg (s : state),
    (i + m = length old)%nat ->
    copy_inv old Cold old_mat cids i 0 g Cg s ->
    global_edge_id s + Z.of_nat m * Z.of_nat (length old) < id_modulus ->
    exists g' Cg' s',
      copy_rows old old_mat (length old) (seq i m) g s = Some (g', s')
      /\ copy_inv old Cold old_mat cids (length old) 0 g' Cg' s'
      /\ node_label <$> g' = node_label <$> g
      /\ global_node_id s' = global_node_id s
      /\ revoked_node_ids s' = revoked_node_ids s.
Proof using cids_distinct cids_length Cold_length old_mat_eq.
  induction m as [|m IH]; intros i g Cg s Him Hinv Hroom.
  - exists g, Cg, s. replace i with (length old) in Hinv by lia.
    cbn [seq copy_rows]. unfold_monad.
    split; [done|]. split; [done|]. split; [done|]. by split.
  - assert (length g = length old) as Hlen_g.
    { destruct Hinv as (Hids & _). rewrite <- cids_length, <- Hids. by rewrite length_fmap. }
    cbn [seq copy_rows]. rewrite Hlen_g.
    destruct (copy_row_spec i (length old) 0 g Cg s) as (g1 & Cg1 & s1 & Hrun & Hinv1 & Hlab1 & Hgn1 & Hpn1 & Hge1);
      [lia|lia|done|nia|].
    unfold bind at 1. rewrite Hrun.
    destruct (IH (S i) g1 Cg1 s1) as (g' & Cg' & s' & Hrun' & Hinv' & Hlab' & Hgn' & Hpn');
      [lia|by apply copy_inv_next|nia|].
    rewrite Hrun'. exists g', Cg', s'. split; [done|]. split; [done|].
    split; [congruence|]. split; congruence.
Qed.

End Copy.

Lemma copy_matrix_eq (old : graph_t) Cold (cids : list Z) (g : graph_t) Cg (s : state) :
  NoDup cids ->
  length cids = length old ->
  length Cold = length old ->
  copy_inv old Cold (adjacency (node_id <$> old) ((fun l => l.*2) <$> Cold)) cids
    (length old) 0 g Cg s ->
  adjacency cids ((fun l => l.*2) <$> Cg)
  = adjacency (node_id <$> old) ((fun l => l.*2) <$> Cold).
Proof.
  intros Hnd Hlen HlenC (Hids & Hcells & _ & _ & Hrows).
  assert (length Cg = length old) as HlenCg.
  { apply Forall2_length in Hcells. rewrite !length_app in Hcells.
    rewrite <- Hids, length_fmap in Hlen. lia. }
  apply adjacency_ext. apply Forall2_same_length_lookup_2.
  { by rewrite !length_fmap, HlenCg, HlenC. }
  intros i es' es Hes' Hes.
  rewrite list_lookup_fmap in Hes', Hes.
  destruct (Cg !! i) as [row|] eqn:Hrow; [|done].
  destruct (Cold !! i) as [l|] eqn:Hl; [|done].
  simpl in Hes', Hes. injection Hes' as <-. injection Hes as <-.
  assert (i < length old)%nat as Hi by (rewrite <- HlenC; by eapply lookup_lt_Some).
  apply list_eq. intros j. rewrite !list_lookup_fmap.
  destruct (cids !! j) as [c|] eqn:Hc.
  - destruct (lookup_lt_is_Some_2 old j) as [o Ho];
      [rewrite <- Hlen; by eapply lookup_lt_Some|].
    rewrite Ho. simpl. f_equal.
    pose proof (old_mat_lookup old Cold _ eq_refl i j l o Hl Ho) as Hflag.
    specialize (Hrows i row c Hrow).
    replace (i <? length old)%nat with true in Hrows by (symmetry; by apply Nat.ltb_lt).
    assert (adj row.*2 c = adj l.*2 (node_id o)) as Heq; [|by rewrite Heq].
    apply eq_true_iff_eq. rewrite Hrows. split.
    + intros (j' & Hj' & Hm & Hc'). assert (j' = j) as -> by by eapply NoDup_lookup.
      rewrite Hflag in Hm. by destruct (adj l.*2 (node_id o)).
    + intros Hadj. exists j. split; [by eapply lookup_lt_Some|].
      split; [|done]. by rewrite Hflag, Hadj.
  - apply lookup_ge_None in Hc. rewrite Hlen in Hc.
    rewrite (proj2 (lookup_ge_None old j)) by done. done.
Qed.

Lemma concat_replicate_nil {A : Type} (k : nat) :
  concat (replicate k ([] : list A)) = [].
Proof. induction k as [|k IH]; [done|]. simpl. exact IH. Qed.

(** X20. [create_graph_copy] of a graph the allocator built (lists well
    formed and sharing no cell, identifiers agreeing with both
    allocators), when both counters have room: the copy has the labels
    and the adjacency matrix of the old graph, the old graph still has
    its matrix, and the old graph together with the copy satisfies the
    same invariant again, so the copy has identifiers of its own and
    edge cells of its own.  The copy of the empty graph is empty. *)
Theorem create_graph_copy_preserves_matrix (old : graph_t) (s : state) :
  system_ok old s ->
  global_node_id s + Z.of_nat (length old) < id_modulus ->
  global_edge_id s + Z.of_nat (length old) * Z.of_nat (length old) < id_modulus ->
  exists copy s' m,
    create_graph_copy old s = Some (copy, s')
    /\ node_label <$> copy = node_label <$> old
    /\ create_graph_matrix old s = Some (m, s)
    /\ create_graph_matrix old s' = Some (m, s')
    /\ create_graph_matrix copy s' = Some (m, s')
    /\ system_ok (old ++ copy) s'.
Proof.
  intros Hsys Hroomn Hroome. pose proof Hsys as (Cold & Hcells & Hnd & Hnodes & Hedges).
  destruct (decide (old = [])) as [->|Hne].
  { exists [], s, None. by repeat split. }
  pose proof (graph_cells_holds _ _ _ Hcells) as Hholds.
  pose proof (create_graph_matrix_spec _ _ _ Hholds) as Hmat.
  assert (length Cold = length old) as HlenC by (symmetry; by eapply Forall2_length).
  destruct (copy_nodes_spec old [] s _ Hnodes Hroomn)
    as (fresh & s1 & Hrun1 & Hlab1 & Hnone1 & Hnodes1 & Hheap1 & Hge1 & Hpe1).
  rewrite app_nil_l in Hrun1.
  assert (length fresh = length old) as Hlenf.
  { rewrite <- (length_fmap node_label fresh), Hlab1. apply length_fmap. }
  set (old_mat := adjacency (node_id <$> old) ((fun l => l.*2) <$> Cold)) in *.
  set (cids := node_id <$> fresh).
  assert (NoDup cids) as Hcids.
  { destruct Hnodes1 as (Hnd1 & _). apply NoDup_app in Hnd1 as (_ & _ & Hnd1).
    by apply NoDup_app in Hnd1 as (_ & _ & Hnd1). }
  assert (length cids = length old) as Hlenc by (unfold cids; by rewrite length_fmap).
  pose proof (concat_replicate_nil (A := nat * graph_edge_t) (length fresh)) as Hconcat.
  assert (copy_inv old Cold old_mat cids 0 0 fresh (replicate (length fresh) []) s1) as Hinv.
  { split; [done|]. split; [|split; [|split]].
    - apply Forall2_app.
      + eapply graph_cells_frame; [exact Hcells|]. intros a _. by rewrite Hheap1.
      + clear -Hnone1. induction Hnone1 as [|n fresh Hn _ IH]; [constructor|].
        simpl. constructor; [|done]. unfold chain. simpl. done.
    - by rewrite concat_app, Hconcat, app_nil_r.
    - rewrite concat_app, Hconcat, app_nil_r. unfold edge_ids_ok in *. by rewrite Hge1, Hpe1.
    - intros i' row c Hrow. apply lookup_replicate in Hrow as [-> _]. simpl.
      split; [done|]. intros (j & Hj & _).
      destruct (i' <? 0)%nat eqn:Hlt; [apply Nat.ltb_lt in Hlt; lia|].
      destruct (i' =? 0)%nat; lia. }
  destruct (copy_rows_spec old Cold cids old_mat Hcids Hlenc HlenC eq_refl (length old) 0
              fresh (replicate (length fresh) []) s1)
    as (g' & Cg' & s' & Hrun2 & Hinv' & Hlab2 & Hgn2 & Hpn2); [lia|exact Hinv|lia|].
  assert (forall x : list Z,
            match old with [] => None | _ :: _ => Some x end = Some x) as Hmatch
    by (intros x; by destruct old).
  rewrite Hmatch in Hmat.
  assert (create_graph_copy old s = Some (g', s')) as Hrun.
  { replace (create_graph_copy old)
      with (m <- create_graph_matrix old ;;
            old_mat <- lift_option m ;;
            graph <- copy_nodes old [] ;;
            copy_rows old old_mat (graph_dim old) (seq 0 (length graph)) graph)
      by by destruct old.
    unfold_monad. rewrite Hmat, Hrun1. unfold graph_dim. by rewrite Hlenf. }
  exists g', s', (Some old_mat). split; [done|].
  pose proof Hinv' as (Hids' & Hcells' & Hnd' & Hedges' & Hrows').
  apply Forall2_app_inv_l in Hcells' as (C1 & C2 & Hc1 & Hc2 & Heq).
  apply app_inj_1 in Heq as [<- <-]; [|apply Forall2_length in Hc1; lia].
  split; [congruence|].
  split; [done|].
  split.
  { rewrite (create_graph_matrix_spec _ _ _ (graph_cells_holds _ _ _ Hc1)).
    by rewrite Hmatch. }
  split.
  { rewrite (create_graph_matrix_spec _ _ _ (graph_cells_holds _ _ _ Hc2)).
    assert (length g' = length old) as Hleng
      by (rewrite <- Hlenc, <- Hids'; by rewrite length_fmap).
    destruct g' as [|n' g'']; [by destruct old|].
    do 3 f_equal. rewrite Hids'.
    exact (copy_matrix_eq old Cold cids _ _ s' Hcids Hlenc HlenC Hinv'). }
  exists (Cold ++ Cg'). split; [by apply Forall2_app|]. split; [done|]. split; [|done].
  unfold node_ids_ok in *. rewrite Hgn2, Hpn2, fmap_app, Hids'. exact Hnodes1.
Qed.

Ltac concrete_ids_ok :=
  split; [apply (bool_decide_unpack _); vm_compute; exact I|];
  split; [|done];
  let x := fresh "x" in let Hx := fresh "Hx" in
  intros x Hx; simpl in Hx;
  repeat (apply elem_of_cons in Hx as [->|Hx]; [reflexivity|]);
  by apply elem_of_nil in Hx.

Lemma create_graph_copy_preserves_matrix_witness :
  let s := mk_state 3 [] 2 [] [mk_cell (mk_edge 7 1 "a_b" 1 2) None] in
  let old := [mk_node 1 "a" (Some 0%nat); mk_node 2 "b" None] in
  exists copy s' m,
    create_graph_copy old s = Some (copy, s')
    /\ node_label <$> copy = node_label <$> old
    /\ create_graph_matrix old s = Some (m, s)
    /\ create_graph_matrix old s' = Some (m, s')
    /\ create_graph_matrix copy s' = Some (m, s')
    /\ system_ok (old ++ copy) s'.
Proof.
  intros s old. apply (create_graph_copy_preserves_matrix old s).
  - exists [[(0%nat, mk_edge 7 1 "a_b" 1 2)]; []].
    split; [|split; [|split]].
    + constructor.
      * split; [done|]. eexists. split; [reflexivity|]. done.
      * constructor; [done|constructor].
    + apply (bool_decide_unpack _). vm_compute. exact I.
    + concrete_ids_ok.
    + concrete_ids_ok.
  - reflexivity.
  - reflexivity.
Defined.
